(** * stick: the template lexer (lex.go) and the parser's token and block
    stacks (package parse)

    A shallow embedding of the Go sources.  Go strings are byte sequences
    and are modelled as [list ascii]; a Go [int] that holds an offset into
    the input is a [nat] (it is never negative and never exceeds
    [len(input)]), the bracket counter is a [Z].  A Go panic and a loop that
    does not come back are explicit outcomes of every operation. *)

From Stdlib Require Import Ascii String ZArith Lia.
From stdpp Require Import base list strings gmap.

Set Default Proof Using "Type".

(** ** Outcomes of a Go call *)

Inductive result (A : Type) : Type :=
| Ok (a : A)
| Panic (msg : string)
| Timeout.
Arguments Ok {A} a.
Arguments Panic {A} msg.
Arguments Timeout {A}.

#[global] Instance result_ret : MRet result := fun _ a => Ok a.
#[global] Instance result_bind : MBind result := fun _ _ f r =>
  match r with
  | Ok a => f a
  | Panic msg => Panic msg
  | Timeout => Timeout
  end.

(** [refines r r']: [r'] is what [r] becomes with more fuel. *)
Definition refines {A} (r r' : result A) : Prop := r = Timeout \/ r = r'.

Module Lex.

Abbreviation bytes := (list ascii).

Definition bytes_of (s : string) : bytes := list_ascii_of_string s.

Definition quote : ascii := ascii_of_nat 34.
Definition tab : ascii := ascii_of_nat 9.

(** *** Go built-ins and the [strings] and [unicode] functions used *)

(** [s[lo:hi]]: panics unless [lo <= hi <= len(s)]. *)
Definition slice (s : bytes) (lo hi : nat) : result bytes :=
  if decide (lo <= hi /\ hi <= length s)
  then Ok (take (hi - lo) (drop lo s))
  else Panic "slice bounds out of range".

(** [s[lo:]] *)
Definition slice_from (s : bytes) (lo : nat) : result bytes :=
  slice s lo (length s).

(** [strings.HasPrefix] *)
Definition hasPrefix (s prefix : bytes) : bool :=
  (length prefix <=? length s) && bool_decide (take (length prefix) s = prefix).

(** [strings.ContainsAny(s, chars)] for a [chars] of ASCII characters: a
    byte of [s] below 0x80 is the code point itself, and no other byte of
    [s] decodes to an ASCII code point. *)
Definition containsAny (s chars : bytes) : bool :=
  existsb (fun c => bool_decide (c ∈ chars)) s.

(** [strings.Index(s, string(c))] for a one-byte needle; -1 when absent. *)
Fixpoint indexByte (s : bytes) (c : ascii) : Z :=
  match s with
  | [] => (-1)%Z
  | x :: r =>
      if decide (x = c) then 0%Z
      else let i := indexByte r c in
           if (i <? 0)%Z then (-1)%Z else (i + 1)%Z
  end.

(** [for _, s := range str]: the lexer ranges only over strings of at most
    one byte (what [current] and [next] return).  Such a byte below 0x80 is
    its own code point; any other single byte is invalid UTF-8 and decodes
    to U+FFFD. *)
Definition rune_of_byte (b : ascii) : N :=
  if (N_of_ascii b <? 128)%N then N_of_ascii b else 65533%N.

Definition runes (str : bytes) : list N := map rune_of_byte str.

(** [unicode.IsDigit] and [unicode.IsLetter] on the code points that can
    arise above: ASCII and U+FFFD (which is neither). *)
Definition unicode_IsDigit (r : N) : bool := ((48 <=? r) && (r <=? 57))%N.
Definition unicode_IsLetter (r : N) : bool :=
  (((65 <=? r) && (r <=? 90)) || ((97 <=? r) && (r <=? 122)))%N.

(** *** Tokens *)

Inductive tokenType : Set :=
| tokenText | tokenName | tokenNumber
| tokenTagOpen | tokenTagName | tokenTagClose
| tokenPrintOpen | tokenPrintClose
| tokenParensOpen | tokenParensClose
| tokenArrayOpen | tokenArrayClose
| tokenHashOpen | tokenHashClose
| tokenStringOpen | tokenStringClose
| tokenPunctuation | tokenOperator
| tokenError | tokenEof.

#[global] Instance tokenType_eq_dec : EqDecision tokenType.
Proof. solve_decision. Defined.

Definition delimEof : bytes := [].
Definition delimOpenTag : bytes := bytes_of "{%".
Definition delimCloseTag : bytes := bytes_of "%}".
Definition delimOpenPrint : bytes := bytes_of "{{".
Definition delimClosePrint : bytes := bytes_of "}}".

Record token : Set := Token {
  tok_value : bytes;
  tok_pos : nat;
  tok_type : tokenType
}.

#[global] Instance token_eq_dec : EqDecision token.
Proof. solve_decision. Defined.

Abbreviation tokenStream := (list token).

(** The state functions, as values of Go's [stateFn]; [None] is [nil]. *)
Inductive stateFn : Set :=
| LexData | LexExpression | LexNumber | LexOperator | LexPunctuation
| LexString | LexOpenParens | LexCloseParens | LexName
| LexTagOpen | LexTagName | LexTagClose | LexPrintOpen | LexPrintClose.

#[global] Instance stateFn_eq_dec : EqDecision stateFn.
Proof. solve_decision. Defined.

(** [parens] is a Go [int]; it moves by one per bracket token, so on no
    source shorter than 2^63 bytes can it wrap, and it is kept unbounded. *)
Record lexer : Set := Lexer {
  pos : nat;
  cursor : nat;
  parens : Z;
  input : bytes;
  tokens : tokenStream;
  state : option stateFn
}.

(** [lexer{}] *)
Definition lexer0 : lexer :=
  {| pos := 0; cursor := 0; parens := 0; input := []; tokens := []; state := None |}.

Definition set_pos (lex : lexer) (p : nat) : lexer :=
  {| pos := p; cursor := cursor lex; parens := parens lex;
     input := input lex; tokens := tokens lex; state := state lex |}.
Definition set_cursor (lex : lexer) (c : nat) : lexer :=
  {| pos := pos lex; cursor := c; parens := parens lex;
     input := input lex; tokens := tokens lex; state := state lex |}.
Definition set_parens (lex : lexer) (n : Z) : lexer :=
  {| pos := pos lex; cursor := cursor lex; parens := n;
     input := input lex; tokens := tokens lex; state := state lex |}.
Definition set_input (lex : lexer) (s : bytes) : lexer :=
  {| pos := pos lex; cursor := cursor lex; parens := parens lex;
     input := s; tokens := tokens lex; state := state lex |}.
Definition set_tokens (lex : lexer) (ts : tokenStream) : lexer :=
  {| pos := pos lex; cursor := cursor lex; parens := parens lex;
     input := input lex; tokens := ts; state := state lex |}.
Definition set_state (lex : lexer) (st : option stateFn) : lexer :=
  {| pos := pos lex; cursor := cursor lex; parens := parens lex;
     input := input lex; tokens := tokens lex; state := st |}.

(** *** Cursor primitives *)

Definition current (lex : lexer) : result bytes :=
  slice (input lex) (cursor lex) (cursor lex + 1).

Definition next (lex : lexer) : result (bytes * lexer) :=
  if length (input lex) <=? cursor lex then Ok (delimEof, lex)
  else
    let lex1 := set_cursor lex (cursor lex + 1) in
    if cursor lex1 =? length (input lex1) then Ok (delimEof, lex1)
    else str ← current lex1; Ok (str, lex1).

Definition ignore (lex : lexer) : lexer := set_pos lex (cursor lex).

Definition isSpace (str : bytes) : bool :=
  bool_decide (str = bytes_of " ") || bool_decide (str = [tab]).

Definition isName (str : bytes) : bool :=
  forallb (fun s => negb (negb (bool_decide (s = 95%N))
                          && negb (unicode_IsLetter s)
                          && negb (unicode_IsDigit s))) (runes str).

Definition isAlphaNumeric (str : bytes) : bool :=
  forallb (fun s => negb (negb (unicode_IsLetter s) && negb (unicode_IsDigit s)))
          (runes str).

Definition isNumeric (str : bytes) : bool :=
  forallb (fun s => negb (negb (unicode_IsDigit s))) (runes str).

(** [consumeWhitespace]: the loop, one unit of fuel per iteration. *)
Fixpoint consumeWhitespace_loop (fuel : nat) (lex : lexer) : result lexer :=
  match fuel with
  | 0 => Timeout
  | S fuel' =>
      str ← current lex;
      if isSpace str
      then '(_, lex1) ← next lex; consumeWhitespace_loop fuel' lex1
      else Ok lex
  end.

Definition consumeWhitespace (fuel : nat) (lex : lexer) : result lexer :=
  if negb (pos lex =? cursor lex)
  then Panic "Whitespace may only be consumed directly after emission"
  else lex1 ← consumeWhitespace_loop fuel lex; Ok (ignore lex1).

Definition emit (fuel : nat) (lex : lexer) (t : tokenType) : result lexer :=
  val ← slice (input lex) (pos lex) (cursor lex);
  let tok := Token val (pos lex) t in
  let lex1 := set_tokens lex (tokens lex ++ [tok]) in
  let lex2 := set_pos lex1 (cursor lex1) in
  if pos lex2 <? length (input lex2)
  then consumeWhitespace fuel lex2
  else Ok lex2.

(** [errorf] with a format that has no verbs: the message is the format. *)
Definition errorf (lex : lexer) (msg : string) : lexer * option stateFn :=
  let tok := Token (bytes_of msg) (pos lex) tokenError in
  (set_tokens lex (tokens lex ++ [tok]), None).

(** *** The state functions

    Each takes the fuel that bounds its loops (and those of [emit]) and
    returns the lexer together with the next state function. *)

Definition step_result : Type := result (lexer * option stateFn).

(** [if lex.cursor > lex.pos { lex.emit(tokenText) }] *)
Definition emit_pending (fuel : nat) (lex : lexer) : result lexer :=
  if pos lex <? cursor lex then emit fuel lex tokenText else Ok lex.

(** The [for] of [lexData]: [Some st] is a [return st] from inside the
    loop, [None] is the [break]. *)
Fixpoint lexData_loop (fuel : nat) (lex : lexer) : step_result :=
  match fuel with
  | 0 => Timeout
  | S fuel' =>
      rest ← slice_from (input lex) (cursor lex);
      if hasPrefix rest delimOpenTag then
        lex1 ← emit_pending fuel' lex; Ok (lex1, Some LexTagOpen)
      else if hasPrefix rest delimOpenPrint then
        lex1 ← emit_pending fuel' lex; Ok (lex1, Some LexPrintOpen)
      else
        '(str, lex1) ← next lex;
        if bool_decide (str = delimEof) then Ok (lex1, None)
        else lexData_loop fuel' lex1
  end.

Definition lexData (fuel : nat) (lex : lexer) : step_result :=
  '(lex1, ret) ← lexData_loop fuel lex;
  match ret with
  | Some st => Ok (lex1, Some st)
  | None =>
      lex2 ← emit_pending fuel lex1;
      lex3 ← emit fuel lex2 tokenEof;
      Ok (lex3, None)
  end.

Definition lexExpression (lex : lexer) : step_result :=
  str ← current lex;
  rest ← slice_from (input lex) (cursor lex);
  if hasPrefix rest delimCloseTag then
    if pos lex <? cursor lex then Panic "Incomplete token?"
    else Ok (lex, Some LexTagClose)
  else if hasPrefix rest delimClosePrint then
    if pos lex <? cursor lex then Panic "Incomplete token?"
    else Ok (lex, Some LexPrintClose)
  else if containsAny str (bytes_of "+-/*%~") then Ok (lex, Some LexOperator)
  else if containsAny str (bytes_of ",?:|") then Ok (lex, Some LexPunctuation)
  else if containsAny str (bytes_of "([{") then Ok (lex, Some LexOpenParens)
  else if containsAny str (bytes_of "}])") then Ok (lex, Some LexCloseParens)
  else if bool_decide (str = [quote]) then Ok (lex, Some LexString)
  else if isNumeric str then Ok (lex, Some LexNumber)
  else if isName str then Ok (lex, Some LexName)
  else Panic "Unknown expression".

Fixpoint lexNumber_loop (fuel : nat) (lex : lexer) : result lexer :=
  match fuel with
  | 0 => Timeout
  | S fuel' =>
      '(str, lex1) ← next lex;
      if negb (isNumeric str) then Ok lex1 else lexNumber_loop fuel' lex1
  end.

Definition lexNumber (fuel : nat) (lex : lexer) : step_result :=
  lex1 ← lexNumber_loop fuel lex;
  lex2 ← emit fuel lex1 tokenNumber;
  Ok (lex2, Some LexExpression).

Definition lexOperator (fuel : nat) (lex : lexer) : step_result :=
  '(_, lex1) ← next lex;
  lex2 ← emit fuel lex1 tokenOperator;
  Ok (lex2, Some LexExpression).

Definition lexPunctuation (fuel : nat) (lex : lexer) : step_result :=
  '(_, lex1) ← next lex;
  lex2 ← emit fuel lex1 tokenPunctuation;
  Ok (lex2, Some LexExpression).

Definition lexString (fuel : nat) (lex : lexer) : step_result :=
  '(_, lex1) ← next lex;
  lex2 ← emit fuel lex1 tokenStringOpen;
  rest ← slice_from (input lex2) (cursor lex2);
  let closePos := indexByte rest quote in
  if (closePos <? 0)%Z then Ok (errorf lex2 "unclosed string")
  else
    let lex3 := set_cursor lex2 (cursor lex2 + Z.to_nat closePos) in
    lex4 ← emit fuel lex3 tokenText;
    '(_, lex5) ← next lex4;
    lex6 ← emit fuel lex5 tokenStringClose;
    Ok (lex6, Some LexExpression).

Definition lexOpenParens (fuel : nat) (lex : lexer) : step_result :=
  str ← current lex;
  lex2 ← (if bool_decide (str = bytes_of "(") then
            '(_, lex1) ← next lex; emit fuel lex1 tokenParensOpen
          else if bool_decide (str = bytes_of "[") then
            '(_, lex1) ← next lex; emit fuel lex1 tokenArrayOpen
          else if bool_decide (str = bytes_of "{") then
            '(_, lex1) ← next lex; emit fuel lex1 tokenHashOpen
          else Panic "Unknown parens");
  Ok (set_parens lex2 (parens lex2 + 1), Some LexExpression).

Definition lexCloseParens (fuel : nat) (lex : lexer) : step_result :=
  str ← current lex;
  lex2 ← (if bool_decide (str = bytes_of ")") then
            '(_, lex1) ← next lex; emit fuel lex1 tokenParensClose
          else if bool_decide (str = bytes_of "]") then
            '(_, lex1) ← next lex; emit fuel lex1 tokenArrayClose
          else if bool_decide (str = bytes_of "}") then
            '(_, lex1) ← next lex; emit fuel lex1 tokenHashClose
          else Panic "Unknown parens");
  Ok (set_parens lex2 (parens lex2 - 1), Some LexExpression).

Fixpoint lexName_loop (fuel : nat) (lex : lexer) : result lexer :=
  match fuel with
  | 0 => Timeout
  | S fuel' =>
      str ← current lex;
      if isAlphaNumeric str
      then '(_, lex1) ← next lex; lexName_loop fuel' lex1
      else Ok lex
  end.

Definition lexName (fuel : nat) (lex : lexer) : step_result :=
  lex1 ← lexName_loop fuel lex;
  lex2 ← emit fuel lex1 tokenName;
  Ok (lex2, Some LexExpression).

Definition lexTagOpen (fuel : nat) (lex : lexer) : step_result :=
  let lex1 := set_cursor lex (cursor lex + length delimOpenTag) in
  lex2 ← emit fuel lex1 tokenTagOpen;
  Ok (lex2, Some LexTagName).

Fixpoint lexTagName_loop (fuel : nat) (lex : lexer) : result lexer :=
  match fuel with
  | 0 => Timeout
  | S fuel' =>
      '(str, lex1) ← next lex;
      if negb (isAlphaNumeric str) then Ok lex1 else lexTagName_loop fuel' lex1
  end.

Definition lexTagName (fuel : nat) (lex : lexer) : step_result :=
  lex1 ← lexTagName_loop fuel lex;
  lex2 ← emit fuel lex1 tokenTagName;
  Ok (lex2, Some LexExpression).

Definition lexTagClose (fuel : nat) (lex : lexer) : step_result :=
  if (0 <? parens lex)%Z then Ok (errorf lex "unclosed parenthesis")
  else
    let lex1 := set_cursor lex (cursor lex + length delimCloseTag) in
    lex2 ← emit fuel lex1 tokenTagClose;
    Ok (lex2, Some LexData).

Definition lexPrintOpen (fuel : nat) (lex : lexer) : step_result :=
  let lex1 := set_cursor lex (cursor lex + length delimOpenPrint) in
  lex2 ← emit fuel lex1 tokenPrintOpen;
  Ok (lex2, Some LexExpression).

Definition lexPrintClose (fuel : nat) (lex : lexer) : step_result :=
  if (0 <? parens lex)%Z then Ok (errorf lex "unclosed parenthesis")
  else
    let lex1 := set_cursor lex (cursor lex + length delimClosePrint) in
    lex2 ← emit fuel lex1 tokenPrintClose;
    Ok (lex2, Some LexData).

(** Calling a [stateFn] value. *)
Definition call (st : stateFn) (fuel : nat) (lex : lexer) : step_result :=
  match st with
  | LexData => lexData fuel lex
  | LexExpression => lexExpression lex
  | LexNumber => lexNumber fuel lex
  | LexOperator => lexOperator fuel lex
  | LexPunctuation => lexPunctuation fuel lex
  | LexString => lexString fuel lex
  | LexOpenParens => lexOpenParens fuel lex
  | LexCloseParens => lexCloseParens fuel lex
  | LexName => lexName fuel lex
  | LexTagOpen => lexTagOpen fuel lex
  | LexTagName => lexTagName fuel lex
  | LexTagClose => lexTagClose fuel lex
  | LexPrintOpen => lexPrintOpen fuel lex
  | LexPrintClose => lexPrintClose fuel lex
  end.

(** [lex.state = lex.state(lex)] *)
Definition step (fuel : nat) (st : stateFn) (lex : lexer) : result lexer :=
  '(lex1, st') ← call st fuel lex; Ok (set_state lex1 st').

(** [for ...; lex.state != nil; { lex.state = lex.state(lex) }] *)
Fixpoint run (fuel : nat) (lex : lexer) : result lexer :=
  match fuel with
  | 0 => Timeout
  | S fuel' =>
      match state lex with
      | None => Ok lex
      | Some st => lex1 ← step fuel' st lex; run fuel' lex1
      end
  end.

(** [tokenize] resets [pos], [cursor], [input] and [tokens] of the receiver
    (not [parens]); the lexer it leaves behind is returned with the stream,
    since the receiver is a pointer. *)
Definition start (lex : lexer) (code : bytes) : lexer :=
  set_state (set_tokens (set_input (set_cursor (set_pos lex 0) 0) code) [])
            (Some LexData).

Definition tokenize (fuel : nat) (lex : lexer) (code : bytes)
  : result (tokenStream * lexer) :=
  lex1 ← run fuel (start lex code); Ok (tokens lex1, lex1).

(** [lex(input)]: a fresh lexer for every call. *)
Definition lex (fuel : nat) (code : bytes) : result tokenStream :=
  '(toks, _) ← tokenize fuel lexer0 code; Ok toks.

(** *** Cursor primitives the state functions do not call *)

Definition backup (lex : lexer) : lexer :=
  if cursor lex <=? pos lex then lex
  else set_cursor lex (cursor lex - 1).

Definition peek (lex : lexer) : result bytes :=
  slice (input lex) (cursor lex + 1) (cursor lex + 2).

End Lex.

(** * Package parse: the token stacks and the block stack of [Tree] *)

Module Parse.

Section Tree.

(** Declared elsewhere in package parse: its token and lexer types, the
    node types, and the method [nextToken] of the lexer, which hands over the next token
    of the lexer (or does not come back). *)
Context {token lexer ModuleNode BlockNode : Type}.
Variable nextToken : lexer -> result (token * lexer).

(** A Go map is a reference to a map object; [make] allocates a new one.
    The objects live in a heap, and [blocks] holds their addresses.
    [unread] and [read] are slices of token values that [Parse] makes
    separately, so an append to one never writes into the other: lists. *)
Definition loc : Type := positive.

Record Tree : Type := mkTree {
  root : ModuleNode;
  blocks : list loc;
  input : string;
  lex : lexer;
  unread : list token;
  read : list token
}.

Definition set_blocks (t : Tree) (bs : list loc) : Tree :=
  mkTree (root t) bs (input t) (lex t) (unread t) (read t).
Definition set_lex (t : Tree) (lx : lexer) : Tree :=
  mkTree (root t) (blocks t) (input t) lx (unread t) (read t).
Definition set_unread (t : Tree) (u : list token) : Tree :=
  mkTree (root t) (blocks t) (input t) (lex t) u (read t).
Definition set_read (t : Tree) (r : list token) : Tree :=
  mkTree (root t) (blocks t) (input t) (lex t) (unread t) r.

(** [s[len(s)-1]]: panics on an empty slice. *)
Definition top {A} (s : list A) : result A :=
  match s !! (length s - 1) with
  | Some x => Ok x
  | None => Panic "index out of range"
  end.

(** [s[:len(s)-1]] *)
Definition pop {A} (s : list A) : list A := take (length s - 1) s.

(** [Blocks]: the map on top of the stack. *)
Definition Blocks (t : Tree) : result loc := top (blocks t).

Definition popBlockStack (t : Tree) : result (loc * Tree) :=
  bs ← Blocks t;
  Ok (bs, set_blocks t (pop (blocks t))).

(** [make(map[string]*BlockNode)] is the map object at a fresh address. *)
Definition pushBlockStack (h : gmap loc (gmap string BlockNode)) (t : Tree)
  : gmap loc (gmap string BlockNode) * Tree :=
  let l := fresh (dom h) in
  (<[l := ∅]> h, set_blocks t (blocks t ++ [l])).

Definition setBlock (name : string) (body : BlockNode)
    (h : gmap loc (gmap string BlockNode)) (t : Tree)
  : result (gmap loc (gmap string BlockNode)) :=
  l ← top (blocks t);
  match h !! l with
  | Some m => Ok (<[l := <[name := body]> m]> h)
  | None => Panic "assignment to entry in nil map"
  end.

Definition backup (t : Tree) : result Tree :=
  tok ← top (read t);
  let t1 := set_read t (pop (read t)) in
  Ok (set_unread t1 (unread t1 ++ [tok])).

Definition backup2 (t : Tree) : result Tree :=
  t1 ← backup t; backup t1.

Definition backup3 (t : Tree) : result Tree :=
  t1 ← backup t; t2 ← backup t1; backup t2.

Definition next (t : Tree) : result (token * Tree) :=
  '(tok, t1) ←
    (if 0 <? length (unread t)
     then tok ← top (unread t); Ok (tok, set_unread t (pop (unread t)))
     else '(tok, lx) ← nextToken (lex t); Ok (tok, set_lex t lx));
  Ok (tok, set_read t1 (read t1 ++ [tok])).

(** [peek] *)
Definition peek (t : Tree) : result (token * Tree) :=
  '(tok, t1) ← next t; t2 ← backup t1; Ok (tok, t2).

(** Not a function of the source: the three calls
    [pushBlockStack(); setBlock(name, body); popBlockStack()] in a row. *)
Definition push_set_pop (name : string) (body : BlockNode)
    (h : gmap loc (gmap string BlockNode)) (t : Tree)
  : result (loc * gmap loc (gmap string BlockNode) * Tree) :=
  let '(h1, t1) := pushBlockStack h t in
  h2 ← setBlock name body h1 t1;
  '(l, t3) ← popBlockStack t1;
  Ok (l, h2, t3).

End Tree.

Arguments Tree : clear implicits.

Section Grammar.

(** Declared elsewhere in package parse: the fields [tokenType] and
    [value] of its token, the token types [tokenWhitespace] and
    [tokenEof], and the constructors of its errors. *)
Context {token lexer ModuleNode tokenType error : Type}.
Context `{EqDecision tokenType}.
Variable nextToken : lexer -> result (token * lexer).
Variable tok_tokenType : token -> tokenType.
Variable tok_value : token -> string.
Variables tokenWhitespace tokenEof : tokenType.
Variable newUnexpectedTokenError : token -> list tokenType -> error.
Variable newUnexpectedValueError : token -> string -> error.

(** [next.tokenType != tokenWhitespace || next.tokenType == tokenEof] *)
Definition nonSpace (tok : token) : bool :=
  negb (bool_decide (tok_tokenType tok = tokenWhitespace))
  || bool_decide (tok_tokenType tok = tokenEof).

Fixpoint peekNonSpace (fuel : nat) (t : Tree token lexer ModuleNode)
  : result (token * Tree token lexer ModuleNode) :=
  match fuel with
  | 0 => Timeout
  | S fuel' =>
      '(nx, t1) ← next nextToken t;
      if nonSpace nx then t2 ← backup t1; Ok (nx, t2)
      else peekNonSpace fuel' t1
  end.

Fixpoint nextNonSpace (fuel : nat) (t : Tree token lexer ModuleNode)
  : result (token * Tree token lexer ModuleNode) :=
  match fuel with
  | 0 => Timeout
  | S fuel' =>
      '(nx, t1) ← next nextToken t;
      if nonSpace nx then Ok (nx, t1) else nextNonSpace fuel' t1
  end.

(** [expect]: the error is [None] for Go's [nil]. *)
Definition expect (fuel : nat) (typs : list tokenType)
    (t : Tree token lexer ModuleNode)
  : result (token * option error * Tree token lexer ModuleNode) :=
  '(tok, t1) ← nextNonSpace fuel t;
  if existsb (fun typ => bool_decide (tok_tokenType tok = typ)) typs
  then Ok (tok, None, t1)
  else Ok (tok, Some (newUnexpectedTokenError tok typs), t1).

Definition expectValue (fuel : nat) (typ : tokenType) (val : string)
    (t : Tree token lexer ModuleNode)
  : result (token * option error * Tree token lexer ModuleNode) :=
  '(tok, err, t1) ← expect fuel [typ] t;
  match err with
  | Some e => Ok (tok, Some e, t1)
  | None =>
      if negb (bool_decide (tok_value tok = val))
      then Ok (tok, Some (newUnexpectedValueError tok val), t1)
      else Ok (tok, None, t1)
  end.

End Grammar.

End Parse.

(** * Vocabulary of the statements about the lexer *)

Section LexVocabulary.

Import Lex.

(** ** The machine, step by step *)

(** The first [n] iterations of the loop of [tokenize], each with fuel
    [fuel] for the state function it calls. *)
Fixpoint steps (n fuel : nat) (lex : lexer) : result lexer :=
  match n with
  | 0 => Ok lex
  | S n' =>
      match state lex with
      | None => Ok lex
      | Some st => lex1 ← step fuel st lex; steps n' fuel lex1
      end
  end.

(** [lex] is the lexer after some iterations of the loop of [tokenize]
    that began at [lex0]. *)
Definition Reaches (lex0 lex : lexer) : Prop :=
  exists n fuel, steps n fuel lex0 = Ok lex.

(** ** Tokens against the source *)

(** A byte that [consumeWhitespace] skips. *)
Definition isSpaceByte (b : ascii) : Prop := isSpace [b] = true.

Definition tok_end (t : token) : nat := tok_pos t + length (tok_value t).

(** [code[lo:hi]] when in range (and what is there of it otherwise). *)
Definition between (code : bytes) (lo hi : nat) : bytes :=
  take (hi - lo) (drop lo code).

(** The token sits in the source where it says it does. *)
Definition at_source (code : bytes) (t : token) : Prop :=
  slice code (tok_pos t) (tok_end t) = Ok (tok_value t).

#[global] Instance at_source_dec code t : Decision (at_source code t).
Proof. unfold at_source. solve_decision. Defined.

Definition terminator (t : token) : Prop :=
  tok_type t = tokenEof \/ tok_type t = tokenError.

(** The bytes of [code] that no token holds: for each token the run from
    its end to the position of the next token, and to [q] for the last.
    These are the runs [consumeWhitespace] dropped after each emission. *)
Fixpoint skipped (code : bytes) (toks : tokenStream) (q : nat) : list bytes :=
  match toks with
  | [] => []
  | t :: rest =>
      between code (tok_end t)
        (match rest with [] => q | t' :: _ => tok_pos t' end)
      :: skipped code rest q
  end.

(** Each lexeme followed by the run skipped after it, in order. *)
Definition reassemble (toks : tokenStream) (gaps : list bytes) : bytes :=
  concat (zip_with (fun t g => tok_value t ++ g) toks gaps).

(** [strings.Contains(s, sub)] *)
Fixpoint contains (s sub : bytes) : bool :=
  hasPrefix s sub ||
  match s with
  | [] => false
  | _ :: r => contains r sub
  end.

Definition no_delimiter (code : bytes) : Prop :=
  contains code delimOpenTag = false /\ contains code delimOpenPrint = false.

(** One Text token holding [code], then one EOF token. *)
Definition text_then_eof (code : bytes) (toks : tokenStream) : Prop :=
  exists t e, toks = [t; e] /\
    tok_type t = tokenText /\ tok_value t = code /\ tok_type e = tokenEof.

Definition unclosed_parenthesis (p : nat) : token :=
  Token (bytes_of "unclosed parenthesis") p tokenError.

Definition unclosed_string (p : nat) : token :=
  Token (bytes_of "unclosed string") p tokenError.

(** ** The invariant of the machine *)

(** [Lexed code toks q]: the tokens [toks], none of them an Error or EOF
    token, lie in [code] one after the other, each at its recorded
    position and followed by a run of spaces and tabs, and together they
    cover [code[0:q]]. *)
Inductive Lexed (code : bytes) : tokenStream -> nat -> Prop :=
| Lexed_nil : Lexed code [] 0
| Lexed_snoc toks tok e q :
    Lexed code toks (tok_pos tok) ->
    tok_type tok <> tokenError -> tok_type tok <> tokenEof ->
    tok_pos tok <= e -> e <= q -> q <= length code ->
    tok_value tok = take (e - tok_pos tok) (drop (tok_pos tok) code) ->
    Forall isSpaceByte (take (q - e) (drop e code)) ->
    Lexed code (toks ++ [tok]) q.

(** While the machine runs: the tokens so far cover the source up to
    [pos]. *)
Definition Inv (code : bytes) (lex : lexer) : Prop :=
  input lex = code /\ Lexed code (tokens lex) (pos lex).

(** The stream a halted machine leaves behind. *)
Definition Final (code : bytes) (toks : tokenStream) : Prop :=
  exists body last,
    toks = body ++ [last] /\ Lexed code body (tok_pos last) /\
    (tok_type last = tokenError \/
     (tok_type last = tokenEof /\ tok_value last = [] /\
      tok_pos last = length code)).

(** What [run] maintains between two calls of a state function. *)
Definition Good (code : bytes) (lex : lexer) : Prop :=
  match state lex with
  | Some _ => Inv code lex
  | None => Final code (tokens lex)
  end.

(** ** Sources and streams of the examples *)

Definition src_paren_open : bytes := bytes_of "{{ (1+2 }}".
Definition src_paren_ok : bytes := bytes_of "{{ (1+2) }}".
Definition src_paren_close_only : bytes := bytes_of "{{ ) }}".
Definition src_unterminated : bytes :=
  bytes_of "{{ " ++ [quote] ++ bytes_of "unterminated }}".
Definition src_reuse_a : bytes := bytes_of "{{ (" ++ [quote] ++ bytes_of "x }}".
Definition src_reuse_b : bytes := bytes_of "{{ 1 }}".
Definition src_quote_then_blank : bytes :=
  bytes_of "{{ " ++ [quote] ++ bytes_of " ".
Definition src_mixed : bytes := bytes_of "a {% foo %} b {{ 1 }}c".
Definition src_plain : bytes := bytes_of "hello world ".
Definition src_number_at_end : bytes := bytes_of "{{ 1".
Definition src_tag_at_end : bytes := bytes_of "{% if".

Definition toks_paren_open : tokenStream :=
  [ Token (bytes_of "{{") 0 tokenPrintOpen;
    Token (bytes_of "(") 3 tokenParensOpen;
    Token (bytes_of "1") 4 tokenNumber;
    Token (bytes_of "+") 5 tokenOperator;
    Token (bytes_of "2") 6 tokenNumber;
    unclosed_parenthesis 8 ].

Definition toks_paren_ok : tokenStream :=
  [ Token (bytes_of "{{") 0 tokenPrintOpen;
    Token (bytes_of "(") 3 tokenParensOpen;
    Token (bytes_of "1") 4 tokenNumber;
    Token (bytes_of "+") 5 tokenOperator;
    Token (bytes_of "2") 6 tokenNumber;
    Token (bytes_of ")") 7 tokenParensClose;
    Token (bytes_of "}}") 9 tokenPrintClose;
    Token [] 11 tokenEof ].

Definition toks_unterminated : tokenStream :=
  [ Token (bytes_of "{{") 0 tokenPrintOpen;
    Token [quote] 3 tokenStringOpen;
    unclosed_string 4 ].

(** ** Brackets, and what one call of a state function may do *)

(** What emitting a token of type [t] does to the bracket counter. *)
Definition delta (t : tokenType) : Z :=
  match t with
  | tokenParensOpen | tokenArrayOpen | tokenHashOpen => 1
  | tokenParensClose | tokenArrayClose | tokenHashClose => -1
  | _ => 0
  end.

(** Opening bracket tokens minus closing bracket tokens. *)
Definition balance (toks : tokenStream) : Z :=
  foldr (fun t z => (delta (tok_type t) + z)%Z) 0%Z toks.

Definition closeDelim (t : tokenType) : bool :=
  match t with
  | tokenTagClose | tokenPrintClose => true
  | _ => false
  end.

(** The moves the state functions are made of: the cursor goes
    somewhere, a plain token is emitted, a bracket token is emitted and
    counted, a close delimiter is emitted under its guard, the next state
    is stored. *)
Inductive Move : lexer -> lexer -> Prop :=
| Move_cursor lex c : Move lex (set_cursor lex c)
| Move_state lex st : Move lex (set_state lex st)
| Move_emit fuel lex t lex' :
    emit fuel lex t = Ok lex' ->
    delta t = 0%Z -> closeDelim t = false ->
    t <> tokenError -> t <> tokenEof ->
    Move lex lex'
| Move_bracket fuel lex t lex' :
    emit fuel lex t = Ok lex' -> delta t <> 0%Z ->
    Move lex (set_parens lex' (parens lex' + delta t))
| Move_close fuel lex t lex' :
    emit fuel lex t = Ok lex' -> closeDelim t = true ->
    (parens lex <= 0)%Z ->
    Move lex lex'.

(** How the machine halts: by [errorf], or by emitting the EOF token. *)
Definition Halt (lex lex' : lexer) : Prop :=
  (exists msg, lex' = set_state (errorf lex msg).1 None) \/
  (exists fuel l, emit fuel lex tokenEof = Ok l /\ lex' = set_state l None).

(** The machine got from [lex0] to [lex] appending tokens [new]: the
    counter moved by their balance, and every close delimiter among them
    was emitted with the counter at most zero. *)
Definition Accounted (lex0 lex : lexer) : Prop :=
  exists new,
    tokens lex = tokens lex0 ++ new /\
    parens lex = (parens lex0 + balance new)%Z /\
    forall i t, new !! i = Some t -> closeDelim (tok_type t) = true ->
      (parens lex0 + balance (take i new) <= 0)%Z.

(** No token but the first, and no Error token aside, begins with a
    space or a tab. *)
Definition NoLeadingBlank (toks : tokenStream) : Prop :=
  forall i t b, toks !! S i = Some t -> tok_type t <> tokenError ->
    head (tok_value t) = Some b -> ~ isSpaceByte b.

(** After the first emission the pending lexeme never starts at a space
    or a tab. *)
Definition Landed (lex : lexer) : Prop :=
  (tokens lex = [] \/
   forall b, input lex !! pos lex = Some b -> ~ isSpaceByte b) /\
  NoLeadingBlank (tokens lex).

(** A byte at which [lexExpression] finds no case: it begins no close
    delimiter and is no operator, punctuation, bracket, quote, digit or
    name character. *)
Definition unknown_byte (b : ascii) : bool :=
  negb (containsAny [b] (bytes_of "+-/*%~")) &&
  negb (containsAny [b] (bytes_of ",?:|")) &&
  negb (containsAny [b] (bytes_of "([{")) &&
  negb (containsAny [b] (bytes_of "}])")) &&
  negb (bool_decide ([b] = [quote])) &&
  negb (isNumeric [b]) && negb (isName [b]).

Definition newline : ascii := ascii_of_nat 10.
Definition underscore : ascii := ascii_of_nat 95.

Definition src_newline : bytes := bytes_of "{{ 1" ++ [newline] ++ bytes_of "}}".
Definition src_underscore : bytes := bytes_of "{{ a_b }}".
Definition src_open_only : bytes := bytes_of "{{ 1 +".
Definition src_trailing_blank : bytes := bytes_of "{{ 1 }} ".

(** The lexer before [emit] emits the PrintClose token of
    [src_trailing_blank]. *)
Definition lex_trailing_blank : lexer :=
  {| pos := 5; cursor := 7; parens := 0; input := src_trailing_blank;
     tokens := [Token (bytes_of "{{") 0 tokenPrintOpen;
                Token (bytes_of "1") 3 tokenNumber];
     state := Some LexPrintClose |}.

(** ** Runs of bytes *)

Definition alnum (b : ascii) : Prop := isAlphaNumeric [b] = true.
Definition nonblank (b : ascii) : Prop := ~ isSpaceByte b.

Definition print_12ab : bytes := bytes_of "{{ 12ab }}".
Definition tag_plus : bytes := bytes_of "{% +ab %}".
Definition src_name_at_end : bytes := bytes_of "{{ ab".
Definition src_two_delims : bytes := bytes_of "a { b {{ c {% d".

(** A lexer over [code], between two state functions, with the cursor at
    [c] and the tokens [toks] behind it. *)
Definition at_cursor (code : bytes) (c : nat) (toks : tokenStream) : lexer :=
  {| pos := c; cursor := c; parens := 0; input := code; tokens := toks;
     state := None |}.

(** ** The grammar of token types *)

(** Where a reader of the stream stands: outside tags with no text
    pending, after a Text outside tags, after a TagOpen, inside a tag or
    a print statement, after a StringOpen, after the text of the string,
    after the last token. *)
Inductive mode : Set :=
| Outside | AfterText | TagBegun | Inside | StringBegun | StringText | Done.

Definition feed (m : mode) (t : tokenType) : option mode :=
  match m, t with
  | Outside, tokenText => Some AfterText
  | (Outside | AfterText), tokenTagOpen => Some TagBegun
  | (Outside | AfterText), tokenPrintOpen => Some Inside
  | (Outside | AfterText), tokenEof => Some Done
  | TagBegun, tokenTagName => Some Inside
  | Inside, (tokenName | tokenNumber | tokenOperator | tokenPunctuation
            | tokenParensOpen | tokenParensClose | tokenArrayOpen
            | tokenArrayClose | tokenHashOpen | tokenHashClose) => Some Inside
  | Inside, tokenStringOpen => Some StringBegun
  | Inside, (tokenTagClose | tokenPrintClose) => Some Outside
  | Inside, tokenError => Some Done
  | StringBegun, tokenText => Some StringText
  | StringBegun, tokenError => Some Done
  | StringText, tokenStringClose => Some Inside
  | _, _ => None
  end.

Fixpoint feeds (m : mode) (ts : list tokenType) : option mode :=
  match ts with
  | [] => Some m
  | t :: r =>
      match feed m t with
      | Some m' => feeds m' r
      | None => None
      end
  end.

(** The types of the tokens emitted so far. *)
Definition types (lex : lexer) : list tokenType := map tok_type (tokens lex).

(** Where the reader may stand when a state function is about to run. *)
Definition fits (st : stateFn) (m : mode) : bool :=
  match st with
  | LexData => match m with Outside => true | _ => false end
  | LexTagOpen | LexPrintOpen =>
      match m with Outside | AfterText => true | _ => false end
  | LexTagName => match m with TagBegun => true | _ => false end
  | _ => match m with Inside => true | _ => false end
  end.

#[global] Instance isSpaceByte_dec b : Decision (isSpaceByte b).
Proof. unfold isSpaceByte. solve_decision. Defined.


(** ** Lexemes *)

(** Every byte of [v] passes [p], which takes a one-byte string as
    [isNumeric] and [isAlphaNumeric] do in the loops. *)
Definition all (p : bytes -> bool) (v : bytes) : bool :=
  forallb (fun b => p [b]) v.

(** What the value [v] of a token of type [t] can be; [prev] is the type
    of the token before it, which tells the text of a string literal
    from the text between tags. *)
Definition lexeme (prev : option tokenType) (t : tokenType) (v : bytes) : bool :=
  match t with
  | tokenText =>
      if bool_decide (prev = Some tokenStringOpen)
      then negb (bool_decide (quote ∈ v))
      else negb (bool_decide (v = [])) &&
           negb (contains v delimOpenTag) && negb (contains v delimOpenPrint)
  | tokenName =>
      match v with
      | [] => false
      | b :: _ => negb (isNumeric [b]) && all isAlphaNumeric v
      end
  | tokenNumber => negb (bool_decide (v = [])) && all isNumeric v
  | tokenTagOpen => bool_decide (v = delimOpenTag)
  | tokenTagName =>
      match v with
      | [] => false
      | _ :: r => all isAlphaNumeric r
      end
  | tokenTagClose => bool_decide (v = delimCloseTag)
  | tokenPrintOpen => bool_decide (v = delimOpenPrint)
  | tokenPrintClose => bool_decide (v = delimClosePrint)
  | tokenParensOpen => bool_decide (v = bytes_of "(")
  | tokenParensClose => bool_decide (v = bytes_of ")")
  | tokenArrayOpen => bool_decide (v = bytes_of "[")
  | tokenArrayClose => bool_decide (v = bytes_of "]")
  | tokenHashOpen => bool_decide (v = bytes_of "{")
  | tokenHashClose => bool_decide (v = bytes_of "}")
  | tokenStringOpen | tokenStringClose => bool_decide (v = [quote])
  | tokenPunctuation =>
      bool_decide (length v = 1) && containsAny v (bytes_of ",?:|")
  | tokenOperator =>
      bool_decide (length v = 1) && containsAny v (bytes_of "+-/*%~")
  | tokenError =>
      bool_decide (v = bytes_of "unclosed string") ||
      bool_decide (v = bytes_of "unclosed parenthesis")
  | tokenEof => bool_decide (v = [])
  end.

Fixpoint lexemes (prev : option tokenType) (toks : tokenStream) : bool :=
  match toks with
  | [] => true
  | t :: r =>
      lexeme prev (tok_type t) (tok_value t) && lexemes (Some (tok_type t)) r
  end.

(** The type of the last token of [toks], or [prev] when there is none. *)
Definition last_type (prev : option tokenType) (toks : tokenStream)
  : option tokenType :=
  match last toks with
  | Some t => Some (tok_type t)
  | None => prev
  end.

(** What holds of the lexer when a state function is called: nothing is
    pending, and the byte at the cursor is the one that made
    [lexData] or [lexExpression] choose the function. *)
Definition entry (st : stateFn) (lex : lexer) : Prop :=
  pos lex = cursor lex /\
  match st with
  | LexTagOpen => hasPrefix (drop (cursor lex) (input lex)) delimOpenTag = true
  | LexPrintOpen =>
      hasPrefix (drop (cursor lex) (input lex)) delimOpenPrint = true
  | LexTagClose =>
      hasPrefix (drop (cursor lex) (input lex)) delimCloseTag = true
  | LexPrintClose =>
      hasPrefix (drop (cursor lex) (input lex)) delimClosePrint = true
  | LexOperator =>
      exists b, input lex !! cursor lex = Some b /\
                containsAny [b] (bytes_of "+-/*%~") = true
  | LexPunctuation =>
      exists b, input lex !! cursor lex = Some b /\
                containsAny [b] (bytes_of ",?:|") = true
  | LexString => input lex !! cursor lex = Some quote
  | LexNumber =>
      exists b, input lex !! cursor lex = Some b /\ isNumeric [b] = true
  | LexName =>
      exists b, input lex !! cursor lex = Some b /\
                isNumeric [b] = false /\ isName [b] = true
  | _ => True
  end.

Definition src_lexemes : bytes :=
  bytes_of "x{% if a1 + (b) | f(" ++ [quote] ++ bytes_of "{{ s" ++
  [quote] ++ bytes_of ", [2]) %}{ z{{ 7 }}".


(** ** How far a run is from its end *)

(** Twice the bytes left, and one more in the states that emit nothing
    before they hand over: it goes down with every state function that
    returns a successor. *)
Definition measure (st : stateFn) (lex : lexer) : nat :=
  2 * (length (input lex) - cursor lex) +
  match st with
  | LexData | LexExpression => 1
  | _ => 0
  end.


End LexVocabulary.

(** * Trees used as examples *)

Section ParseVocabulary.

Import Parse.

(** A lexer that hands out 0, 1, 2, ... *)
Definition counting (n : nat) : result (nat * nat) := Ok (n, S n).

Definition tree0 : Tree nat nat unit := mkTree tt [] EmptyString 0 [] [].
Definition tree1 : Tree nat nat unit := mkTree tt [] EmptyString 1 [] [0].
Definition tree2 : Tree nat nat unit := mkTree tt [] EmptyString 2 [] [0; 1].
Definition tree3 : Tree nat nat unit := mkTree tt [] EmptyString 3 [] [0; 1; 2].

(** A tree whose only scope already maps ["a"] to node 7. *)
Definition heap_a : gmap loc (gmap string nat) :=
  {[ 1%positive := {[ "a" := 7 ]} ]}.
Definition tree_a : Tree nat nat unit :=
  mkTree tt [1%positive] EmptyString 0 [] [].

End ParseVocabulary.

(** * Sequences of parser operations *)

Section ParseSequences.

Import Parse.

Context {token lexer ModuleNode : Type}.
Context (nextToken : lexer -> result (token * lexer)).

(** [n] calls of [next] in a row, with the tokens they return. *)
Fixpoint nexts (n : nat) (t : Tree token lexer ModuleNode)
  : result (list token * Tree token lexer ModuleNode) :=
  match n with
  | 0 => Ok ([], t)
  | S n' =>
      '(a, t1) ← next nextToken t;
      '(l, t2) ← nexts n' t1;
      Ok (a :: l, t2)
  end.

(** [n] calls of [backup] in a row. *)
Fixpoint backups (n : nat) (t : Tree token lexer ModuleNode)
  : result (Tree token lexer ModuleNode) :=
  match n with
  | 0 => Ok t
  | S n' => t1 ← backup t; backups n' t1
  end.

End ParseSequences.

Section ParseBlanks.

Import Parse.

Context {token tokenType : Type} `{EqDecision tokenType}.
Context (tok_tokenType : token -> tokenType).
Context (tokenWhitespace tokenEof : tokenType).

(** A token that [nextNonSpace] and [peekNonSpace] read past. *)
Definition blank (tok : token) : Prop :=
  nonSpace tok_tokenType tokenWhitespace tokenEof tok = false.

End ParseBlanks.

Section ParseGrammarExamples.

Import Parse.

(** Tokens that are their own type: 0 is whitespace, 9 is EOF. *)
Definition tree_blank : Tree nat nat unit :=
  mkTree tt [] EmptyString 0 [5; 0; 0] [].
Definition tree_blank_read : Tree nat nat unit :=
  mkTree tt [] EmptyString 0 [] [0; 0; 5].
Definition tree_blank_peeked : Tree nat nat unit :=
  mkTree tt [] EmptyString 0 [5] [0; 0].

Definition unexpectedToken (tok : nat) (typs : list nat) : string :=
  "unexpected token".
Definition unexpectedValue (tok : nat) (val : string) : string :=
  "unexpected value".
Definition value_of (tok : nat) : string :=
  if tok =? 5 then "endblock" else "other".

Definition tree_peeked : Tree nat nat unit := mkTree tt [] EmptyString 1 [0] [].

Definition heap_ab : gmap loc (gmap string nat) :=
  <[ 1%positive := <[ "b" := 8 ]> {[ "a" := 7 ]} ]> heap_a.

End ParseGrammarExamples.


(** * Facts about the lexer *)

(** ** Reading a bind that returned *)

Lemma bind_Ok {A B} (r : result A) (k : A -> result B) (b : B) :
  r ≫= k = Ok b -> exists a, r = Ok a /\ k a = Ok b.
Proof. destruct r as [a | |]; cbn; [eauto | done | done]. Qed.

Lemma bind_Ok_l {A B} (a : A) (k : A -> result B) : Ok a ≫= k = k a.
Proof. reflexivity. Qed.

Ltac inv_ok :=
  repeat first
    [ match goal with
      | H : (_ ≫= _) = Ok _ |- _ =>
          let a := fresh "a" in let Ha := fresh "Ha" in
          apply bind_Ok in H as (a & Ha & H)
      | H : (let '(_, _) := ?p in _) = Ok _ |- _ => destruct p
      | H : Panic _ = Ok _ |- _ => discriminate H
      | H : Timeout = Ok _ |- _ => discriminate H
      end
    | progress simplify_eq ].

(** ** Fuel: more of it never changes an outcome *)

Section Fuel.

Import Lex.

Lemma refines_refl {A} (r : result A) : refines r r.
Proof. by right. Qed.

Lemma refines_bind {A B} (r r' : result A) (k k' : A -> result B) :
  refines r r' -> (forall a, refines (k a) (k' a)) ->
  refines (r ≫= k) (r' ≫= k').
Proof.
  intros [-> | ->] Hk; [by left |].
  destruct r' as [a | msg |]; cbn; [apply Hk | by right | by left].
Qed.

Lemma refines_Ok {A} (r r' : result A) (a : A) :
  refines r r' -> r = Ok a -> r' = Ok a.
Proof. intros [-> | ->]; [discriminate | done]. Qed.

Ltac mono_step :=
  first
    [ apply refines_refl
    | progress eauto 2
    | apply refines_bind; [ | intros; repeat case_match; subst ]
    | match goal with
      | |- refines (if ?c then _ else _) (if ?c then _ else _) => destruct c
      | |- refines (match ?c with _ => _ end) (match ?c with _ => _ end) =>
          destruct c
      end ].

Ltac mono := repeat mono_step.

Ltac mono_loop f :=
  let n := fresh "n" in let IH := fresh "IH" in
  let m := fresh "m" in let lex := fresh "lex" in
  intros n; induction n as [| n IH]; intros m lex Hle; [by left |];
  destruct m as [| m]; [lia |];
  assert (n <= m) by lia; cbn [f];
  specialize (IH m); mono.

Lemma consumeWhitespace_loop_mono n m lex :
  n <= m -> refines (consumeWhitespace_loop n lex) (consumeWhitespace_loop m lex).
Proof. revert n m lex. mono_loop consumeWhitespace_loop. Qed.

Lemma consumeWhitespace_mono n m lex :
  n <= m -> refines (consumeWhitespace n lex) (consumeWhitespace m lex).
Proof.
  intros. unfold consumeWhitespace.
  pose proof (consumeWhitespace_loop_mono n m). mono.
Qed.

Lemma emit_mono n m lex t :
  n <= m -> refines (emit n lex t) (emit m lex t).
Proof.
  intros. unfold emit. pose proof (consumeWhitespace_mono n m). mono.
Qed.

Lemma emit_pending_mono n m lex :
  n <= m -> refines (emit_pending n lex) (emit_pending m lex).
Proof.
  intros. unfold emit_pending. pose proof (emit_mono n m). mono.
Qed.

Lemma lexData_loop_mono n m lex :
  n <= m -> refines (lexData_loop n lex) (lexData_loop m lex).
Proof.
  revert n m lex.
  intros n; induction n as [| n IH]; intros m lex Hle; [by left |].
  destruct m as [| m]; [lia |].
  assert (n <= m) by lia. cbn [lexData_loop].
  pose proof (emit_pending_mono n m). specialize (IH m). mono.
Qed.

Lemma lexNumber_loop_mono n m lex :
  n <= m -> refines (lexNumber_loop n lex) (lexNumber_loop m lex).
Proof. revert n m lex. mono_loop lexNumber_loop. Qed.

Lemma lexName_loop_mono n m lex :
  n <= m -> refines (lexName_loop n lex) (lexName_loop m lex).
Proof. revert n m lex. mono_loop lexName_loop. Qed.

Lemma lexTagName_loop_mono n m lex :
  n <= m -> refines (lexTagName_loop n lex) (lexTagName_loop m lex).
Proof. revert n m lex. mono_loop lexTagName_loop. Qed.

Lemma call_mono st n m lex :
  n <= m -> refines (call st n lex) (call st m lex).
Proof.
  intros.
  pose proof (emit_mono n m). pose proof (emit_pending_mono n m).
  pose proof (lexData_loop_mono n m). pose proof (lexNumber_loop_mono n m).
  pose proof (lexName_loop_mono n m). pose proof (lexTagName_loop_mono n m).
  destruct st; cbn [call];
    unfold lexData, lexNumber, lexOperator, lexPunctuation, lexString,
      lexOpenParens, lexCloseParens, lexName, lexTagOpen, lexTagName,
      lexTagClose, lexPrintOpen, lexPrintClose; mono.
Qed.

Lemma step_mono st n m lex :
  n <= m -> refines (step n st lex) (step m st lex).
Proof. intros. unfold step. pose proof (call_mono st n m). mono. Qed.

Lemma run_mono n m lex :
  n <= m -> refines (run n lex) (run m lex).
Proof.
  revert m lex. induction n as [| n IH]; intros m lex Hle; [by left |].
  destruct m as [| m]; [lia |].
  assert (n <= m) by lia. cbn [run].
  pose proof (step_mono). specialize (IH m). mono.
Qed.

Lemma tokenize_mono n m lex code :
  n <= m -> refines (tokenize n lex code) (tokenize m lex code).
Proof. intros. unfold tokenize. pose proof (run_mono n m). mono. Qed.

End Fuel.

(** ** What the emitted tokens say about the source *)

Section Invariant.

Import Lex.

Lemma slice_Ok s lo hi v :
  slice s lo hi = Ok v ->
  lo <= hi /\ hi <= length s /\ v = take (hi - lo) (drop lo s).
Proof. unfold slice. case_decide; [intros [= <-]; tauto | done]. Qed.

Lemma current_Ok lex str :
  current lex = Ok str ->
  exists b, input lex !! cursor lex = Some b /\ str = [b].
Proof.
  unfold current. intros (_ & Hlen & ->)%slice_Ok.
  destruct (lookup_lt_is_Some_2 (input lex) (cursor lex)) as [b Hb]; [lia |].
  exists b. split; [done |].
  replace (cursor lex + 1 - cursor lex) with 1 by lia.
  by rewrite (drop_S _ _ _ Hb).
Qed.

(** [next] moves only the cursor, by at most one byte, and answers
    [delimEof] only with the cursor at (or past) the end. *)
Lemma next_Ok lex str lex' :
  next lex = Ok (str, lex') ->
  exists c, lex' = set_cursor lex c /\ cursor lex <= c <= cursor lex + 1 /\
    (cursor lex <= length (input lex) -> c <= length (input lex)) /\
    (str = delimEof -> length (input lex) <= c) /\
    (c = cursor lex + 1 -> input lex !! cursor lex <> None).
Proof.
  unfold next. intros H.
  destruct (length (input lex) <=? cursor lex) eqn:E1.
  - apply Nat.leb_le in E1. inv_ok. exists (cursor lex').
    destruct lex'; cbn in *. repeat split; try done; try lia.
  - apply Nat.leb_gt in E1. cbn [set_cursor cursor input] in H.
    assert (input lex !! cursor lex <> None).
    { intros Hn%lookup_ge_None. lia. }
    destruct (cursor lex + 1 =? length (input lex)) eqn:E2.
    + apply Nat.eqb_eq in E2. inv_ok. exists (cursor lex + 1).
      repeat split; try done; lia.
    + apply Nat.eqb_neq in E2. inv_ok.
      apply current_Ok in Ha as (b & _ & ->).
      exists (cursor lex + 1). repeat split; try done; lia.
Qed.

Lemma isSpaceByte_iff b : isSpaceByte b <-> b = " "%char \/ b = tab.
Proof.
  unfold isSpaceByte, isSpace. rewrite orb_true_iff, !bool_decide_eq_true.
  cbn. split; intros [H | H]; [left | right | left | right];
    first [by injection H | by subst].
Qed.

Lemma consumeWhitespace_loop_Ok fuel lex lex' :
  consumeWhitespace_loop fuel lex = Ok lex' ->
  exists c, lex' = set_cursor lex c /\ cursor lex <= c < length (input lex) /\
    Forall isSpaceByte (take (c - cursor lex) (drop (cursor lex) (input lex))).
Proof.
  revert lex. induction fuel as [| fuel IH]; intros lex H; [done |].
  cbn [consumeWhitespace_loop] in H. inv_ok.
  pose proof Ha as (b & Hb & ->)%current_Ok.
  pose proof (lookup_lt_Some _ _ _ Hb) as Hlt.
  destruct (isSpace [b]) eqn:Esp.
  - inv_ok. apply next_Ok in Ha0 as (c & -> & Hc & Hle & _ & _).
    apply IH in H as (c' & -> & Hc' & Hws). cbn in Hc', Hws.
    exists c'. split; [by destruct lex |]. split; [lia |].
    destruct (decide (c = cursor lex)) as [-> | Hne]; [done |].
    assert (c = cursor lex + 1) as -> by lia.
    replace (c' - cursor lex) with (S (c' - (cursor lex + 1))) by lia.
    rewrite (drop_S _ _ _ Hb). cbn. constructor; [exact Esp |].
    by rewrite Nat.add_1_r in *.
  - inv_ok. exists (cursor lex'). split; [by destruct lex' |].
    split; [lia |]. rewrite Nat.sub_diag. constructor.
Qed.

(** [emit] appends the pending lexeme [input[pos:cursor]] and then skips
    spaces and tabs; it returns only with [pos <= cursor <= len(input)]. *)
Lemma emit_Ok fuel lex t lex' :
  emit fuel lex t = Ok lex' ->
  pos lex <= cursor lex /\ cursor lex <= length (input lex) /\
  exists q,
    cursor lex <= q /\ q <= length (input lex) /\
    Forall isSpaceByte (take (q - cursor lex) (drop (cursor lex) (input lex))) /\
    (cursor lex = length (input lex) -> q = cursor lex) /\
    lex' = {| pos := q; cursor := q; parens := parens lex; input := input lex;
              tokens := tokens lex ++
                [Token (take (cursor lex - pos lex) (drop (pos lex) (input lex)))
                       (pos lex) t];
              state := state lex |}.
Proof.
  unfold emit. intros H. inv_ok.
  apply slice_Ok in Ha as (Hle & Hlen & ->). do 2 (split; [done |]).
  cbn [set_tokens set_pos pos cursor input tokens parens state] in H.
  destruct (cursor lex <? length (input lex)) eqn:E.
  - unfold consumeWhitespace in H.
    cbn [set_tokens set_pos pos cursor input tokens parens state] in H.
    rewrite Nat.eqb_refl in H. cbn [negb] in H. inv_ok.
    apply consumeWhitespace_loop_Ok in Ha as (c & -> & Hc & Hws).
    cbn in Hc, Hws. exists c. repeat split; try done; lia.
  - apply Nat.ltb_ge in E. inv_ok. exists (cursor lex).
    rewrite Nat.sub_diag. repeat split; done.
Qed.

Lemma emit_Inv code fuel lex t lex' :
  Inv code lex -> emit fuel lex t = Ok lex' ->
  t <> tokenError -> t <> tokenEof ->
  Inv code lex' /\ parens lex' = parens lex /\ pos lex' = cursor lex' /\
  cursor lex <= cursor lex'.
Proof.
  intros [Hin HL] (Hle & Hlen & q & Hq & Hq' & Hws & _ & ->)%emit_Ok Ht1 Ht2.
  subst code. repeat split; cbn; try done.
  by eapply Lexed_snoc with (e := cursor lex).
Qed.

Lemma Inv_set_cursor code lex c : Inv code lex -> Inv code (set_cursor lex c).
Proof. by intros [? ?]. Qed.

Lemma Inv_set_parens code lex n : Inv code lex -> Inv code (set_parens lex n).
Proof. by intros [? ?]. Qed.

Lemma Inv_set_state code lex st : Inv code lex -> Inv code (set_state lex st).
Proof. by intros [? ?]. Qed.

Lemma next_Inv code lex str lex' :
  next lex = Ok (str, lex') -> Inv code lex -> Inv code lex'.
Proof. intros (c & -> & _)%next_Ok HI. by apply Inv_set_cursor. Qed.

Lemma emit_regular_Inv code fuel lex t lex' :
  emit fuel lex t = Ok lex' -> t <> tokenError -> t <> tokenEof ->
  Inv code lex -> Inv code lex'.
Proof. intros He ? ? HI. by eapply emit_Inv in He as (? & _). Qed.

Lemma emit_pending_Inv code fuel lex lex' :
  emit_pending fuel lex = Ok lex' -> Inv code lex -> Inv code lex'.
Proof.
  unfold emit_pending. intros H HI. case_match; inv_ok; [| done].
  by eapply emit_regular_Inv in H.
Qed.

Lemma lexNumber_loop_Inv code fuel lex lex' :
  lexNumber_loop fuel lex = Ok lex' -> Inv code lex -> Inv code lex'.
Proof.
  revert lex. induction fuel as [| fuel IH]; intros lex H HI; [done |].
  cbn [lexNumber_loop] in H. apply bind_Ok in H as ([str lex1] & Hn & H).
  eapply next_Inv in Hn; [| done]. case_match; inv_ok; eauto.
Qed.

Lemma lexTagName_loop_Inv code fuel lex lex' :
  lexTagName_loop fuel lex = Ok lex' -> Inv code lex -> Inv code lex'.
Proof.
  revert lex. induction fuel as [| fuel IH]; intros lex H HI; [done |].
  cbn [lexTagName_loop] in H. apply bind_Ok in H as ([str lex1] & Hn & H).
  eapply next_Inv in Hn; [| done]. case_match; inv_ok; eauto.
Qed.

Lemma lexName_loop_Inv code fuel lex lex' :
  lexName_loop fuel lex = Ok lex' -> Inv code lex -> Inv code lex'.
Proof.
  revert lex. induction fuel as [| fuel IH]; intros lex H HI; [done |].
  cbn [lexName_loop] in H. apply bind_Ok in H as (str & Hc & H).
  case_match; [| by inv_ok].
  apply bind_Ok in H as ([str1 lex1] & Hn & H).
  eapply next_Inv in Hn; eauto.
Qed.

(** The scan of [lexData] keeps the invariant; when it leaves by [break]
    the cursor is at the end of the input. *)
Lemma lexData_loop_Inv code fuel lex lex' ret :
  lexData_loop fuel lex = Ok (lex', ret) -> Inv code lex ->
  Inv code lex' /\ (ret = None -> length code <= cursor lex').
Proof.
  revert lex. induction fuel as [| fuel IH]; intros lex H HI; [done |].
  cbn [lexData_loop] in H. apply bind_Ok in H as (rest & _ & H).
  repeat case_match;
    try (apply bind_Ok in H as (lex1 & Hp & H); inv_ok;
         split; [by eapply emit_pending_Inv | done]).
  apply bind_Ok in H as ([str lex1] & Hn & H).
  pose proof (next_Inv _ _ _ _ Hn HI) as HI'.
  case_bool_decide; [| by eapply IH]. inv_ok.
  apply next_Ok in Hn as (c & -> & _ & _ & Hend & _).
  split; [done |]. intros _. destruct HI as [<- _]. by apply Hend.
Qed.

Lemma errorf_Final code lex msg :
  Inv code lex -> Final code (tokens (errorf lex msg).1).
Proof.
  intros [_ HL]. cbn.
  eexists (tokens lex), _. split; [done |]. cbn. split; [done | by left].
Qed.

Lemma lexData_spec code fuel lex lex' ret :
  Inv code lex -> lexData fuel lex = Ok (lex', ret) ->
  match ret with
  | Some _ => Inv code lex'
  | None => Final code (tokens lex')
  end.
Proof.
  unfold lexData. intros HI H.
  apply bind_Ok in H as ([lex1 r] & Hloop & H).
  eapply lexData_loop_Inv in Hloop as [HI1 Hend]; [| done].
  destruct r as [st |]; [by inv_ok |].
  apply bind_Ok in H as (lex2 & Hpend & H).
  apply bind_Ok in H as (lex3 & Heof & H). inv_ok.
  specialize (Hend eq_refl).
  assert (Inv code lex2) as [Hin HL] by by eapply emit_pending_Inv.
  assert (length code <= cursor lex2 /\
          (pos lex2 < cursor lex2 -> pos lex2 = cursor lex2)) as [? ?].
  { unfold emit_pending in Hpend.
    destruct (pos lex1 <? cursor lex1) eqn:E;
      [| apply Nat.ltb_ge in E; inv_ok; split; [done | lia]].
    apply emit_Ok in Hpend as (? & ? & q & ? & ? & _ & _ & ->). cbn.
    destruct HI1 as [<- _]. lia. }
  apply emit_Ok in Heof as (? & ? & q & ? & ? & _ & Hq & ->). cbn.
  subst code. assert (pos lex2 = cursor lex2) as Hpc by lia.
  eexists (tokens lex2), _. split; [done |]. cbn. split; [done |]. right.
  rewrite Hpc, Nat.sub_diag. repeat split. lia.
Qed.

Create HintDb lexinv discriminated.
#[local] Hint Resolve Inv_set_cursor Inv_set_parens next_Inv emit_regular_Inv
  emit_pending_Inv lexNumber_loop_Inv lexTagName_loop_Inv lexName_loop_Inv
  : lexinv.
#[local] Hint Extern 1 (_ <> _) => discriminate : lexinv.

(** Every state function either keeps the invariant and names a successor
    or halts the machine with a well-formed stream. *)
Lemma call_spec code st fuel lex lex' ret :
  Inv code lex -> call st fuel lex = Ok (lex', ret) ->
  match ret with
  | Some _ => Inv code lex'
  | None => Final code (tokens lex')
  end.
Proof.
  intros HI H. destruct st; cbn [call] in H.
  - by eapply lexData_spec.
  - unfold lexExpression in H. inv_ok. (repeat case_match; inv_ok; done).
  - unfold lexNumber in H. inv_ok. eauto 8 with lexinv.
  - unfold lexOperator in H. inv_ok. eauto 8 with lexinv.
  - unfold lexPunctuation in H. inv_ok. eauto 8 with lexinv.
  - unfold lexString in H. inv_ok. (case_match; inv_ok).
    + apply (errorf_Final code a "unclosed string"). eauto 8 with lexinv.
    + eauto 12 with lexinv.
  - unfold lexOpenParens in H. inv_ok.
    (repeat case_match; inv_ok; eauto 8 with lexinv).
  - unfold lexCloseParens in H. inv_ok.
    repeat case_match; inv_ok; eauto 8 with lexinv.
  - unfold lexName in H. inv_ok. eauto 8 with lexinv.
  - unfold lexTagOpen in H. inv_ok. eauto 8 with lexinv.
  - unfold lexTagName in H. inv_ok. eauto 8 with lexinv.
  - unfold lexTagClose in H. case_match; inv_ok.
    + by apply (errorf_Final code lex "unclosed parenthesis").
    + eauto 8 with lexinv.
  - unfold lexPrintOpen in H. inv_ok. eauto 8 with lexinv.
  - unfold lexPrintClose in H. case_match; inv_ok.
    + by apply (errorf_Final code lex "unclosed parenthesis").
    + eauto 8 with lexinv.
Qed.

Lemma step_Good code fuel st lex lex' :
  Inv code lex -> step fuel st lex = Ok lex' -> Good code lex'.
Proof.
  unfold step. intros HI H. apply bind_Ok in H as ([lex1 st'] & Hc & H).
  inv_ok. eapply call_spec in Hc; [| done]. unfold Good. cbn.
  destruct st'; [by apply Inv_set_state | done].
Qed.

Lemma run_Final code fuel lex lex' :
  Good code lex -> run fuel lex = Ok lex' -> Final code (tokens lex').
Proof.
  revert lex. induction fuel as [| fuel IH]; intros lex HG H; [done |].
  cbn [run] in H. unfold Good in HG.
  destruct (state lex) as [st |] eqn:Est; [| by inv_ok].
  inv_ok. eapply IH; [| done]. by eapply step_Good.
Qed.

Lemma start_Inv lex code : Inv code (start lex code).
Proof. split; [done | constructor]. Qed.

Lemma tokenize_Final fuel lex code toks lex' :
  tokenize fuel lex code = Ok (toks, lex') -> Final code toks.
Proof.
  unfold tokenize. intros H. inv_ok. eapply run_Final; [| done].
  unfold Good. cbn. apply start_Inv.
Qed.

End Invariant.

(** ** Reading a stream back: positions, slices, skipped runs *)

Section Streams.

Import Lex.

Lemma skipped_length code toks q : length (skipped code toks q) = length toks.
Proof. induction toks as [| t rest IH]; cbn; [done | by rewrite IH]. Qed.

Lemma skipped_snoc code toks tok q :
  skipped code (toks ++ [tok]) q =
  skipped code toks (tok_pos tok) ++ [between code (tok_end tok) q].
Proof.
  induction toks as [| t rest IH]; [done |].
  cbn [app skipped]. rewrite IH. by destruct rest.
Qed.

Lemma reassemble_snoc toks gaps tok g :
  length toks = length gaps ->
  reassemble (toks ++ [tok]) (gaps ++ [g]) =
  reassemble toks gaps ++ tok_value tok ++ g.
Proof.
  intros Hlen. unfold reassemble.
  rewrite zip_with_app, concat_app by done. cbn. by rewrite app_nil_r.
Qed.

Lemma take_between code lo hi :
  lo <= hi -> take hi code = take lo code ++ between code lo hi.
Proof.
  intros Hle. unfold between.
  replace hi with (lo + (hi - lo)) at 1 by lia. by rewrite take_take_drop.
Qed.

Lemma Lexed_end code tok e :
  tok_pos tok <= e -> e <= length code ->
  tok_value tok = take (e - tok_pos tok) (drop (tok_pos tok) code) ->
  tok_end tok = e.
Proof.
  intros ? ? Hv. unfold tok_end. rewrite Hv, length_take, length_drop. lia.
Qed.

Lemma Lexed_regular code toks q :
  Lexed code toks q -> Forall (fun t => ~ terminator t) toks.
Proof.
  induction 1 as [| toks tok e q _ IH]; [constructor |].
  apply Forall_app. split; [done |]. constructor; [| constructor].
  unfold terminator. tauto.
Qed.

Lemma Lexed_at_source code toks q :
  Lexed code toks q -> Forall (at_source code) toks.
Proof.
  induction 1 as [| toks tok e q _ IH ? ? ? ? ? Hv _]; [constructor |].
  apply Forall_app. split; [done |]. constructor; [| constructor].
  unfold at_source. rewrite (Lexed_end code tok e) by first [done | lia].
  unfold slice. rewrite decide_True by lia. by rewrite Hv.
Qed.

Lemma Lexed_reassemble code toks q :
  Lexed code toks q ->
  Forall (Forall isSpaceByte) (skipped code toks q) /\
  reassemble toks (skipped code toks q) = take q code.
Proof.
  induction 1 as [| toks tok e q _ [IHws IHre] ? ? ? ? ? Hv Hws];
    [by split; [constructor |] |].
  rewrite skipped_snoc, (Lexed_end code tok e) by first [done | lia]. split.
  - apply Forall_app. split; [done |]. by constructor.
  - rewrite reassemble_snoc by by rewrite skipped_length.
    rewrite IHre, Hv, app_assoc.
    change (take (e - tok_pos tok) (drop (tok_pos tok) code))
      with (between code (tok_pos tok) e).
    by rewrite <- !take_between.
Qed.

End Streams.

(** ** The token stream of a run that returns *)

Section StreamClaims.

Import Lex.

(** C4: whenever [tokenize] returns, the stream is a body without any EOF
    or Error token followed by exactly one terminator (an EOF or an Error
    token) as its last element; in particular nothing follows an Error
    token. *)
Theorem tokenize_single_terminator fuel lex code toks lex' :
  tokenize fuel lex code = Ok (toks, lex') ->
  exists body last,
    toks = body ++ [last] /\ terminator last /\
    Forall (fun t => ~ terminator t) body /\
    (forall pre t post,
        toks = pre ++ t :: post -> tok_type t = tokenError -> post = []).
Proof.
  intros (body & last & -> & HL & Hlast)%tokenize_Final.
  pose proof (Lexed_regular _ _ _ HL) as Hreg.
  exists body, last. split; [done |]. split; [unfold terminator; tauto |].
  split; [done |]. intros pre t post Heq Ht.
  destruct post as [| x post _] using rev_ind; [done |]. exfalso.
  rewrite app_comm_cons, app_assoc in Heq.
  apply app_inj_tail in Heq as [-> _].
  rewrite Forall_app, Forall_cons in Hreg.
  destruct Hreg as (_ & Hn & _). apply Hn. by right.
Qed.

Lemma tokenize_single_terminator_witness :
  exists toks lex',
    tokenize 40 lexer0 src_mixed = Ok (toks, lex') /\
    exists body last,
      toks = body ++ [last] /\ terminator last /\
      Forall (fun t => ~ terminator t) body /\
      (forall pre t post,
          toks = pre ++ t :: post -> tok_type t = tokenError -> post = []).
Proof.
  eexists _, _. split; [vm_compute; reflexivity |].
  eapply (tokenize_single_terminator 40 lexer0 src_mixed).
  vm_compute; reflexivity.
Defined.

(** C10: whenever [tokenize] returns, every token that is not an Error
    token has as value the source bytes from its recorded position, of the
    value's length; so a token whose value is not that slice is an Error
    token. *)
Theorem token_values_are_source_slices fuel lex code toks lex' :
  tokenize fuel lex code = Ok (toks, lex') ->
  forall t, t ∈ toks ->
    (tok_type t <> tokenError -> at_source code t) /\
    (~ at_source code t -> tok_type t = tokenError).
Proof.
  intros (body & last & -> & HL & Hlast)%tokenize_Final t Ht.
  assert (tok_type t <> tokenError -> at_source code t) as Hat.
  { apply elem_of_app in Ht as [Ht | Ht%list_elem_of_singleton].
    - intros _. pose proof (Lexed_at_source _ _ _ HL) as Hall.
      by apply (proj1 (Forall_forall _ _) Hall).
    - subst t. destruct Hlast as [-> | (_ & Hv & Hp)]; [done |]. intros _.
      unfold at_source, tok_end, slice. rewrite Hv, Hp. cbn [length].
      rewrite decide_True by lia.
      by replace (length code + 0 - length code) with 0 by lia. }
  split; [done |]. intros Hn.
  destruct (decide (tok_type t = tokenError)); [done | tauto].
Qed.

Lemma token_values_are_source_slices_witness :
  exists toks lex',
    tokenize 40 lexer0 src_mixed = Ok (toks, lex') /\
    forall t, t ∈ toks ->
      (tok_type t <> tokenError -> at_source src_mixed t) /\
      (~ at_source src_mixed t -> tok_type t = tokenError).
Proof.
  eexists _, _. split; [vm_compute; reflexivity |].
  eapply (token_values_are_source_slices 40 lexer0 src_mixed).
  vm_compute; reflexivity.
Defined.

(** C5: whenever [tokenize] returns a stream without an Error token, the
    source bytes lying between consecutive tokens are runs of spaces and
    tabs only, and the token values, each followed by the run skipped
    after it, concatenate to the source. *)
Theorem tokens_and_skipped_runs_rebuild_source fuel lex code toks lex' :
  tokenize fuel lex code = Ok (toks, lex') ->
  Forall (fun t => tok_type t <> tokenError) toks ->
  Forall (Forall isSpaceByte) (skipped code toks (length code)) /\
  reassemble toks (skipped code toks (length code)) = code.
Proof.
  intros (body & last & -> & HL & Hlast)%tokenize_Final Hne.
  apply Forall_app in Hne as [_ Hne]. apply Forall_cons in Hne as [Hne _].
  destruct Hlast as [? | (_ & Hv & Hp)]; [done |].
  apply Lexed_reassemble in HL as [Hws Hre].
  rewrite skipped_snoc. unfold tok_end. rewrite Hv, Hp in *. cbn [length].
  assert (between code (length code + 0) (length code) = []) as ->.
  { unfold between. rewrite drop_ge by lia. apply take_nil. }
  split.
  - apply Forall_app. split; [done |]. by repeat constructor.
  - rewrite reassemble_snoc by by rewrite skipped_length.
    rewrite Hre, Hv, take_ge by done. by rewrite !app_nil_r.
Qed.

Lemma tokens_and_skipped_runs_rebuild_source_witness :
  exists toks lex',
    tokenize 40 lexer0 src_mixed = Ok (toks, lex') /\
    Forall (Forall isSpaceByte) (skipped src_mixed toks (length src_mixed)) /\
    reassemble toks (skipped src_mixed toks (length src_mixed)) = src_mixed.
Proof.
  eexists _, _. split; [vm_compute; reflexivity |].
  eapply (tokens_and_skipped_runs_rebuild_source 40 lexer0 src_mixed).
  - vm_compute; reflexivity.
  - repeat constructor; discriminate.
Defined.

End StreamClaims.

(** ** Sources without an opening delimiter *)

Section PlainText.

Import Lex.

Lemma tokenize_deterministic n m lex code r r' :
  tokenize n lex code = Ok r -> tokenize m lex code = Ok r' -> r = r'.
Proof.
  intros Hn Hm.
  pose proof (tokenize_mono n (n `max` m) lex code ltac:(lia)) as H1.
  pose proof (tokenize_mono m (n `max` m) lex code ltac:(lia)) as H2.
  apply (refines_Ok _ _ _ H1) in Hn. apply (refines_Ok _ _ _ H2) in Hm.
  congruence.
Qed.

Lemma contains_drop s sub n :
  contains s sub = false -> contains (drop n s) sub = false.
Proof.
  revert s. induction n as [| n IH]; intros s H; [done |].
  destruct s as [| x r]; [done |]. cbn [drop]. apply IH.
  cbn [contains] in H. by apply orb_false_iff in H as [_ ?].
Qed.

Lemma contains_hasPrefix s sub n :
  contains s sub = false -> hasPrefix (drop n s) sub = false.
Proof.
  intros H%(contains_drop _ _ n). destruct (drop n s); cbn [contains] in H;
    by apply orb_false_iff in H as [? _].
Qed.

Lemma slice_from_le s lo : lo <= length s -> slice_from s lo = Ok (drop lo s).
Proof.
  intros. unfold slice_from, slice. rewrite decide_True by lia.
  f_equal. apply take_ge. rewrite length_drop. lia.
Qed.

Lemma current_lt lex :
  cursor lex < length (input lex) ->
  exists b, input lex !! cursor lex = Some b /\ current lex = Ok [b].
Proof.
  intros Hlt. destruct (lookup_lt_is_Some_2 _ _ Hlt) as [b Hb].
  exists b. split; [done |]. unfold current, slice.
  rewrite decide_True by lia.
  replace (cursor lex + 1 - cursor lex) with 1 by lia.
  by rewrite (drop_S _ _ _ Hb).
Qed.

(** Before the end of the input, [next] advances by one byte and answers
    [delimEof] exactly when that was the last one. *)
Lemma next_lt lex :
  cursor lex < length (input lex) ->
  exists str, next lex = Ok (str, set_cursor lex (cursor lex + 1)) /\
    (str = delimEof <-> cursor lex + 1 = length (input lex)).
Proof.
  intros Hlt. unfold next.
  destruct (length (input lex) <=? cursor lex) eqn:E;
    [apply Nat.leb_le in E; lia |].
  cbn [set_cursor cursor input].
  destruct (cursor lex + 1 =? length (input lex)) eqn:E2.
  - apply Nat.eqb_eq in E2. by exists delimEof.
  - apply Nat.eqb_neq in E2.
    destruct (current_lt (set_cursor lex (cursor lex + 1))) as (b & _ & Hc);
      [cbn; lia |].
    exists [b]. rewrite Hc. cbn. split; [reflexivity |].
    split; [discriminate | intros; contradiction].
Qed.

(** Without a delimiter ahead, the scan of [lexData] runs to the end of
    the input and breaks there, having moved nothing but the cursor. *)
Lemma lexData_loop_plain fuel lex :
  no_delimiter (input lex) ->
  cursor lex < length (input lex) ->
  length (input lex) - cursor lex <= fuel ->
  lexData_loop fuel lex = Ok (set_cursor lex (length (input lex)), None).
Proof.
  intros [Htag Hprint]. revert lex Htag Hprint.
  induction fuel as [| fuel IH]; intros lex Htag Hprint Hlt Hfuel; [lia |].
  cbn [lexData_loop]. rewrite slice_from_le by lia. cbn.
  rewrite (contains_hasPrefix _ _ _ Htag), (contains_hasPrefix _ _ _ Hprint).
  destruct (next_lt lex Hlt) as (str & -> & Hstr). cbn.
  case_bool_decide as Heof.
  - apply Hstr in Heof. by rewrite Heof.
  - assert (cursor lex + 1 <> length (input lex)) by (by rewrite <- Hstr).
    rewrite IH; cbn; try done; lia.
Qed.

(** [emit] with the cursor at the end of the input: nothing to skip. *)
Lemma emit_at_end fuel lex t :
  pos lex <= cursor lex -> cursor lex = length (input lex) ->
  emit fuel lex t =
    Ok (set_pos (set_tokens lex
                   (tokens lex ++ [Token (drop (pos lex) (input lex)) (pos lex) t]))
                (cursor lex)).
Proof.
  intros Hle Hend. unfold emit, slice. rewrite decide_True by lia.
  rewrite bind_Ok_l. cbn [set_pos set_tokens pos cursor input].
  rewrite (proj2 (Nat.ltb_ge _ _)) by lia.
  rewrite take_ge; [done |]. rewrite length_drop. lia.
Qed.

(** C6, as amended: for every non-empty source that contains neither
    [{%] nor [{{], [tokenize] (given fuel beyond the length of the source)
    returns exactly one Text token holding the whole source, at offset 0,
    followed by exactly one EOF token. *)
Theorem plain_text_is_one_text_token fuel lex code :
  code <> [] -> no_delimiter code -> length code < fuel ->
  exists lex',
    tokenize fuel lex code =
      Ok ([Token code 0 tokenText; Token [] (length code) tokenEof], lex') /\
    text_then_eof code (tokens lex').
Proof.
  intros Hne Hnd Hfuel.
  assert (0 < length code) as Hlen by (destruct code; [done | cbn; lia]).
  destruct fuel as [| fuel]; [lia |].
  unfold tokenize. cbn [run]. change (state (start lex code)) with (Some LexData).
  unfold step. cbn [call]. unfold lexData.
  rewrite lexData_loop_plain by (cbn; first [done | lia]).
  rewrite bind_Ok_l. unfold emit_pending.
  cbn [start set_state set_tokens set_input set_cursor set_pos pos cursor input].
  rewrite (proj2 (Nat.ltb_lt _ _) Hlen).
  rewrite emit_at_end by (cbn; lia). rewrite bind_Ok_l.
  rewrite emit_at_end by (cbn; lia). rewrite !bind_Ok_l.
  destruct fuel as [| fuel]; [lia |].
  cbn. rewrite drop_all. eexists. split; [done |]. cbn. by eexists _, _.
Qed.

Lemma plain_text_is_one_text_token_witness :
  exists lex',
    tokenize 20 lexer0 src_plain =
      Ok ([Token src_plain 0 tokenText;
           Token [] (length src_plain) tokenEof], lex') /\
    text_then_eof src_plain (tokens lex').
Proof.
  apply (plain_text_is_one_text_token 20 lexer0 src_plain).
  - discriminate.
  - split; reflexivity.
  - cbn; lia.
Defined.

(** C6 as stated fails on the empty source, which has no delimiter: the
    stream is the EOF token alone. *)
Lemma plain_text_empty_source_counterexample :
  ~ (forall code, no_delimiter code ->
       exists fuel toks lex',
         tokenize fuel lexer0 code = Ok (toks, lex') /\
         text_then_eof code toks).
Proof.
  intros H. destruct (H [] ltac:(by split)) as (fuel & toks & lex' & Ht & Hte).
  assert (tokenize 3 lexer0 [] =
            Ok ([Token [] 0 tokenEof], set_tokens lexer0 [Token [] 0 tokenEof]))
    as H3 by reflexivity.
  pose proof (tokenize_deterministic _ _ _ _ _ _ Ht H3) as [= -> _].
  by destruct Hte as (t & e & [=] & _).
Qed.

End PlainText.

(** ** Loops that meet the end of the input *)

Section Divergence.

Import Lex.

(** At the end of the input [next] answers [delimEof] and stays put, and
    [isNumeric] and [isAlphaNumeric] accept [delimEof]: when nothing but
    digits (letters and digits) lies ahead, the loop of [lexNumber] (of
    [lexTagName]) never leaves. *)
Lemma lexNumber_loop_to_end fuel lex :
  Forall (fun b => isNumeric [b] = true) (drop (cursor lex + 1) (input lex)) ->
  lexNumber_loop fuel lex = Timeout.
Proof.
  revert lex. induction fuel as [| fuel IH]; intros lex Hall; [done |].
  cbn [lexNumber_loop]. unfold next.
  destruct (length (input lex) <=? cursor lex) eqn:E1;
    [rewrite bind_Ok_l; by apply IH |].
  apply Nat.leb_gt in E1. cbn [set_cursor cursor input].
  assert (Forall (fun b => isNumeric [b] = true)
            (drop (cursor lex + 1 + 1) (input lex))) as Hall'.
  { rewrite <- drop_drop. by apply Forall_drop. }
  destruct (cursor lex + 1 =? length (input lex)) eqn:E2;
    [rewrite bind_Ok_l; by apply IH |].
  apply Nat.eqb_neq in E2.
  destruct (current_lt (set_cursor lex (cursor lex + 1))) as (b & Hb & ->);
    [cbn; lia |].
  cbn in Hb. rewrite (drop_S _ _ _ Hb) in Hall. apply Forall_cons in Hall as [Hnum _].
  rewrite !bind_Ok_l, Hnum. by apply IH.
Qed.

Lemma lexTagName_loop_to_end fuel lex :
  Forall (fun b => isAlphaNumeric [b] = true)
         (drop (cursor lex + 1) (input lex)) ->
  lexTagName_loop fuel lex = Timeout.
Proof.
  revert lex. induction fuel as [| fuel IH]; intros lex Hall; [done |].
  cbn [lexTagName_loop]. unfold next.
  destruct (length (input lex) <=? cursor lex) eqn:E1;
    [rewrite bind_Ok_l; by apply IH |].
  apply Nat.leb_gt in E1. cbn [set_cursor cursor input].
  assert (Forall (fun b => isAlphaNumeric [b] = true)
            (drop (cursor lex + 1 + 1) (input lex))) as Hall'.
  { rewrite <- drop_drop. by apply Forall_drop. }
  destruct (cursor lex + 1 =? length (input lex)) eqn:E2;
    [rewrite bind_Ok_l; by apply IH |].
  apply Nat.eqb_neq in E2.
  destruct (current_lt (set_cursor lex (cursor lex + 1))) as (b & Hb & ->);
    [cbn; lia |].
  cbn in Hb. rewrite (drop_S _ _ _ Hb) in Hall. apply Forall_cons in Hall as [Hal _].
  rewrite !bind_Ok_l, Hal. by apply IH.
Qed.

(** A machine that gets, in some steps, to a state function that never
    returns, never returns. *)
Lemma run_stuck n k lex0 lex st :
  steps n k lex0 = Ok lex -> state lex = Some st ->
  (forall f, step f st lex = Timeout) ->
  forall f, run f lex0 = Timeout.
Proof.
  revert lex0. induction n as [| n IH]; intros lex0 Hsteps Hst Hstuck f.
  - cbn in Hsteps. injection Hsteps as ->.
    destruct f as [| f]; [done |]. cbn [run]. by rewrite Hst, Hstuck.
  - cbn [steps] in Hsteps. destruct (state lex0) as [st0 |] eqn:Est0.
    + apply bind_Ok in Hsteps as (lex1 & Hstep & Hsteps).
      destruct (run_mono f (S (f `max` k)) lex0 ltac:(lia)) as [-> | ->];
        [done |].
      cbn [run]. rewrite Est0.
      rewrite (refines_Ok _ _ _ (step_mono st0 k (f `max` k) lex0 ltac:(lia)) Hstep).
      rewrite bind_Ok_l. by eapply IH.
    + injection Hsteps as ->. congruence.
Qed.

(** C1 fails: with a number as the last byte of the source, or a tag name
    at its end, [tokenize] returns for no amount of fuel. *)
Theorem number_at_end_of_input_never_returns :
  (forall fuel, tokenize fuel lexer0 src_number_at_end = Timeout) /\
  (forall fuel, tokenize fuel lexer0 src_tag_at_end = Timeout).
Proof.
  split; intros fuel; unfold tokenize.
  - erewrite (run_stuck 3 5 _ _ LexNumber); [done | vm_compute; reflexivity | done |].
    intros f. unfold step. cbn [call]. unfold lexNumber.
    rewrite lexNumber_loop_to_end; [done | by repeat constructor].
  - erewrite (run_stuck 2 5 _ _ LexTagName); [done | vm_compute; reflexivity | done |].
    intros f. unfold step. cbn [call]. unfold lexTagName.
    rewrite lexTagName_loop_to_end; [done | by repeat constructor].
Qed.

End Divergence.

(** ** Configurations the machine passes through *)

Section Reachability.

Import Lex.

Lemma steps_run n k lex0 lex f r :
  steps n k lex0 = Ok lex -> run f lex = Ok r ->
  exists f', run f' lex0 = Ok r.
Proof.
  revert lex0. induction n as [| n IH]; intros lex0 Hsteps Hrun.
  - cbn in Hsteps. injection Hsteps as ->. eauto.
  - cbn [steps] in Hsteps. destruct (state lex0) as [st0 |] eqn:Est0.
    + apply bind_Ok in Hsteps as (lex1 & Hstep & Hsteps).
      destruct (IH _ Hsteps Hrun) as [f1 Hf1].
      exists (S (k `max` f1)). cbn [run]. rewrite Est0.
      rewrite (refines_Ok _ _ _ (step_mono st0 k (k `max` f1) lex0 ltac:(lia)) Hstep).
      rewrite bind_Ok_l.
      apply (refines_Ok _ _ _ (run_mono f1 (k `max` f1) lex1 ltac:(lia)) Hf1).
    + injection Hsteps as ->. eauto.
Qed.

Lemma Reaches_tokenize lex0 code lex f r :
  Reaches (start lex0 code) lex -> run f lex = Ok r ->
  exists fuel, tokenize fuel lex0 code = Ok (tokens r, r).
Proof.
  intros (n & k & Hsteps) Hrun.
  destruct (steps_run _ _ _ _ _ _ Hsteps Hrun) as [f' Hf'].
  exists f'. unfold tokenize. by rewrite Hf'.
Qed.

Lemma steps_Good code n k lex0 lex :
  Good code lex0 -> steps n k lex0 = Ok lex -> Good code lex.
Proof.
  revert lex0. induction n as [| n IH]; intros lex0 HG Hsteps.
  - cbn in Hsteps. by injection Hsteps as <-.
  - cbn [steps] in Hsteps. destruct (state lex0) as [st0 |] eqn:Est0.
    + apply bind_Ok in Hsteps as (lex1 & Hstep & Hsteps).
      eapply IH; [| done]. eapply step_Good; [| done].
      unfold Good in HG. by rewrite Est0 in HG.
    + by injection Hsteps as <-.
Qed.

Lemma Reaches_Inv lex0 code lex :
  Reaches (start lex0 code) lex -> state lex <> None -> Inv code lex.
Proof.
  intros (n & k & Hsteps) Hst.
  eapply steps_Good in Hsteps; [| unfold Good; cbn; apply start_Inv].
  unfold Good in Hsteps. by destruct (state lex).
Qed.

(** C9: [tokenize] resets [pos], [cursor], [input] and [tokens] but leaves
    [parens] as it finds it; after a run that halted with an open bracket,
    the same lexer value turns a source that a fresh lexer tokenizes to
    an EOF-terminated stream into an "unclosed parenthesis" error. *)
Theorem tokenize_reuse_depends_on_history :
  (forall l code,
      pos (start l code) = 0 /\ cursor (start l code) = 0 /\
      input (start l code) = code /\ tokens (start l code) = [] /\
      parens (start l code) = parens l) /\
  exists fuel toks_a lex_a toks_reused lex_r toks_fresh lex_f,
    tokenize fuel lexer0 src_reuse_a = Ok (toks_a, lex_a) /\
    parens lex_a <> 0%Z /\
    tokenize fuel lex_a src_reuse_b = Ok (toks_reused, lex_r) /\
    tokenize fuel lexer0 src_reuse_b = Ok (toks_fresh, lex_f) /\
    toks_reused <> toks_fresh /\
    last toks_reused = Some (unclosed_parenthesis 5) /\
    Forall (fun t => tok_type t <> tokenError) toks_fresh.
Proof.
  split; [done |].
  exists 40. eexists _, _, _, _, _, _.
  split; [vm_compute; reflexivity |]. split; [done |].
  split; [vm_compute; reflexivity |]. split; [vm_compute; reflexivity |].
  split; [done |]. split; [reflexivity |]. by repeat constructor.
Qed.

(** C2, as amended: whenever the machine reaches [lexTagClose] or
    [lexPrintClose] with a positive bracket count, [tokenize] returns the
    tokens emitted so far followed by the "unclosed parenthesis" Error
    token, and nothing after it; [{{ (1+2 }}] ends in that error and
    [{{ (1+2) }}] is tokenized without one. *)
Theorem close_delimiter_inside_brackets :
  (forall lex0 code lex,
      Reaches (start lex0 code) lex ->
      state lex = Some LexTagClose \/ state lex = Some LexPrintClose ->
      (0 < parens lex)%Z ->
      exists fuel lex',
        tokenize fuel lex0 code =
          Ok (tokens lex ++ [unclosed_parenthesis (pos lex)], lex')) /\
  Lex.lex 40 src_paren_open = Ok toks_paren_open /\
  Lex.lex 40 src_paren_ok = Ok toks_paren_ok.
Proof.
  split; [| split; vm_compute; reflexivity].
  intros lex0 code lex Hreach Hst Hpar.
  set (r := set_state (set_tokens lex (tokens lex ++ [unclosed_parenthesis (pos lex)]))
                      None).
  assert (run 2 lex = Ok r) as Hrun.
  { cbn [run]. unfold step.
    destruct Hst as [-> | ->]; cbn [call]; unfold lexTagClose, lexPrintClose;
      by rewrite (proj2 (Z.ltb_lt _ _) Hpar). }
  destruct (Reaches_tokenize _ _ _ _ _ Hreach Hrun) as [fuel Hfuel].
  by exists fuel, r.
Qed.

Lemma close_delimiter_inside_brackets_witness :
  exists lex,
    Reaches (start lexer0 src_paren_open) lex /\
    state lex = Some LexPrintClose /\ (0 < parens lex)%Z /\
    exists fuel lex',
      tokenize fuel lexer0 src_paren_open =
        Ok (tokens lex ++ [unclosed_parenthesis (pos lex)], lex').
Proof.
  eexists. split; [exists 11, 10; vm_compute; reflexivity |].
  split; [reflexivity |]. split; [reflexivity |].
  apply (proj1 close_delimiter_inside_brackets lexer0 src_paren_open).
  - exists 11, 10. vm_compute; reflexivity.
  - right; reflexivity.
  - reflexivity.
Defined.

(** C2 as stated fails for a negative count: [{{ ) }}] reaches
    [lexPrintClose] with the counter at -1 and is tokenized to an
    EOF-terminated stream. *)
Lemma close_delimiter_negative_count_counterexample :
  ~ (forall lex0 code lex,
        Reaches (start lex0 code) lex ->
        state lex = Some LexTagClose \/ state lex = Some LexPrintClose ->
        parens lex <> 0%Z ->
        exists fuel lex',
          tokenize fuel lex0 code =
            Ok (tokens lex ++ [unclosed_parenthesis (pos lex)], lex')).
Proof.
  intros H.
  assert (exists lex toks,
             steps 5 10 (start lexer0 src_paren_close_only) = Ok lex /\
             state lex = Some LexPrintClose /\ parens lex = (-1)%Z /\
             tokens lex ++ [unclosed_parenthesis (pos lex)] = toks /\
             length toks = 3) as (lex & toks & Hsteps & Hst & Hpar & Htoks & Hlen).
  { eexists _, _. split; [vm_compute; reflexivity |]. by repeat split. }
  destruct (H lexer0 src_paren_close_only lex) as (fuel & lex' & Hfuel).
  - by exists 5, 10.
  - by right.
  - by rewrite Hpar.
  - rewrite Htoks in Hfuel.
    assert (exists toks' lex'',
               tokenize 40 lexer0 src_paren_close_only = Ok (toks', lex'') /\
               length toks' = 4) as (toks' & lex'' & H40 & Hlen').
    { eexists _, _. split; [vm_compute; reflexivity | done]. }
    pose proof (tokenize_deterministic _ _ _ _ _ _ Hfuel H40) as [= -> _].
    lia.
Qed.

End Reachability.

(** ** String literals without a closing quote *)

Section Strings.

Import Lex.

Lemma lexData_loop_boundary fuel lex lex' st :
  lexData_loop fuel lex = Ok (lex', Some st) ->
  pos lex <= cursor lex -> pos lex' = cursor lex'.
Proof.
  revert lex. induction fuel as [| fuel IH]; intros lex H Hle; [done |].
  cbn [lexData_loop] in H. apply bind_Ok in H as (rest & _ & H).
  assert (forall l, emit_pending fuel lex = Ok l -> pos l = cursor l) as Hpend.
  { unfold emit_pending. intros l Hl.
    destruct (pos lex <? cursor lex) eqn:E.
    - by apply emit_Ok in Hl as (_ & _ & q & _ & _ & _ & _ & ->).
    - apply Nat.ltb_ge in E. injection Hl as <-. lia. }
  repeat case_match;
    try (apply bind_Ok in H as (lex1 & Hp & H); injection H as <- _;
         by apply Hpend).
  apply bind_Ok in H as ([str lex1] & Hn & H).
  case_bool_decide; [done |].
  apply next_Ok in Hn as (c & -> & Hc & _). apply IH in H; [done |]. cbn. lia.
Qed.

(** Between two state functions the pending lexeme is empty. *)
Lemma call_boundary st fuel lex lex' st' :
  call st fuel lex = Ok (lex', Some st') ->
  pos lex = cursor lex -> pos lex' = cursor lex'.
Proof.
  intros H Hpc.
  assert (forall f l t l', emit f l t = Ok l' -> pos l' = cursor l') as Hemit.
  { intros f l t l' Hl. by apply emit_Ok in Hl as (_ & _ & q & _ & _ & _ & _ & ->). }
  destruct st; cbn [call] in H.
  - unfold lexData in H. apply bind_Ok in H as ([lex1 r] & Hloop & H).
    destruct r as [st |]; [| by inv_ok]. injection H as <- _.
    eapply lexData_loop_boundary; [done | lia].
  - unfold lexExpression in H. inv_ok. repeat case_match; by inv_ok.
  - unfold lexNumber in H. inv_ok. eauto.
  - unfold lexOperator in H. inv_ok. eauto.
  - unfold lexPunctuation in H. inv_ok. eauto.
  - unfold lexString in H. inv_ok. case_match; inv_ok; eauto.
  - unfold lexOpenParens in H. inv_ok. cbn. repeat case_match; inv_ok; eauto.
  - unfold lexCloseParens in H. inv_ok. cbn. repeat case_match; inv_ok; eauto.
  - unfold lexName in H. inv_ok. eauto.
  - unfold lexTagOpen in H. inv_ok. eauto.
  - unfold lexTagName in H. inv_ok. eauto.
  - unfold lexTagClose in H. case_match; inv_ok; eauto.
  - unfold lexPrintOpen in H. inv_ok. eauto.
  - unfold lexPrintClose in H. case_match; inv_ok; eauto.
Qed.

Lemma steps_boundary n k lex0 lex :
  pos lex0 = cursor lex0 -> steps n k lex0 = Ok lex ->
  state lex <> None -> pos lex = cursor lex.
Proof.
  revert lex0. induction n as [| n IH]; intros lex0 Hpc Hsteps Hst.
  - cbn in Hsteps. by injection Hsteps as <-.
  - cbn [steps] in Hsteps. destruct (state lex0) as [st0 |] eqn:Est0.
    + apply bind_Ok in Hsteps as (lex1 & Hstep & Hsteps).
      unfold step in Hstep. apply bind_Ok in Hstep as ([l st1] & Hcall & Hstep).
      injection Hstep as <-. destruct st1 as [st1 |].
      * eapply IH; [| done | done]. cbn. by eapply call_boundary.
      * destruct n; cbn in Hsteps; by injection Hsteps as <-.
    + by injection Hsteps as <-.
Qed.

(** With a byte ahead that is neither a space nor a tab, the loop of
    [consumeWhitespace] stops there. *)
Lemma consumeWhitespace_loop_stops fuel lex :
  Exists (fun b => ~ isSpaceByte b) (drop (cursor lex) (input lex)) ->
  length (input lex) - cursor lex <= fuel ->
  exists q, cursor lex <= q < length (input lex) /\
    consumeWhitespace_loop fuel lex = Ok (set_cursor lex q).
Proof.
  revert lex. induction fuel as [| fuel IH]; intros lex Hex Hfuel.
  - destruct (drop (cursor lex) (input lex)) eqn:E; [by inversion Hex |].
    assert (length (drop (cursor lex) (input lex)) <> 0) by by rewrite E.
    rewrite length_drop in *. lia.
  - assert (cursor lex < length (input lex)) as Hlt.
    { destruct (drop (cursor lex) (input lex)) eqn:E; [by inversion Hex |].
      assert (length (drop (cursor lex) (input lex)) <> 0) by by rewrite E.
      rewrite length_drop in *. lia. }
    destruct (current_lt lex Hlt) as (b & Hb & Hcur).
    cbn [consumeWhitespace_loop]. rewrite Hcur, bind_Ok_l.
    destruct (isSpace [b]) eqn:Esp.
    + destruct (next_lt lex Hlt) as (str & -> & _). rewrite bind_Ok_l.
      rewrite (drop_S _ _ _ Hb) in Hex.
      apply Exists_cons in Hex as [Hex | Hex]; [done |].
      destruct (IH (set_cursor lex (cursor lex + 1))) as (q & Hq & ->).
      * cbn. by rewrite Nat.add_1_r.
      * cbn. lia.
      * exists q. cbn in Hq. split; [lia | done].
    + exists (cursor lex). split; [lia | by destruct lex].
Qed.

Lemma indexByte_absent s c : c ∉ s -> indexByte s c = (-1)%Z.
Proof.
  induction s as [| x r IH]; [done |]. intros Hnin.
  apply not_elem_of_cons in Hnin as [Hne Hnin]. cbn [indexByte].
  rewrite decide_False by done. by rewrite IH.
Qed.

(** [emit] with the pending lexeme in range: the slice does not panic. *)
Lemma emit_in_range fuel lex t :
  pos lex <= cursor lex -> cursor lex <= length (input lex) ->
  emit fuel lex t =
    let lex2 :=
      set_pos (set_tokens lex
                 (tokens lex ++
                    [Token (between (input lex) (pos lex) (cursor lex)) (pos lex) t]))
              (cursor lex) in
    if cursor lex <? length (input lex)
    then consumeWhitespace fuel lex2 else Ok lex2.
Proof.
  intros Hle Hlen. unfold emit, slice. by rewrite decide_True by lia.
Qed.

(** [lexString] at an opening quote with no quote after it. *)
Lemma lexString_unclosed fuel lex :
  input lex !! cursor lex = Some quote ->
  pos lex = cursor lex ->
  quote ∉ drop (cursor lex + 1) (input lex) ->
  drop (cursor lex + 1) (input lex) = [] \/
  Exists (fun b => ~ isSpaceByte b) (drop (cursor lex + 1) (input lex)) ->
  length (input lex) <= fuel ->
  exists q,
    lexString fuel lex =
      Ok (errorf {| pos := q; cursor := q; parens := parens lex;
                    input := input lex;
                    tokens := tokens lex ++
                                [Token [quote] (cursor lex) tokenStringOpen];
                    state := state lex |} "unclosed string").
Proof.
  intros Hq Hpc Hnoq Hrest Hfuel.
  pose proof (lookup_lt_Some _ _ _ Hq) as Hlt.
  unfold lexString. destruct (next_lt lex Hlt) as (str & -> & _).
  rewrite bind_Ok_l, emit_in_range by (cbn; lia).
  cbn [set_cursor set_tokens set_pos pos cursor input tokens parens state].
  replace (between (input lex) (pos lex) (cursor lex + 1)) with [quote].
  2:{ unfold between. replace (cursor lex + 1 - pos lex) with 1 by lia.
      by rewrite Hpc, (drop_S _ _ _ Hq). }
  rewrite Hpc.
  destruct Hrest as [Hnil | Hex].
  - assert (length (input lex) <= cursor lex + 1) as Hend.
    { apply (f_equal length) in Hnil. rewrite length_drop in Hnil. cbn in Hnil. lia. }
    rewrite (proj2 (Nat.ltb_ge _ _) Hend), bind_Ok_l.
    cbn [set_cursor set_tokens set_pos pos cursor input tokens parens state].
    rewrite slice_from_le by lia. rewrite bind_Ok_l, Hnil.
    cbn [indexByte Z.ltb Z.compare]. by eexists.
  - unfold consumeWhitespace.
    cbn [set_cursor set_tokens set_pos pos cursor input tokens parens state].
    assert (cursor lex + 1 < length (input lex)) as Hlt1.
    { destruct (drop (cursor lex + 1) (input lex)) eqn:E; [by inversion Hex |].
      assert (length (drop (cursor lex + 1) (input lex)) <> 0) by by rewrite E.
      rewrite length_drop in *. lia. }
    rewrite (proj2 (Nat.ltb_lt _ _) Hlt1), Nat.eqb_refl. cbn [negb].
    edestruct (consumeWhitespace_loop_stops fuel) as (q & Hqb & ->);
      [| | rewrite !bind_Ok_l]; cbn; [done | lia |].
    cbn in Hqb. rewrite slice_from_le by lia. rewrite bind_Ok_l.
    rewrite indexByte_absent.
    + by eexists.
    + intros Hin. apply Hnoq.
      replace q with (cursor lex + 1 + (q - (cursor lex + 1))) in Hin by lia.
      rewrite <- drop_drop in Hin.
      by eapply (@subseteq_drop ascii) in Hin.
Qed.

(** C3, as amended: whenever the machine reaches [lexString] at a quote
    that no later quote closes -- the rest of the source being empty or
    holding a byte other than space and tab -- [tokenize] returns the
    tokens emitted so far, the StringOpen token, and an Error token with
    the message "unclosed string" as the last token; the stream holds no
    EOF token.  For the source of the specification the stream is
    PrintOpen, StringOpen, Error. *)
Theorem unclosed_string_is_an_error :
  (forall lex0 code lex,
      Reaches (start lex0 code) lex -> state lex = Some LexString ->
      code !! cursor lex = Some quote ->
      quote ∉ drop (cursor lex + 1) code ->
      drop (cursor lex + 1) code = [] \/
      Exists (fun b => ~ isSpaceByte b) (drop (cursor lex + 1) code) ->
      exists fuel toks lex' q,
        tokenize fuel lex0 code = Ok (toks, lex') /\
        toks = tokens lex ++
                 [Token [quote] (cursor lex) tokenStringOpen; unclosed_string q] /\
        Forall (fun t => tok_type t <> tokenEof) toks) /\
  Lex.lex 40 src_unterminated = Ok toks_unterminated.
Proof.
  split; [| vm_compute; reflexivity].
  intros lex0 code lex Hreach Hst Hq Hnoq Hrest.
  destruct (Reaches_Inv _ _ _ Hreach ltac:(by rewrite Hst)) as [Hin HL].
  assert (pos lex = cursor lex) as Hpc.
  { destruct Hreach as (n & k & Hsteps).
    eapply steps_boundary; [| done | by rewrite Hst]. done. }
  subst code.
  destruct (lexString_unclosed (S (length (input lex))) lex) as [q Hls];
    [done | done | done | done | lia |].
  set (m := S (length (input lex))) in *.
  assert (exists r, run (S m) lex = Ok r /\
            tokens r = tokens lex ++
              [Token [quote] (cursor lex) tokenStringOpen; unclosed_string q])
    as (r & Hrun & Htoks).
  { eexists. cbn [run]. rewrite Hst. unfold step. cbn [call].
    rewrite Hls. split; [reflexivity |]. cbn. by rewrite <- app_assoc. }
  destruct (Reaches_tokenize _ _ _ _ _ Hreach Hrun) as [fuel Hfuel].
  exists fuel, (tokens r), r, q. split; [done |]. split; [done |].
  rewrite Htoks. apply Forall_app. split.
  - eapply Forall_impl; [by eapply Lexed_regular |].
    intros t Ht He. apply Ht. by left.
  - by repeat constructor.
Qed.

Lemma unclosed_string_is_an_error_witness :
  exists lex,
    Reaches (start lexer0 src_unterminated) lex /\
    state lex = Some LexString /\
    exists fuel toks lex' q,
      tokenize fuel lexer0 src_unterminated = Ok (toks, lex') /\
      toks = tokens lex ++
               [Token [quote] (cursor lex) tokenStringOpen; unclosed_string q] /\
      Forall (fun t => tok_type t <> tokenEof) toks.
Proof.
  eexists. split; [exists 3, 10; vm_compute; reflexivity |].
  split; [reflexivity |].
  apply (proj1 unclosed_string_is_an_error lexer0 src_unterminated).
  - exists 3, 10. vm_compute; reflexivity.
  - reflexivity.
  - reflexivity.
  - apply (bool_decide_unpack _). vm_compute. exact I.
  - right. apply Exists_cons_hd. apply (bool_decide_unpack _). vm_compute. exact I.
Defined.

(** C3 as stated fails: the message of the Error token is "unclosed
    string"; no token of the stream carries "unterminated string". *)
Lemma unterminated_string_message_counterexample :
  ~ (forall lex0 code lex,
        Reaches (start lex0 code) lex -> state lex = Some LexString ->
        code !! cursor lex = Some quote ->
        quote ∉ drop (cursor lex + 1) code ->
        exists fuel toks lex' p,
          tokenize fuel lex0 code = Ok (toks, lex') /\
          Token (bytes_of "unterminated string") p tokenError ∈ toks /\
          Forall (fun t => tok_type t <> tokenEof) toks).
Proof.
  intros H.
  assert (exists lex,
             steps 3 10 (start lexer0 src_unterminated) = Ok lex /\
             state lex = Some LexString /\ cursor lex = 3)
    as (lex & Hsteps & Hst & Hcur).
  { eexists. split; [vm_compute; reflexivity |]. by split. }
  destruct (H lexer0 src_unterminated lex) as (fuel & toks & lex' & p & Hfuel & Hin & _).
  - by exists 3, 10.
  - done.
  - by rewrite Hcur.
  - rewrite Hcur. apply (bool_decide_unpack _). vm_compute. exact I.
  - assert (exists lex'', tokenize 40 lexer0 src_unterminated =
                            Ok (toks_unterminated, lex'')) as (lex'' & H40).
    { eexists. vm_compute; reflexivity. }
    pose proof (tokenize_deterministic _ _ _ _ _ _ Hfuel H40) as [= -> _].
    apply list_elem_of_In in Hin. vm_compute in Hin.
    destruct Hin as [Hin | [Hin | [Hin | []]]]; discriminate Hin.
Qed.

(** A quote followed by blanks only, up to the end of the source: the
    loop of [consumeWhitespace] runs [current] past the end. *)
Example quote_then_blank_panics :
  Lex.lex 40 src_quote_then_blank = Panic "slice bounds out of range".
Proof. vm_compute. reflexivity. Qed.

End Strings.

(** ** Every run is a sequence of moves *)

Section Moves.

Import Lex.

Lemma set_cursor_set_cursor lex a b :
  set_cursor (set_cursor lex a) b = set_cursor lex b.
Proof. done. Qed.

Lemma next_frame lex str lex' :
  next lex = Ok (str, lex') -> exists c, lex' = set_cursor lex c.
Proof. intros (c & -> & _)%next_Ok. eauto. Qed.

Lemma next_Move lex str lex' : next lex = Ok (str, lex') -> Move lex lex'.
Proof. intros (c & ->)%next_frame. constructor. Qed.

Lemma lexNumber_loop_frame fuel lex lex' :
  lexNumber_loop fuel lex = Ok lex' -> exists c, lex' = set_cursor lex c.
Proof.
  revert lex. induction fuel as [| fuel IH]; intros lex H; [done |].
  cbn [lexNumber_loop] in H. apply bind_Ok in H as ([str lex1] & Hn & H).
  apply next_frame in Hn as (c & ->). case_match; [injection H as <-; eauto |].
  apply IH in H as (c' & ->). eauto.
Qed.

Lemma lexTagName_loop_frame fuel lex lex' :
  lexTagName_loop fuel lex = Ok lex' -> exists c, lex' = set_cursor lex c.
Proof.
  revert lex. induction fuel as [| fuel IH]; intros lex H; [done |].
  cbn [lexTagName_loop] in H. apply bind_Ok in H as ([str lex1] & Hn & H).
  apply next_frame in Hn as (c & ->). case_match; [injection H as <-; eauto |].
  apply IH in H as (c' & ->). eauto.
Qed.

Lemma lexName_loop_frame fuel lex lex' :
  lexName_loop fuel lex = Ok lex' -> exists c, lex' = set_cursor lex c.
Proof.
  revert lex. induction fuel as [| fuel IH]; intros lex H; [done |].
  cbn [lexName_loop] in H. apply bind_Ok in H as (str & _ & H).
  case_match.
  - apply bind_Ok in H as ([str1 lex1] & Hn & H).
    apply next_frame in Hn as (c & ->). apply IH in H as (c' & ->). eauto.
  - injection H as <-. exists (cursor lex). by destruct lex.
Qed.

Lemma emit_pending_Moves fuel lex lex' :
  emit_pending fuel lex = Ok lex' -> rtc Move lex lex'.
Proof.
  unfold emit_pending. intros H. case_match.
  - apply rtc_once. by eapply Move_emit.
  - by injection H as <-.
Qed.

Lemma lexData_loop_Moves fuel lex lex' ret :
  lexData_loop fuel lex = Ok (lex', ret) -> rtc Move lex lex'.
Proof.
  revert lex. induction fuel as [| fuel IH]; intros lex H; [done |].
  cbn [lexData_loop] in H. apply bind_Ok in H as (rest & _ & H).
  repeat case_match;
    try (apply bind_Ok in H as (lex1 & Hp & H); injection H as <- _;
         by eapply emit_pending_Moves).
  apply bind_Ok in H as ([str lex1] & Hn & H). apply next_Move in Hn.
  case_bool_decide.
  - injection H as <- _. by apply rtc_once.
  - eapply rtc_l; [done |]. by apply IH.
Qed.

Ltac move_next H := eapply rtc_l; [apply (next_Move _ _ _ H) |].
Ltac move_plain H :=
  eapply rtc_l; [by eapply Move_emit; [apply H | ..] |].
Ltac move_cursor := eapply rtc_l; [apply Move_cursor |].

(** A state function that names a successor got there by moves. *)
Lemma call_Moves st fuel lex lex' st' :
  call st fuel lex = Ok (lex', Some st') -> rtc Move lex lex'.
Proof.
  intros H. destruct st; cbn [call] in H.
  - unfold lexData in H. apply bind_Ok in H as ([lex1 r] & Hloop & H).
    destruct r as [st |]; [| by inv_ok]. injection H as <- _.
    by eapply lexData_loop_Moves.
  - unfold lexExpression in H. apply bind_Ok in H as (str & _ & H).
    apply bind_Ok in H as (rest & _ & H).
    repeat case_match; by inv_ok.
  - unfold lexNumber in H. apply bind_Ok in H as (lex1 & Hl & H).
    apply bind_Ok in H as (lex2 & He & H). injection H as <- _.
    apply lexNumber_loop_frame in Hl as (c & ->).
    move_cursor. move_plain He. done.
  - unfold lexOperator in H. apply bind_Ok in H as ([s lex1] & Hn & H).
    apply bind_Ok in H as (lex2 & He & H). injection H as <- _.
    move_next Hn. move_plain He. done.
  - unfold lexPunctuation in H. apply bind_Ok in H as ([s lex1] & Hn & H).
    apply bind_Ok in H as (lex2 & He & H). injection H as <- _.
    move_next Hn. move_plain He. done.
  - unfold lexString in H. apply bind_Ok in H as ([s lex1] & Hn & H).
    apply bind_Ok in H as (lex2 & He & H).
    apply bind_Ok in H as (rest & _ & H).
    case_match; [done |].
    apply bind_Ok in H as (lex4 & He4 & H).
    apply bind_Ok in H as ([s5 lex5] & Hn5 & H).
    apply bind_Ok in H as (lex6 & He6 & H). injection H as <- _.
    move_next Hn. move_plain He. move_cursor. move_plain He4.
    move_next Hn5. move_plain He6. done.
  - unfold lexOpenParens in H. apply bind_Ok in H as (str & _ & H).
    apply bind_Ok in H as (lex2 & He & H). injection H as <- _.
    repeat case_match; try done;
      apply bind_Ok in He as ([s lex1] & Hn & He); move_next Hn;
      apply rtc_once;
      match goal with
      | He : emit _ _ ?t = Ok _ |- _ => by apply (Move_bracket _ _ t _ He)
      end.
  - unfold lexCloseParens in H. apply bind_Ok in H as (str & _ & H).
    apply bind_Ok in H as (lex2 & He & H). injection H as <- _.
    repeat case_match; try done;
      apply bind_Ok in He as ([s lex1] & Hn & He); move_next Hn;
      apply rtc_once;
      match goal with
      | He : emit _ _ ?t = Ok _ |- _ => by apply (Move_bracket _ _ t _ He)
      end.
  - unfold lexName in H. apply bind_Ok in H as (lex1 & Hl & H).
    apply bind_Ok in H as (lex2 & He & H). injection H as <- _.
    apply lexName_loop_frame in Hl as (c & ->).
    move_cursor. move_plain He. done.
  - unfold lexTagOpen in H. apply bind_Ok in H as (lex2 & He & H).
    injection H as <- _. move_cursor. move_plain He. done.
  - unfold lexTagName in H. apply bind_Ok in H as (lex1 & Hl & H).
    apply bind_Ok in H as (lex2 & He & H). injection H as <- _.
    apply lexTagName_loop_frame in Hl as (c & ->).
    move_cursor. move_plain He. done.
  - unfold lexTagClose in H. destruct (0 <? parens lex)%Z eqn:E; [done |].
    apply Z.ltb_ge in E. apply bind_Ok in H as (lex2 & He & H).
    injection H as <- _. move_cursor. apply rtc_once.
    by eapply Move_close.
  - unfold lexPrintOpen in H. apply bind_Ok in H as (lex2 & He & H).
    injection H as <- _. move_cursor. move_plain He. done.
  - unfold lexPrintClose in H. destruct (0 <? parens lex)%Z eqn:E; [done |].
    apply Z.ltb_ge in E. apply bind_Ok in H as (lex2 & He & H).
    injection H as <- _. move_cursor. apply rtc_once.
    by eapply Move_close.
Qed.

(** A state function that halts the machine got, by moves, to an
    [errorf] or to the emission of the EOF token. *)
Lemma call_Halt st fuel lex lex' :
  call st fuel lex = Ok (lex', None) ->
  exists lex1, rtc Move lex lex1 /\ Halt lex1 (set_state lex' None).
Proof.
  intros H. destruct st; cbn [call] in H.
  - unfold lexData in H. apply bind_Ok in H as ([lex1 r] & Hloop & H).
    destruct r as [st |]; [by inv_ok |].
    apply bind_Ok in H as (lex2 & Hp & H).
    apply bind_Ok in H as (lex3 & He & H). injection H as <-.
    exists lex2. split.
    + etrans; [by eapply lexData_loop_Moves | by eapply emit_pending_Moves].
    + right. eauto.
  - unfold lexExpression in H. apply bind_Ok in H as (str & _ & H).
    apply bind_Ok in H as (rest & _ & H).
    repeat case_match; by inv_ok.
  - unfold lexNumber in H. by inv_ok.
  - unfold lexOperator in H. by inv_ok.
  - unfold lexPunctuation in H. by inv_ok.
  - unfold lexString in H. apply bind_Ok in H as ([s lex1] & Hn & H).
    apply bind_Ok in H as (lex2 & He & H).
    apply bind_Ok in H as (rest & _ & H).
    case_match; [| by inv_ok]. injection H as <-.
    exists lex2. split; [move_next Hn; move_plain He; done |].
    left. by exists "unclosed string".
  - unfold lexOpenParens in H. by inv_ok.
  - unfold lexCloseParens in H. by inv_ok.
  - unfold lexName in H. by inv_ok.
  - unfold lexTagOpen in H. by inv_ok.
  - unfold lexTagName in H. by inv_ok.
  - unfold lexTagClose in H. case_match; [| by inv_ok]. injection H as <-.
    exists lex. split; [done |]. left. by exists "unclosed parenthesis".
  - unfold lexPrintOpen in H. by inv_ok.
  - unfold lexPrintClose in H. case_match; [| by inv_ok]. injection H as <-.
    exists lex. split; [done |]. left. by exists "unclosed parenthesis".
Qed.

Lemma run_Moves fuel lex lex' :
  run fuel lex = Ok lex' -> state lex <> None ->
  exists lex1, rtc Move lex lex1 /\ Halt lex1 lex'.
Proof.
  revert lex. induction fuel as [| fuel IH]; intros lex H Hst; [done |].
  cbn [run] in H. destruct (state lex) as [st |] eqn:Est; [| done].
  apply bind_Ok in H as (lex1 & Hstep & H).
  unfold step in Hstep. apply bind_Ok in Hstep as ([l st'] & Hcall & Hstep).
  injection Hstep as <-. destruct st' as [st' |].
  - apply call_Moves in Hcall.
    destruct (IH _ H ltac:(done)) as (lex2 & Hm & Hh).
    exists lex2. split; [| done].
    etrans; [done |]. eapply rtc_l; [apply Move_state | done].
  - apply call_Halt in Hcall as (lex2 & Hm & Hh).
    destruct fuel; [done |]. cbn in H. injection H as <-. eauto.
Qed.

End Moves.

(** ** Order of the tokens, bracket accounting, skipped blanks *)

Section StreamShape.

Import Lex.

(** What every move keeps, a sequence of moves keeps. *)
Lemma Moves_preserve (P : lexer -> Prop) :
  (forall a b, Move a b -> P a -> P b) ->
  forall a b, rtc Move a b -> P a -> P b.
Proof. intros HP a b Hm. induction Hm; eauto. Qed.

Lemma Lexed_nil_inv code q : Lexed code [] q -> q = 0.
Proof.
  intros H. remember [] as l eqn:El. destruct H; [done | by destruct toks].
Qed.

Lemma Lexed_ordered code toks q :
  Lexed code toks q ->
  q <= length code /\
  (forall t, head toks = Some t -> tok_pos t = 0) /\
  (forall t, last toks = Some t -> tok_end t <= q) /\
  (forall i a b, toks !! i = Some a -> toks !! S i = Some b ->
     tok_end a <= tok_pos b).
Proof.
  induction 1 as [| toks tok e q HL (IHq & IHh & IHl & IHi) ? ? ? ? ? Hv _].
  - split; [lia |]. by repeat split.
  - assert (tok_end tok = e) as Hend by (apply (Lexed_end code); [done | lia | done]).
    split; [done |]. split; [| split].
    + intros t. destruct toks as [| t0 toks']; cbn.
      * intros [= <-]. by apply Lexed_nil_inv in HL.
      * intros [= <-]. by apply IHh.
    + intros t. rewrite last_snoc. intros [= <-]. lia.
    + intros i a b Ha Hb.
      destruct (decide (S i < length toks)) as [Hlt | Hge].
      * rewrite lookup_app_l in Ha, Hb by lia. by eapply IHi.
      * assert (S i = length toks) as Hi.
        { apply lookup_lt_Some in Hb. rewrite length_app in Hb. cbn in Hb. lia. }
        rewrite Hi, list_lookup_middle in Hb by done. injection Hb as <-.
        rewrite lookup_app_l in Ha by lia.
        apply IHl. rewrite last_lookup. by replace (pred (length toks)) with i by lia.
Qed.

(** X1: The tokens of a returned stream do not overlap and come in source
    order, the first of them at offset 0, none beyond the end. *)
Theorem tokens_in_source_order fuel lex code toks lex' :
  tokenize fuel lex code = Ok (toks, lex') ->
  (exists t, head toks = Some t /\ tok_pos t = 0) /\
  (forall i a b, toks !! i = Some a -> toks !! S i = Some b ->
     tok_end a <= tok_pos b) /\
  (forall t, t ∈ toks -> tok_pos t <= length code).
Proof.
  intros (body & last & -> & HL & Hlast)%tokenize_Final.
  destruct (Lexed_ordered _ _ _ HL) as (Hq & Hh & Hl & Hi).
  split; [| split].
  - destruct body as [| t0 body']; cbn.
    + exists last. split; [done |]. by apply Lexed_nil_inv in HL.
    + exists t0. split; [done |]. by apply Hh.
  - intros i a b Ha Hb.
    destruct (decide (S i < length body)) as [Hlt | Hge].
    + rewrite lookup_app_l in Ha, Hb by lia. by eapply Hi.
    + assert (S i = length body) as Hi'.
      { apply lookup_lt_Some in Hb. rewrite length_app in Hb. cbn in Hb. lia. }
      rewrite Hi', list_lookup_middle in Hb by done. injection Hb as <-.
      rewrite lookup_app_l in Ha by lia.
      apply Hl. rewrite last_lookup. by replace (pred (length body)) with i by lia.
  - intros t [Ht | Ht%list_elem_of_singleton]%elem_of_app; [| by subst].
    pose proof (Lexed_at_source _ _ _ HL) as Hall.
    apply (proj1 (Forall_forall _ _) Hall) in Ht.
    apply slice_Ok in Ht as (? & ? & _). unfold tok_end in *. lia.
Qed.

Lemma tokens_in_source_order_witness :
  exists toks lex',
    tokenize 40 lexer0 src_mixed = Ok (toks, lex') /\
    (exists t, head toks = Some t /\ tok_pos t = 0) /\
    (forall i a b, toks !! i = Some a -> toks !! S i = Some b ->
       tok_end a <= tok_pos b) /\
    (forall t, t ∈ toks -> tok_pos t <= length src_mixed).
Proof.
  eexists _, _. split; [vm_compute; reflexivity |].
  eapply (tokens_in_source_order 40 lexer0 src_mixed).
  vm_compute; reflexivity.
Defined.

Lemma balance_app a b : balance (a ++ b) = (balance a + balance b)%Z.
Proof.
  induction a as [| t a IH]; [done |].
  change (balance ((t :: a) ++ b)) with (delta (tok_type t) + balance (a ++ b))%Z.
  change (balance (t :: a)) with (delta (tok_type t) + balance a)%Z. lia.
Qed.

Lemma Accounted_refl lex : Accounted lex lex.
Proof.
  exists []. rewrite app_nil_r. cbn. split; [done |]. split; [lia | done].
Qed.

Lemma Accounted_frame lex0 lex lex' :
  tokens lex' = tokens lex -> parens lex' = parens lex ->
  Accounted lex0 lex -> Accounted lex0 lex'.
Proof. intros Ht Hp (new & ? & ? & ?). exists new. rewrite Ht, Hp. eauto. Qed.

(** One more token, with the counter moved by [d]. *)
Lemma Accounted_snoc lex0 lex lex' tok d :
  tokens lex' = tokens lex ++ [tok] ->
  parens lex' = (parens lex + d)%Z -> d = delta (tok_type tok) ->
  (closeDelim (tok_type tok) = true -> (parens lex <= 0)%Z) ->
  Accounted lex0 lex -> Accounted lex0 lex'.
Proof.
  intros Ht Hp -> Hc (new & Hn & Hpar & Hcl). exists (new ++ [tok]).
  rewrite Ht, Hn, Hp, Hpar, balance_app, <- app_assoc. cbn.
  split; [done |]. split; [lia |]. intros i t Hi Hcd.
  destruct (decide (i < length new)) as [Hlt | Hge].
  - rewrite lookup_app_l in Hi by done. rewrite take_app_le by lia. eauto.
  - assert (i = length new) as ->.
    { apply lookup_lt_Some in Hi. rewrite length_app in Hi. cbn in Hi. lia. }
    rewrite list_lookup_middle in Hi by done. injection Hi as <-.
    rewrite take_app_length. specialize (Hc Hcd). lia.
Qed.

Lemma Move_Accounted lex0 lex lex' :
  Move lex lex' -> Accounted lex0 lex -> Accounted lex0 lex'.
Proof.
  intros HM HA. destruct HM as
    [lex c | lex st | fuel lex t lex' He Hd Hc _ _ | fuel lex t lex' He Hd
    | fuel lex t lex' He Hc Hp].
  - by eapply Accounted_frame.
  - by eapply Accounted_frame.
  - apply emit_Ok in He as (_ & _ & q & _ & _ & _ & _ & ->).
    eapply (Accounted_snoc _ _ _ _ (delta t)); [reflexivity | | reflexivity | | done];
      cbn; [lia | congruence].
  - apply emit_Ok in He as (_ & _ & q & _ & _ & _ & _ & ->).
    eapply (Accounted_snoc _ _ _ _ (delta t)); [reflexivity | reflexivity | reflexivity | | done].
    cbn. by destruct t.
  - apply emit_Ok in He as (_ & _ & q & _ & _ & _ & _ & ->).
    eapply (Accounted_snoc _ _ _ _ (delta t)); [reflexivity | | reflexivity | done | done].
    cbn. destruct t; try done; cbn; lia.
Qed.

Lemma Halt_Accounted lex0 lex lex' :
  Halt lex lex' -> Accounted lex0 lex -> Accounted lex0 lex'.
Proof.
  intros [(msg & ->) | (fuel & l & He & ->)] HA.
  - eapply (Accounted_snoc _ _ _ _ 0); [reflexivity | cbn; lia | reflexivity | done | done].
  - apply emit_Ok in He as (_ & _ & q & _ & _ & _ & _ & ->).
    eapply (Accounted_snoc _ _ _ _ 0); [reflexivity | cbn; lia | reflexivity | done | done].
Qed.

Lemma run_Accounted fuel lex lex' :
  run fuel lex = Ok lex' -> state lex <> None -> Accounted lex lex'.
Proof.
  intros Hrun Hst. destruct (run_Moves _ _ _ Hrun Hst) as (lex1 & Hm & Hh).
  eapply Halt_Accounted; [done |].
  eapply (Moves_preserve (Accounted lex)); [| done | apply Accounted_refl].
  intros a b. apply Move_Accounted.
Qed.

(** X2: When [tokenize] returns, the lexer it leaves behind has its bracket
    counter moved by the balance of the returned stream, and every
    TagClose or PrintClose token of the stream was emitted with the
    counter (the starting value plus the balance of the tokens before
    it) at most zero. *)
Theorem bracket_counter_accounts_for_stream fuel lex code toks lex' :
  tokenize fuel lex code = Ok (toks, lex') ->
  parens lex' = (parens lex + balance toks)%Z /\
  forall i t, toks !! i = Some t -> closeDelim (tok_type t) = true ->
    (parens lex + balance (take i toks) <= 0)%Z.
Proof.
  unfold tokenize. intros H. apply bind_Ok in H as (r & Hrun & H).
  injection H as <- <-.
  apply run_Accounted in Hrun as (new & Ht & Hp & Hc); [| done].
  cbn in Ht, Hp, Hc. rewrite Ht. eauto.
Qed.

Lemma bracket_counter_accounts_for_stream_witness :
  exists toks lex',
    tokenize 40 lexer0 src_paren_open = Ok (toks, lex') /\
    parens lex' = (parens lexer0 + balance toks)%Z /\
    forall i t, toks !! i = Some t -> closeDelim (tok_type t) = true ->
      (parens lexer0 + balance (take i toks) <= 0)%Z.
Proof.
  eexists _, _. split; [vm_compute; reflexivity |].
  eapply (bracket_counter_accounts_for_stream 40 lexer0 src_paren_open).
  vm_compute; reflexivity.
Defined.

Lemma consumeWhitespace_loop_lands fuel lex lex' :
  consumeWhitespace_loop fuel lex = Ok lex' ->
  forall b, input lex' !! cursor lex' = Some b -> ~ isSpaceByte b.
Proof.
  revert lex. induction fuel as [| fuel IH]; intros lex H; [done |].
  cbn [consumeWhitespace_loop] in H. apply bind_Ok in H as (str & Hc & H).
  apply current_Ok in Hc as (b0 & Hb0 & ->).
  destruct (isSpace [b0]) eqn:Esp.
  - apply bind_Ok in H as ([s lex1] & _ & H). eauto.
  - injection H as <-. intros b Hb. unfold isSpaceByte. congruence.
Qed.

(** Where [emit] leaves [pos], no space or tab stands. *)
Lemma emit_lands fuel lex t lex' :
  emit fuel lex t = Ok lex' ->
  forall b, input lex' !! pos lex' = Some b -> ~ isSpaceByte b.
Proof.
  unfold emit. intros H. apply bind_Ok in H as (val & _ & H).
  cbn [set_tokens set_pos pos cursor input] in H.
  destruct (cursor lex <? length (input lex)) eqn:E.
  - unfold consumeWhitespace in H. case_match; [done |].
    apply bind_Ok in H as (l & Hl & H). injection H as <-.
    intros b Hb. by apply (consumeWhitespace_loop_lands _ _ _ Hl b).
  - apply Nat.ltb_ge in E. injection H as <-. cbn. intros b Hb.
    apply lookup_lt_Some in Hb. lia.
Qed.

Lemma head_take_drop {A} (l : list A) p n b :
  head (take n (drop p l)) = Some b -> l !! p = Some b.
Proof.
  intros H. destruct n; [done |].
  destruct (drop p l) as [| x r] eqn:E; [done |]. cbn in H. injection H as ->.
  by rewrite <- (Nat.add_0_r p), <- lookup_drop, E.
Qed.

Lemma Landed_emit fuel lex t lex' :
  emit fuel lex t = Ok lex' -> Landed lex -> Landed lex'.
Proof.
  intros He [Hpos Hclean]. pose proof (emit_lands _ _ _ _ He) as Hland.
  apply emit_Ok in He as (_ & _ & q & _ & _ & _ & _ & ->).
  cbn [tokens input pos] in *.
  split; [by right |]. intros i tk b Hi Hne Hb. cbn [tokens] in Hi.
  destruct (decide (S i < length (tokens lex))) as [Hlt | Hge].
  - rewrite lookup_app_l in Hi by done. by eapply Hclean.
  - assert (S i = length (tokens lex)) as Hi'.
    { apply lookup_lt_Some in Hi. rewrite length_app in Hi. cbn in Hi. lia. }
    rewrite Hi', list_lookup_middle in Hi by done. injection Hi as <-.
    cbn in Hb. apply head_take_drop in Hb.
    destruct Hpos as [Hnil | Hpos]; [| by apply Hpos].
    rewrite Hnil in Hi'. done.
Qed.

Lemma Move_Landed lex lex' : Move lex lex' -> Landed lex -> Landed lex'.
Proof.
  intros HM HL. destruct HM as
    [lex c | lex st | fuel lex t lex' He _ _ _ _ | fuel lex t lex' He _
    | fuel lex t lex' He _ _]; try done; try by eapply Landed_emit.
  by apply (Landed_emit _ _ _ _ He) in HL.
Qed.

Lemma Halt_Landed lex lex' :
  Halt lex lex' -> Landed lex -> NoLeadingBlank (tokens lex').
Proof.
  intros [(msg & ->) | (fuel & l & He & ->)] HL.
  - destruct HL as [_ Hclean]. cbn [errorf set_state set_tokens tokens fst].
    intros i t b Hi Hne Hb. cbn [errorf set_state set_tokens tokens fst] in Hi.
    destruct (decide (S i < length (tokens lex))) as [Hlt | Hge].
    + rewrite lookup_app_l in Hi by done. by eapply Hclean.
    + assert (S i = length (tokens lex)) as Hi'.
      { apply lookup_lt_Some in Hi. rewrite length_app in Hi. cbn in Hi. lia. }
      rewrite Hi', list_lookup_middle in Hi by done. by injection Hi as <-.
  - by apply (Landed_emit _ _ _ _ He) in HL as [_ ?].
Qed.

(** X3: In a returned stream no token after the first begins with a space or
    a tab (an Error token's message aside): the blanks that follow an
    emission are dropped, also from the text that follows a close
    delimiter and from the front of a string literal. *)
Theorem blanks_after_a_token_are_dropped fuel lex code toks lex' :
  tokenize fuel lex code = Ok (toks, lex') -> NoLeadingBlank toks.
Proof.
  unfold tokenize. intros H. apply bind_Ok in H as (r & Hrun & H).
  injection H as <- <-.
  apply run_Moves in Hrun as (lex1 & Hm & Hh); [| done].
  eapply Halt_Landed; [done |]. clear Hh.
  assert (Landed (start lex code)) as HL0 by (split; [by left | by intros []]).
  eapply (Moves_preserve Landed); [apply Move_Landed | done | done].
Qed.

Lemma blanks_after_a_token_are_dropped_witness :
  exists toks lex',
    tokenize 40 lexer0 src_mixed = Ok (toks, lex') /\ NoLeadingBlank toks.
Proof.
  eexists _, _. split; [vm_compute; reflexivity |].
  eapply (blanks_after_a_token_are_dropped 40 lexer0 src_mixed).
  vm_compute; reflexivity.
Defined.

End StreamShape.

(** ** Panics and hangs *)

Section Failures.

Import Lex.

Lemma refines_keep {A} (r r' : result A) :
  refines r r' -> r <> Timeout -> r' = r.
Proof. intros [-> | ->]; done. Qed.

(** What a run does from a configuration the machine passes through, it
    does from the start. *)
Lemma steps_run_settled n k lex0 lex f r :
  steps n k lex0 = Ok lex -> run f lex = r -> r <> Timeout ->
  exists f', run f' lex0 = r.
Proof.
  revert lex0. induction n as [| n IH]; intros lex0 Hsteps Hrun Hr.
  - cbn in Hsteps. injection Hsteps as ->. eauto.
  - cbn [steps] in Hsteps. destruct (state lex0) as [st0 |] eqn:Est0.
    + apply bind_Ok in Hsteps as (lex1 & Hstep & Hsteps).
      destruct (IH _ Hsteps Hrun Hr) as [f1 Hf1].
      exists (S (k `max` f1)). cbn [run]. rewrite Est0.
      rewrite (refines_Ok _ _ _ (step_mono st0 k (k `max` f1) lex0 ltac:(lia)) Hstep).
      rewrite bind_Ok_l.
      rewrite (refines_keep _ _ (run_mono f1 (k `max` f1) lex1 ltac:(lia)));
        congruence.
    + injection Hsteps as ->. eauto.
Qed.

Lemma Reaches_panics lex0 code lex f msg :
  Reaches (start lex0 code) lex -> run f lex = Panic msg ->
  exists fuel, tokenize fuel lex0 code = Panic msg.
Proof.
  intros (n & k & Hsteps) Hrun.
  destruct (steps_run_settled _ _ _ _ _ _ Hsteps Hrun ltac:(done)) as [f' Hf'].
  exists f'. unfold tokenize. by rewrite Hf'.
Qed.

(** A run that panics with some fuel returns with none. *)
Lemma panic_never_returns n m lex code msg r :
  tokenize n lex code = Panic msg -> tokenize m lex code <> Ok r.
Proof.
  intros Hn Hm.
  pose proof (tokenize_mono n (n `max` m) lex code ltac:(lia)) as H1.
  pose proof (tokenize_mono m (n `max` m) lex code ltac:(lia)) as H2.
  apply refines_keep in H1; [| by rewrite Hn].
  apply (refines_Ok _ _ _ H2) in Hm. congruence.
Qed.

Lemma run_hangs n k lex0 lex :
  steps n k lex0 = Ok lex -> (forall f, run f lex = Timeout) ->
  forall f, run f lex0 = Timeout.
Proof.
  revert lex0. induction n as [| n IH]; intros lex0 Hsteps Hstuck f.
  - cbn in Hsteps. by injection Hsteps as ->.
  - cbn [steps] in Hsteps. destruct (state lex0) as [st0 |] eqn:Est0.
    + apply bind_Ok in Hsteps as (lex1 & Hstep & Hsteps).
      destruct (run_mono f (S (f `max` k)) lex0 ltac:(lia)) as [-> | ->];
        [done |].
      cbn [run]. rewrite Est0.
      rewrite (refines_Ok _ _ _ (step_mono st0 k (f `max` k) lex0 ltac:(lia)) Hstep).
      rewrite bind_Ok_l. by eapply IH.
    + by injection Hsteps as ->.
Qed.

(** *** [emit] and the blanks at the end of the source *)

Lemma consumeWhitespace_loop_off_end fuel lex :
  Forall isSpaceByte (drop (cursor lex) (input lex)) ->
  length (input lex) - cursor lex < fuel ->
  consumeWhitespace_loop fuel lex = Panic "slice bounds out of range".
Proof.
  revert lex. induction fuel as [| fuel IH]; intros lex Hall Hfuel; [lia |].
  cbn [consumeWhitespace_loop].
  destruct (decide (cursor lex < length (input lex))) as [Hlt | Hge].
  - destruct (current_lt lex Hlt) as (b & Hb & ->). rewrite bind_Ok_l.
    rewrite (drop_S _ _ _ Hb) in Hall. apply Forall_cons in Hall as [Hsp Hall].
    unfold isSpaceByte in Hsp. rewrite Hsp.
    destruct (next_lt lex Hlt) as (str & -> & _). rewrite bind_Ok_l.
    apply IH; cbn; [by rewrite Nat.add_1_r | lia].
  - unfold current, slice. by rewrite decide_False by lia.
Qed.

Lemma emit_panics fuel lex t :
  pos lex <= cursor lex -> cursor lex < length (input lex) ->
  Forall isSpaceByte (drop (cursor lex) (input lex)) ->
  length (input lex) - cursor lex < fuel ->
  emit fuel lex t = Panic "slice bounds out of range".
Proof.
  intros Hle Hlt Hall Hfuel. rewrite emit_in_range by lia.
  cbn zeta. rewrite (proj2 (Nat.ltb_lt _ _) Hlt). unfold consumeWhitespace.
  cbn [set_pos set_tokens pos cursor]. rewrite Nat.eqb_refl. cbn [negb].
  by rewrite consumeWhitespace_loop_off_end.
Qed.

Lemma emit_returns fuel lex t :
  pos lex <= cursor lex -> cursor lex <= length (input lex) ->
  cursor lex = length (input lex) \/
  Exists (fun b => ~ isSpaceByte b) (drop (cursor lex) (input lex)) ->
  length (input lex) - cursor lex <= fuel ->
  exists q,
    emit fuel lex t =
      Ok {| pos := q; cursor := q; parens := parens lex; input := input lex;
            tokens := tokens lex ++
              [Token (between (input lex) (pos lex) (cursor lex)) (pos lex) t];
            state := state lex |} /\
    cursor lex <= q <= length (input lex) /\
    Forall isSpaceByte (between (input lex) (cursor lex) q) /\
    (forall b, input lex !! q = Some b -> ~ isSpaceByte b).
Proof.
  intros Hle Hlen Hrest Hfuel. rewrite emit_in_range by lia. cbn zeta.
  destruct Hrest as [Hend | Hex].
  - rewrite (proj2 (Nat.ltb_ge _ _)) by lia. exists (cursor lex).
    split; [done |]. split; [lia |]. unfold between. rewrite Nat.sub_diag.
    split; [constructor |]. intros b Hb%lookup_lt_Some. lia.
  - assert (cursor lex < length (input lex)) as Hlt.
    { destruct (drop (cursor lex) (input lex)) eqn:E; [by inversion Hex |].
      assert (length (drop (cursor lex) (input lex)) <> 0) by by rewrite E.
      rewrite length_drop in *. lia. }
    rewrite (proj2 (Nat.ltb_lt _ _) Hlt). unfold consumeWhitespace.
    cbn [set_pos set_tokens pos cursor]. rewrite Nat.eqb_refl. cbn [negb].
    edestruct (consumeWhitespace_loop_stops fuel) as (q & Hq & Hloop);
      [| | rewrite Hloop]; cbn; [done | lia |].
    cbn in Hq. exists q. split; [done |]. split; [lia |].
    pose proof (consumeWhitespace_loop_Ok _ _ _ Hloop) as (c & Hc & _ & Hws).
    pose proof (consumeWhitespace_loop_lands _ _ _ Hloop) as Hland.
    cbn in Hc, Hws, Hland. injection Hc as <-. eauto.
Qed.

(** X4: What [emit] does, given enough fuel.  With one or more bytes left
    and all of them spaces and tabs, [consumeWhitespace] skips them all
    and asks for the byte after the last: a panic.  Otherwise [emit]
    appends [input[pos:cursor]] and puts [pos] and [cursor] on the first
    byte that is neither space nor tab, or on the end of the source. *)
Theorem emit_outcome fuel lex t :
  pos lex <= cursor lex -> cursor lex <= length (input lex) ->
  length (input lex) - cursor lex < fuel ->
  if bool_decide (cursor lex < length (input lex) /\
                  Forall isSpaceByte (drop (cursor lex) (input lex)))
  then emit fuel lex t = Panic "slice bounds out of range"
  else exists q,
    emit fuel lex t =
      Ok {| pos := q; cursor := q; parens := parens lex; input := input lex;
            tokens := tokens lex ++
              [Token (between (input lex) (pos lex) (cursor lex)) (pos lex) t];
            state := state lex |} /\
    cursor lex <= q <= length (input lex) /\
    Forall isSpaceByte (between (input lex) (cursor lex) q) /\
    (forall b, input lex !! q = Some b -> ~ isSpaceByte b).
Proof.
  intros Hle Hlen Hfuel. case_bool_decide as Hcase.
  - destruct Hcase as [Hlt Hall]. by apply emit_panics.
  - apply emit_returns; [done | done | | lia].
    destruct (decide (cursor lex = length (input lex))) as [| Hne]; [by left |].
    right. apply not_Forall_Exists; [apply _ |]. intros Hall. apply Hcase.
    split; [lia | done].
Qed.

Lemma emit_outcome_witness :
  emit 5 (set_cursor lex_trailing_blank 7) tokenPrintClose =
    Panic "slice bounds out of range".
Proof.
  apply (emit_outcome 5 (set_cursor lex_trailing_blank 7) tokenPrintClose);
    cbn; lia.
Defined.

(** X5: A source that ends in spaces or tabs after its last [%}] or [}}]:
    [emit] of the close delimiter panics in [consumeWhitespace], and
    [tokenize] returns no stream. *)
Theorem blanks_after_last_close_delimiter_panic lex0 code lex :
  Reaches (start lex0 code) lex ->
  state lex = Some LexTagClose \/ state lex = Some LexPrintClose ->
  (parens lex <= 0)%Z ->
  cursor lex + 2 < length code ->
  Forall isSpaceByte (drop (cursor lex + 2) code) ->
  (exists fuel, tokenize fuel lex0 code = Panic "slice bounds out of range") /\
  (forall fuel r, tokenize fuel lex0 code <> Ok r).
Proof.
  intros Hreach Hst Hp Hlt Hall.
  assert (state lex <> None) as Hsome by (destruct Hst as [-> | ->]; done).
  destruct (Reaches_Inv _ _ _ Hreach Hsome) as [Hin _].
  assert (pos lex = cursor lex) as Hpc.
  { destruct Hreach as (n & k & Hsteps).
    by apply (steps_boundary n k (start lex0 code)). }
  assert (exists fuel, tokenize fuel lex0 code = Panic "slice bounds out of range")
    as [fuel Hfuel].
  { eapply (Reaches_panics _ _ _ (S (S (length code)))); [done |].
    assert (emit (S (length code))
              (set_cursor lex (cursor lex + 2)) tokenTagClose
            = Panic "slice bounds out of range" /\
            emit (S (length code))
              (set_cursor lex (cursor lex + 2)) tokenPrintClose
            = Panic "slice bounds out of range") as [Ht Hpr].
    { split; apply emit_panics; cbn [set_cursor pos cursor input];
        rewrite ?Hin; first [done | lia]. }
    cbn [run]. unfold step.
    destruct Hst as [-> | ->]; cbn [call];
      unfold lexTagClose, lexPrintClose;
      rewrite (proj2 (Z.ltb_ge _ _) Hp); cbn zeta;
      change (length delimCloseTag) with 2;
      change (length delimClosePrint) with 2;
      by rewrite ?Ht, ?Hpr. }
  split; [eauto |]. intros f r. by eapply panic_never_returns.
Qed.

Lemma blanks_after_last_close_delimiter_panic_witness :
  (exists fuel, tokenize fuel lexer0 src_trailing_blank =
                  Panic "slice bounds out of range") /\
  (forall fuel r, tokenize fuel lexer0 src_trailing_blank <> Ok r).
Proof.
  eapply (blanks_after_last_close_delimiter_panic lexer0 src_trailing_blank).
  - exists 5, 10. vm_compute; reflexivity.
  - right. reflexivity.
  - cbn; lia.
  - cbn; lia.
  - apply (bool_decide_unpack _). vm_compute. exact I.
Defined.

End Failures.

(** ** [lexExpression]: the end of the source, unknown bytes, underscores *)

Section Expression.

Import Lex.

Lemma hasPrefix_head b r c p : b <> c -> hasPrefix (b :: r) (c :: p) = false.
Proof.
  intros Hne. unfold hasPrefix. apply andb_false_iff. right.
  apply bool_decide_eq_false. cbn. congruence.
Qed.

(** [lexExpression] at byte [b]: the dispatch, written on that byte. *)
Lemma lexExpression_at lex b :
  input lex !! cursor lex = Some b ->
  lexExpression lex =
    let rest := drop (cursor lex) (input lex) in
    if hasPrefix rest delimCloseTag then
      if pos lex <? cursor lex then Panic "Incomplete token?"
      else Ok (lex, Some LexTagClose)
    else if hasPrefix rest delimClosePrint then
      if pos lex <? cursor lex then Panic "Incomplete token?"
      else Ok (lex, Some LexPrintClose)
    else if containsAny [b] (bytes_of "+-/*%~") then Ok (lex, Some LexOperator)
    else if containsAny [b] (bytes_of ",?:|") then Ok (lex, Some LexPunctuation)
    else if containsAny [b] (bytes_of "([{") then Ok (lex, Some LexOpenParens)
    else if containsAny [b] (bytes_of "}])") then Ok (lex, Some LexCloseParens)
    else if bool_decide ([b] = [quote]) then Ok (lex, Some LexString)
    else if isNumeric [b] then Ok (lex, Some LexNumber)
    else if isName [b] then Ok (lex, Some LexName)
    else Panic "Unknown expression".
Proof.
  intros Hb. pose proof (lookup_lt_Some _ _ _ Hb) as Hlt.
  unfold lexExpression. destruct (current_lt lex Hlt) as (b' & Hb' & ->).
  rewrite slice_from_le by lia. by simplify_eq.
Qed.

Lemma no_close_delim b r :
  b <> "%"%char -> b <> "}"%char ->
  hasPrefix (b :: r) delimCloseTag = false /\
  hasPrefix (b :: r) delimClosePrint = false.
Proof. intros ? ?. split; by apply hasPrefix_head. Qed.

Lemma unknown_byte_no_delim b r :
  unknown_byte b = true ->
  hasPrefix (b :: r) delimCloseTag = false /\
  hasPrefix (b :: r) delimClosePrint = false.
Proof.
  intros Hu. apply no_close_delim; intros ->; by vm_compute in Hu.
Qed.

Lemma lexExpression_unknown lex b :
  input lex !! cursor lex = Some b -> unknown_byte b = true ->
  lexExpression lex = Panic "Unknown expression".
Proof.
  intros Hb Hu. rewrite (lexExpression_at lex b Hb). cbn zeta.
  rewrite (drop_S _ _ _ Hb).
  destruct (unknown_byte_no_delim b (drop (S (cursor lex)) (input lex)) Hu)
    as [-> ->].
  unfold unknown_byte in Hu.
  repeat (apply andb_true_iff in Hu as [Hu ?]).
  repeat match goal with
         | H : negb _ = true |- _ => apply negb_true_iff in H; rewrite H
         end.
  done.
Qed.

(** No byte from 0x80 on -- so no byte of a non-ASCII letter -- and no
    newline is a name character or anything else [lexExpression] knows. *)
Lemma non_ascii_byte_is_unknown b :
  (128 <= N_of_ascii b)%N \/ b = newline -> unknown_byte b = true.
Proof.
  intros [H | ->]; [| reflexivity].
  destruct b as [b0 b1 b2 b3 b4 b5 b6 b7].
  destruct b7; [| exfalso; destruct b0, b1, b2, b3, b4, b5, b6; vm_compute in H; by apply H].
  destruct b0, b1, b2, b3, b4, b5, b6; reflexivity.
Qed.

(** X6: When the machine is in [lexExpression] at a byte it has no case for
    (any byte from 0x80 on, a newline, [=], [<], [.], ...), [tokenize]
    panics with "Unknown expression" and returns no stream. *)
Theorem unknown_expression_byte_panics lex0 code lex b :
  Reaches (start lex0 code) lex -> state lex = Some LexExpression ->
  code !! cursor lex = Some b -> unknown_byte b = true ->
  (exists fuel, tokenize fuel lex0 code = Panic "Unknown expression") /\
  (forall fuel r, tokenize fuel lex0 code <> Ok r).
Proof.
  intros Hreach Hst Hb Hu.
  destruct (Reaches_Inv _ _ _ Hreach ltac:(by rewrite Hst)) as [Hin _].
  assert (exists fuel, tokenize fuel lex0 code = Panic "Unknown expression")
    as [fuel Hfuel].
  { eapply (Reaches_panics _ _ _ 1); [done |]. cbn [run]. rewrite Hst.
    unfold step. cbn [call]. rewrite (lexExpression_unknown lex b); [done | | done].
    by rewrite Hin. }
  split; [eauto |]. intros f r. by eapply panic_never_returns.
Qed.

Lemma unknown_expression_byte_panics_witness :
  (exists fuel, tokenize fuel lexer0 src_newline = Panic "Unknown expression") /\
  (forall fuel r, tokenize fuel lexer0 src_newline <> Ok r).
Proof.
  eapply (unknown_expression_byte_panics lexer0 src_newline _ newline).
  - exists 4, 10. vm_compute; reflexivity.
  - reflexivity.
  - reflexivity.
  - reflexivity.
Defined.

(** X7: When the machine is in [lexExpression] with the cursor at the end of
    the source -- the source ended inside a tag or a print statement --
    [tokenize] panics on the slice of [current] and returns no stream. *)
Theorem expression_at_end_of_source_panics lex0 code lex :
  Reaches (start lex0 code) lex -> state lex = Some LexExpression ->
  length code <= cursor lex ->
  (exists fuel, tokenize fuel lex0 code = Panic "slice bounds out of range") /\
  (forall fuel r, tokenize fuel lex0 code <> Ok r).
Proof.
  intros Hreach Hst Hend.
  destruct (Reaches_Inv _ _ _ Hreach ltac:(by rewrite Hst)) as [Hin _].
  assert (exists fuel, tokenize fuel lex0 code = Panic "slice bounds out of range")
    as [fuel Hfuel].
  { eapply (Reaches_panics _ _ _ 1); [done |]. cbn [run]. rewrite Hst.
    unfold step. cbn [call]. unfold lexExpression, current, slice.
    rewrite decide_False; [done |]. rewrite Hin. lia. }
  split; [eauto |]. intros f r. by eapply panic_never_returns.
Qed.

Lemma expression_at_end_of_source_panics_witness :
  (exists fuel, tokenize fuel lexer0 src_open_only =
                  Panic "slice bounds out of range") /\
  (forall fuel r, tokenize fuel lexer0 src_open_only <> Ok r).
Proof.
  eapply (expression_at_end_of_source_panics lexer0 src_open_only).
  - exists 6, 10. vm_compute; reflexivity.
  - reflexivity.
  - cbn; lia.
Defined.

(** At an underscore [lexExpression] goes to [lexName] ([isName] accepts
    it), whose loop stops at once ([isAlphaNumeric] does not) and which
    emits an empty Name token and hands back to [lexExpression], at the
    same byte. *)
Lemma run_at_underscore fuel lex :
  input lex !! cursor lex = Some underscore -> pos lex = cursor lex ->
  state lex = Some LexExpression \/ state lex = Some LexName ->
  run fuel lex = Timeout.
Proof.
  revert lex. induction fuel as [| fuel IH]; intros lex Hb Hpc Hst; [done |].
  pose proof (lookup_lt_Some _ _ _ Hb) as Hlt.
  cbn [run]. destruct Hst as [-> | ->]; unfold step; cbn [call].
  - rewrite (lexExpression_at lex underscore Hb). cbn zeta.
    rewrite (drop_S _ _ _ Hb).
    destruct (no_close_delim underscore (drop (S (cursor lex)) (input lex)))
      as [-> ->]; [done | done |].
    cbn. apply IH; cbn; auto.
  - unfold lexName. destruct fuel as [| fuel]; [done |].
    cbn [lexName_loop]. destruct (current_lt lex Hlt) as (b' & Hb' & Hcur).
    rewrite Hcur. assert (b' = underscore) as -> by congruence.
    rewrite !bind_Ok_l.
    change (isAlphaNumeric [underscore]) with false. cbn iota.
    rewrite bind_Ok_l, emit_in_range by lia. cbn zeta.
    rewrite (proj2 (Nat.ltb_lt _ _) Hlt). unfold consumeWhitespace.
    cbn [set_pos set_tokens pos cursor]. rewrite Nat.eqb_refl. cbn [negb].
    cbn [consumeWhitespace_loop]. unfold current at 1.
    cbn [set_pos set_tokens pos cursor input]. fold (current lex).
    rewrite Hcur, bind_Ok_l.
    change (isSpace [underscore]) with false. cbn iota.
    rewrite !bind_Ok_l. apply IH; cbn; auto.
Qed.

(** X8: When the machine is in [lexExpression] at an underscore -- at the
    start of a name or after its letters and digits -- [tokenize] never
    returns: it emits empty Name tokens without end. *)
Theorem underscore_in_expression_never_returns lex0 code lex :
  Reaches (start lex0 code) lex -> state lex = Some LexExpression ->
  code !! cursor lex = Some underscore ->
  forall fuel, tokenize fuel lex0 code = Timeout.
Proof.
  intros (n & k & Hsteps) Hst Hb fuel.
  assert (Inv code lex) as [Hin _].
  { eapply Reaches_Inv; [by exists n, k | by rewrite Hst]. }
  assert (pos lex = cursor lex) as Hpc.
  { eapply steps_boundary; [| done | by rewrite Hst]. done. }
  unfold tokenize. erewrite run_hangs; [done | done |].
  intros f. apply run_at_underscore; [by rewrite Hin | done | by left].
Qed.

Lemma underscore_in_expression_never_returns_witness :
  tokenize 1000 lexer0 src_underscore = Timeout.
Proof.
  eapply (underscore_in_expression_never_returns lexer0 src_underscore).
  - exists 4, 10. vm_compute; reflexivity.
  - reflexivity.
  - reflexivity.
Defined.

End Expression.

(** ** Numbers, names and tag names: the runs they take *)

Section Runs.

Import Lex.

(** With a byte after the cursor, [next] steps onto it and returns it. *)
Lemma next_byte lex x :
  input lex !! (cursor lex + 1) = Some x ->
  next lex = Ok ([x], set_cursor lex (cursor lex + 1)).
Proof.
  intros Hx. pose proof (lookup_lt_Some _ _ _ Hx) as Hlt. unfold next.
  rewrite (proj2 (Nat.leb_gt _ _)) by lia. cbn [set_cursor cursor input].
  rewrite (proj2 (Nat.eqb_neq _ _)) by lia.
  destruct (current_lt (set_cursor lex (cursor lex + 1))) as (b & Hb & ->);
    [cbn; lia |].
  cbn in Hb. by simplify_eq.
Qed.

Lemma drop_lookup_head {A} (l : list A) n x r :
  drop n l = x :: r -> l !! n = Some x /\ drop (n + 1) l = r.
Proof.
  intros E. assert (l !! n = Some x) as Hx.
  { by rewrite <- (Nat.add_0_r n), <- lookup_drop, E. }
  split; [done |]. rewrite (drop_S _ _ _ Hx) in E. rewrite Nat.add_1_r.
  by injection E.
Qed.


Lemma lexTagName_loop_stops fuel lex ds b rest :
  drop (cursor lex + 1) (input lex) = ds ++ b :: rest ->
  Forall alnum ds -> ~ alnum b -> length ds < fuel ->
  lexTagName_loop fuel lex = Ok (set_cursor lex (cursor lex + 1 + length ds)).
Proof.
  revert fuel lex. induction ds as [| d ds IH]; intros fuel lex Hdrop Hds Hb Hfuel;
    (destruct fuel as [| fuel]; [cbn in Hfuel; lia |]);
    apply drop_lookup_head in Hdrop as [Hx Hdrop];
    cbn [lexTagName_loop]; rewrite (next_byte _ _ Hx), bind_Ok_l.
  - apply not_true_is_false in Hb. unfold alnum in Hb. rewrite Hb. cbn.
    by rewrite Nat.add_0_r.
  - apply Forall_cons in Hds as [Hd Hds]. unfold alnum in Hd. rewrite Hd. cbn [negb].
    cbn [length] in Hfuel.
    rewrite (IH fuel (set_cursor lex (cursor lex + 1))); cbn; try done; [| lia].
    f_equal. f_equal. lia.
Qed.

Lemma lexName_loop_stops fuel lex ds b rest :
  drop (cursor lex) (input lex) = ds ++ b :: rest ->
  Forall alnum ds -> ~ alnum b -> length ds < fuel ->
  lexName_loop fuel lex = Ok (set_cursor lex (cursor lex + length ds)).
Proof.
  revert fuel lex. induction ds as [| d ds IH]; intros fuel lex Hdrop Hds Hb Hfuel;
    (destruct fuel as [| fuel]; [cbn in Hfuel; lia |]);
    apply drop_lookup_head in Hdrop as [Hx Hdrop];
    pose proof (lookup_lt_Some _ _ _ Hx) as Hlt;
    destruct (current_lt lex Hlt) as (x' & Hx' & Hcur);
    cbn [lexName_loop]; rewrite Hcur, bind_Ok_l; simplify_eq.
  - apply not_true_is_false in Hb. unfold alnum in Hb. rewrite Hb. cbn.
    rewrite Nat.add_0_r. by destruct lex.
  - apply Forall_cons in Hds as [Hd Hds]. unfold alnum in Hd. rewrite Hd.
    destruct (next_lt lex Hlt) as (str & -> & _). rewrite bind_Ok_l.
    cbn [length] in Hfuel.
    rewrite (IH fuel (set_cursor lex (cursor lex + 1))); cbn; try done; [| lia].
    f_equal. f_equal. lia.
Qed.

(** With letters and digits from the cursor to the end of the source,
    the loop of [lexName] asks [current] for the byte past the end. *)
Lemma lexName_loop_off_end fuel lex :
  Forall alnum (drop (cursor lex) (input lex)) ->
  length (input lex) - cursor lex < fuel ->
  lexName_loop fuel lex = Panic "slice bounds out of range".
Proof.
  revert lex. induction fuel as [| fuel IH]; intros lex Hall Hfuel; [lia |].
  cbn [lexName_loop].
  destruct (decide (cursor lex < length (input lex))) as [Hlt | Hge].
  - destruct (current_lt lex Hlt) as (b & Hb & ->). rewrite bind_Ok_l.
    rewrite (drop_S _ _ _ Hb) in Hall. apply Forall_cons in Hall as [Hal Hall].
    unfold alnum in Hal. rewrite Hal.
    destruct (next_lt lex Hlt) as (str & -> & _). rewrite bind_Ok_l.
    apply IH; cbn; [by rewrite Nat.add_1_r | lia].
  - unfold current, slice. by rewrite decide_False by lia.
Qed.

(** The token [emit] appends and where it leaves the lexer, when a byte
    that is neither space nor tab lies ahead. *)
Lemma emit_then fuel lex t :
  pos lex <= cursor lex ->
  Exists nonblank (drop (cursor lex) (input lex)) ->
  length (input lex) - cursor lex <= fuel ->
  exists q,
    emit fuel lex t =
      Ok {| pos := q; cursor := q; parens := parens lex; input := input lex;
            tokens := tokens lex ++
              [Token (between (input lex) (pos lex) (cursor lex)) (pos lex) t];
            state := state lex |} /\
    cursor lex <= q < length (input lex) /\
    Forall isSpaceByte (between (input lex) (cursor lex) q) /\
    (exists b, input lex !! q = Some b /\ nonblank b).
Proof.
  intros Hle Hex Hfuel.
  assert (cursor lex < length (input lex)) as Hlt.
  { destruct (drop (cursor lex) (input lex)) eqn:E; [by inversion Hex |].
    assert (length (drop (cursor lex) (input lex)) <> 0) by by rewrite E.
    rewrite length_drop in *. lia. }
  destruct (emit_returns fuel lex t) as (q & He & Hq & Hws & Hland);
    [done | lia | by right | done |].
  exists q. split; [done |].
  assert (q < length (input lex)) as Hqlt.
  { destruct (decide (q = length (input lex))) as [-> | ?]; [| lia].
    exfalso. apply Exists_exists in Hex as (x & Hx & Hnb). apply Hnb.
    unfold between in Hws. rewrite take_ge in Hws by (rewrite length_drop; lia).
    by apply (proj1 (Forall_forall _ _) Hws). }
  split; [lia |]. split; [done |].
  destruct (lookup_lt_is_Some_2 _ _ Hqlt) as [b Hb]. exists b. split; [done |].
  by apply Hland.
Qed.



(** X10: [lexTagName] takes the byte at the cursor, whatever it is, and the
    longest run of letters and digits after it, and emits them as the
    TagName token. *)
Theorem lexTagName_takes_any_byte_and_the_run fuel lex ds b rest :
  pos lex <= cursor lex ->
  drop (cursor lex + 1) (input lex) = ds ++ b :: rest ->
  Forall alnum ds -> ~ alnum b -> Exists nonblank (b :: rest) ->
  length (input lex) <= fuel ->
  exists q,
    lexTagName fuel lex =
      Ok ({| pos := q; cursor := q; parens := parens lex; input := input lex;
             tokens := tokens lex ++
               [Token (between (input lex) (pos lex)
                         (cursor lex + 1 + length ds)) (pos lex) tokenTagName];
             state := state lex |}, Some LexExpression) /\
    cursor lex + 1 + length ds <= q < length (input lex).
Proof.
  intros Hle Hdrop Hds Hb Hex Hfuel.
  assert (cursor lex + 1 + length ds < length (input lex)) as Hlen.
  { apply (f_equal length) in Hdrop.
    rewrite length_drop, length_app in Hdrop. cbn in Hdrop. lia. }
  unfold lexTagName.
  rewrite (lexTagName_loop_stops fuel lex ds b rest) by (done || lia).
  rewrite bind_Ok_l.
  edestruct (emit_then fuel (set_cursor lex (cursor lex + 1 + length ds)))
    as (q & -> & Hq & _); cbn; [lia | | lia |].
  - rewrite <- drop_drop, Hdrop, drop_app_length. done.
  - cbn in Hq. exists q. split; [done | lia].
Qed.

Lemma lexTagName_takes_any_byte_and_the_run_witness :
  exists q,
    lexTagName 10 (at_cursor tag_plus 3 []) =
      Ok ({| pos := q; cursor := q; parens := 0; input := tag_plus;
             tokens := [Token (bytes_of "+ab") 3 tokenTagName];
             state := None |}, Some LexExpression) /\
    6 <= q < 9.
Proof.
  apply (lexTagName_takes_any_byte_and_the_run 10 (at_cursor tag_plus 3 [])
           (bytes_of "ab") " "%char (bytes_of "%}")).
  - cbn; lia.
  - reflexivity.
  - by repeat constructor.
  - by vm_compute.
  - apply Exists_cons_tl, Exists_cons_hd. by vm_compute.
  - cbn; lia.
Defined.

(** X11: [lexName] takes the longest run of letters and digits from the
    cursor on -- no underscore -- and emits it as the Name token, when a
    byte that is not one of them follows; when the run reaches the end
    of the source it panics. *)
Theorem lexName_takes_the_run_or_panics fuel lex :
  pos lex <= cursor lex -> length (input lex) < fuel ->
  (forall ds b rest,
      drop (cursor lex) (input lex) = ds ++ b :: rest ->
      Forall alnum ds -> ~ alnum b -> Exists nonblank (b :: rest) ->
      exists q,
        lexName fuel lex =
          Ok ({| pos := q; cursor := q; parens := parens lex;
                 input := input lex;
                 tokens := tokens lex ++
                   [Token (between (input lex) (pos lex)
                             (cursor lex + length ds)) (pos lex) tokenName];
                 state := state lex |}, Some LexExpression) /\
        cursor lex + length ds <= q < length (input lex)) /\
  (Forall alnum (drop (cursor lex) (input lex)) ->
   lexName fuel lex = Panic "slice bounds out of range").
Proof.
  intros Hle Hfuel. split.
  - intros ds b rest Hdrop Hds Hb Hex.
    assert (cursor lex + length ds < length (input lex)) as Hlen.
    { apply (f_equal length) in Hdrop.
      rewrite length_drop, length_app in Hdrop. cbn in Hdrop. lia. }
    unfold lexName.
    rewrite (lexName_loop_stops fuel lex ds b rest) by (done || lia).
    rewrite bind_Ok_l.
    edestruct (emit_then fuel (set_cursor lex (cursor lex + length ds)))
      as (q & -> & Hq & _); cbn; [lia | | lia |].
    + rewrite <- drop_drop, Hdrop, drop_app_length. done.
    + cbn in Hq. exists q. split; [done | lia].
  - intros Hall. unfold lexName. by rewrite lexName_loop_off_end by (done || lia).
Qed.

Lemma lexName_takes_the_run_or_panics_witness :
  lexName 10 (at_cursor src_name_at_end 3 []) =
    Panic "slice bounds out of range".
Proof.
  apply (lexName_takes_the_run_or_panics 10 (at_cursor src_name_at_end 3 [])).
  - cbn; lia.
  - cbn; lia.
  - by repeat constructor.
Defined.

End Runs.

(** ** String literals that are closed, and the scan for a delimiter *)

Section Literals.

Import Lex.



Lemma emit_at_nonblank fuel lex t b :
  pos lex <= cursor lex -> input lex !! cursor lex = Some b -> nonblank b ->
  0 < fuel ->
  emit fuel lex t =
    Ok {| pos := cursor lex; cursor := cursor lex; parens := parens lex;
          input := input lex;
          tokens := tokens lex ++
            [Token (between (input lex) (pos lex) (cursor lex)) (pos lex) t];
          state := state lex |}.
Proof.
  intros Hle Hb Hnb Hfuel. pose proof (lookup_lt_Some _ _ _ Hb) as Hlt.
  rewrite emit_in_range by lia. cbn zeta.
  rewrite (proj2 (Nat.ltb_lt _ _) Hlt). unfold consumeWhitespace.
  cbn [set_pos set_tokens pos cursor]. rewrite Nat.eqb_refl. cbn [negb].
  destruct fuel as [| fuel]; [lia |]. cbn [consumeWhitespace_loop].
  unfold current. cbn [set_pos set_tokens pos cursor input]. fold (current lex).
  destruct (current_lt lex Hlt) as (b' & Hb' & ->). simplify_eq.
  rewrite bind_Ok_l. apply not_true_is_false in Hnb. by rewrite Hnb.
Qed.



End Literals.

Section Delimiters.

Import Lex.

Lemma hasPrefix_take s p : hasPrefix s p = true -> take (length p) s = p.
Proof.
  unfold hasPrefix. intros [_ H]%andb_true_iff. by apply bool_decide_eq_true in H.
Qed.

Lemma open_delims_exclusive s :
  hasPrefix s delimOpenPrint = true -> hasPrefix s delimOpenTag = false.
Proof.
  intros H%hasPrefix_take. apply not_true_is_false.
  intros H'%hasPrefix_take. cbn in H, H'. congruence.
Qed.

Lemma open_delim_byte s p :
  p = delimOpenTag \/ p = delimOpenPrint -> hasPrefix s p = true ->
  exists r, s = "{"%char :: r.
Proof.
  intros Hp H%hasPrefix_take. destruct s as [| x r]; [by destruct Hp as [-> | ->] |].
  exists r. destruct Hp as [-> | ->]; cbn in H; congruence.
Qed.

(** The text pending at an opening delimiter is emitted as it is. *)
Lemma emit_pending_at_delim fuel lex p :
  p = delimOpenTag \/ p = delimOpenPrint ->
  hasPrefix (drop (cursor lex) (input lex)) p = true ->
  pos lex <= cursor lex -> 0 < fuel ->
  emit_pending fuel lex =
    Ok (if pos lex <? cursor lex
        then {| pos := cursor lex; cursor := cursor lex; parens := parens lex;
                input := input lex;
                tokens := tokens lex ++
                  [Token (between (input lex) (pos lex) (cursor lex))
                         (pos lex) tokenText];
                state := state lex |}
        else lex).
Proof.
  intros Hp Hpre Hle Hfuel. unfold emit_pending.
  destruct (pos lex <? cursor lex); [| done].
  destruct (open_delim_byte _ _ Hp Hpre) as [r Hr].
  apply drop_lookup_head in Hr as [Hb _].
  by apply (emit_at_nonblank fuel lex tokenText "{"%char).
Qed.

Lemma lexData_loop_finds fuel lex d st p :
  (st = LexTagOpen /\ p = delimOpenTag) \/
  (st = LexPrintOpen /\ p = delimOpenPrint) ->
  pos lex <= cursor lex -> cursor lex <= d ->
  (forall i, cursor lex <= i < d ->
     hasPrefix (drop i (input lex)) delimOpenTag = false /\
     hasPrefix (drop i (input lex)) delimOpenPrint = false) ->
  hasPrefix (drop d (input lex)) p = true ->
  d - cursor lex + 1 < fuel ->
  lexData_loop fuel lex =
    Ok (if pos lex <? d
        then {| pos := d; cursor := d; parens := parens lex;
                input := input lex;
                tokens := tokens lex ++
                  [Token (between (input lex) (pos lex) d) (pos lex) tokenText];
                state := state lex |}
        else set_cursor lex d, Some st).
Proof.
  intros Hst. revert lex. induction fuel as [| fuel IH];
    intros lex Hle Hd Hnone Hpre Hfuel; [lia |].
  assert (p = delimOpenTag \/ p = delimOpenPrint) as Hp
    by (destruct Hst as [[_ ->] | [_ ->]]; auto).
  destruct (open_delim_byte _ _ Hp Hpre) as [r Hr].
  pose proof (proj1 (drop_lookup_head _ _ _ _ Hr)) as Hbd.
  pose proof (lookup_lt_Some _ _ _ Hbd) as Hdlt.
  cbn [lexData_loop]. rewrite slice_from_le by lia. rewrite bind_Ok_l.
  destruct (decide (cursor lex = d)) as [Heq | Hne].
  - subst d.
    rewrite (emit_pending_at_delim fuel lex p) by (done || lia).
    rewrite bind_Ok_l.
    destruct Hst as [[-> ->] | [-> ->]].
    + rewrite Hpre. f_equal. f_equal. destruct (pos lex <? cursor lex); [done |].
      by destruct lex.
    + rewrite (open_delims_exclusive _ Hpre), Hpre. f_equal. f_equal.
      destruct (pos lex <? cursor lex); [done |]. by destruct lex.
  - destruct (Hnone (cursor lex) ltac:(lia)) as [-> ->].
    assert (cursor lex < length (input lex)) as Hlt by lia.
    destruct (next_lt lex Hlt) as (str & -> & Hstr). rewrite bind_Ok_l.
    rewrite bool_decide_eq_false_2 by (rewrite Hstr; lia).
    rewrite (IH (set_cursor lex (cursor lex + 1))); cbn; try done; try lia.
    intros i Hi. apply Hnone. lia.
Qed.

(** X13: [lexData] stops at the leftmost opening delimiter: with no [{%] and
    no [{{] starting before offset [d] and one of them starting at [d],
    the text before [d], if any, becomes one Text token, verbatim, and
    the successor is [lexTagOpen] or [lexPrintOpen] after the delimiter
    found. *)
Theorem lexData_stops_at_leftmost_delimiter fuel lex d st p :
  (st = LexTagOpen /\ p = delimOpenTag) \/
  (st = LexPrintOpen /\ p = delimOpenPrint) ->
  pos lex <= cursor lex -> cursor lex <= d ->
  (forall i, cursor lex <= i < d ->
     hasPrefix (drop i (input lex)) delimOpenTag = false /\
     hasPrefix (drop i (input lex)) delimOpenPrint = false) ->
  hasPrefix (drop d (input lex)) p = true ->
  d - cursor lex + 1 < fuel ->
  lexData fuel lex =
    Ok (if pos lex <? d
        then {| pos := d; cursor := d; parens := parens lex;
                input := input lex;
                tokens := tokens lex ++
                  [Token (between (input lex) (pos lex) d) (pos lex) tokenText];
                state := state lex |}
        else set_cursor lex d, Some st).
Proof.
  intros Hst Hle Hd Hnone Hpre Hfuel. unfold lexData.
  by rewrite (lexData_loop_finds fuel lex d st p).
Qed.

Lemma lexData_stops_at_leftmost_delimiter_witness :
  lexData 10 (at_cursor src_two_delims 0 []) =
    Ok ({| pos := 6; cursor := 6; parens := 0; input := src_two_delims;
           tokens := [Token (bytes_of "a { b ") 0 tokenText];
           state := None |}, Some LexPrintOpen).
Proof.
  apply (lexData_stops_at_leftmost_delimiter 10 (at_cursor src_two_delims 0 [])
           6 LexPrintOpen delimOpenPrint).
  - right. split; reflexivity.
  - cbn; lia.
  - cbn; lia.
  - intros i [_ Hi]. cbn in Hi.
    do 6 (destruct i as [| i]; [split; reflexivity |]). lia.
  - reflexivity.
  - cbn; lia.
Defined.

End Delimiters.

(** ** [backup] and [peek] of the lexer *)

Section LexerCursor.

Import Lex.

(** X14: [backup] undoes a [next] that moved the cursor, and never takes the
    cursor below [pos]; after a [next] at the end of the source, which
    moves nothing, it takes the cursor one byte back all the same. *)
Theorem backup_after_next lex str lex1 :
  pos lex <= cursor lex -> cursor lex <= length (input lex) ->
  next lex = Ok (str, lex1) ->
  pos lex <= cursor (backup lex1) /\
  (cursor lex < length (input lex) -> backup lex1 = lex) /\
  (cursor lex = length (input lex) ->
   str = delimEof /\
   backup lex1 =
     if cursor lex <=? pos lex then lex else set_cursor lex (cursor lex - 1)).
Proof.
  intros Hle Hlen Hn. split; [| split].
  - apply next_Ok in Hn as (c & -> & Hc & _). unfold backup. cbn.
    destruct (c <=? pos lex) eqn:E; cbn; [lia |]. apply Nat.leb_gt in E. lia.
  - intros Hlt. destruct (next_lt lex Hlt) as (s & Hs & _).
    rewrite Hs in Hn. injection Hn as _ <-. unfold backup. cbn.
    rewrite (proj2 (Nat.leb_gt _ _)) by lia.
    replace (cursor lex + 1 - 1) with (cursor lex) by lia. by destruct lex.
  - intros Hend. unfold next in Hn.
    rewrite (proj2 (Nat.leb_le _ _)) in Hn by lia. by injection Hn as <- <-.
Qed.

Lemma backup_after_next_witness :
  pos (at_cursor print_12ab 3 []) <=
    cursor (backup (set_cursor (at_cursor print_12ab 3 []) 4)) /\
  (cursor (at_cursor print_12ab 3 []) < length (input (at_cursor print_12ab 3 [])) ->
   backup (set_cursor (at_cursor print_12ab 3 []) 4) = at_cursor print_12ab 3 []) /\
  (cursor (at_cursor print_12ab 3 []) = length (input (at_cursor print_12ab 3 [])) ->
   bytes_of "2" = delimEof /\
   backup (set_cursor (at_cursor print_12ab 3 []) 4) =
     if cursor (at_cursor print_12ab 3 []) <=? pos (at_cursor print_12ab 3 [])
     then at_cursor print_12ab 3 []
     else set_cursor (at_cursor print_12ab 3 [])
            (cursor (at_cursor print_12ab 3 []) - 1)).
Proof.
  apply (backup_after_next (at_cursor print_12ab 3 []) (bytes_of "2")
           (set_cursor (at_cursor print_12ab 3 []) 4)).
  - cbn; lia.
  - cbn; lia.
  - reflexivity.
Defined.

(** X15: [peek] returns the byte [next] would step onto; on the last byte of
    the source, where [next] answers [delimEof], and at the end, [peek]
    panics. *)
Theorem peek_agrees_with_next_or_panics lex :
  (forall x, input lex !! (cursor lex + 1) = Some x ->
     peek lex = Ok [x] /\
     next lex = Ok ([x], set_cursor lex (cursor lex + 1))) /\
  (length (input lex) <= cursor lex + 1 ->
     peek lex = Panic "slice bounds out of range" /\
     exists lex1, next lex = Ok (delimEof, lex1)).
Proof.
  split.
  - intros x Hx. split; [| by apply next_byte].
    pose proof (lookup_lt_Some _ _ _ Hx) as Hlt. unfold peek, slice.
    rewrite decide_True by lia.
    replace (cursor lex + 2 - (cursor lex + 1)) with 1 by lia.
    by rewrite (drop_S _ _ _ Hx).
  - intros Hend. split.
    + unfold peek, slice. by rewrite decide_False by lia.
    + unfold next. destruct (length (input lex) <=? cursor lex) eqn:E; [eauto |].
      apply Nat.leb_gt in E. cbn [set_cursor cursor input].
      rewrite (proj2 (Nat.eqb_eq _ _)) by lia. eauto.
Qed.

Lemma peek_agrees_with_next_or_panics_witness :
  peek (at_cursor print_12ab 3 []) = Ok (bytes_of "2") /\
  next (at_cursor print_12ab 3 []) =
    Ok (bytes_of "2", set_cursor (at_cursor print_12ab 3 []) 4).
Proof.
  apply (proj1 (peek_agrees_with_next_or_panics (at_cursor print_12ab 3 []))).
  reflexivity.
Defined.

End LexerCursor.

(** ** The stream fits the grammar of token types *)

Section Grammar.

Import Lex.

Lemma feeds_app m a b :
  feeds m (a ++ b) = feeds m a ≫= fun m' => feeds m' b.
Proof.
  revert m. induction a as [| t a IH]; intros m; [done |].
  cbn [app feeds]. destruct (feed m t); [apply IH | done].
Qed.

Lemma feeds_snoc m a t m1 :
  feeds m a = Some m1 -> feeds m (a ++ [t]) = feed m1 t.
Proof.
  intros H. rewrite feeds_app, H. cbn. by destruct (feed m1 t).
Qed.

Lemma emit_types fuel lex t lex' :
  emit fuel lex t = Ok lex' -> types lex' = types lex ++ [t].
Proof.
  intros (_ & _ & q & _ & _ & _ & _ & ->)%emit_Ok. unfold types. cbn.
  by rewrite map_app.
Qed.

Lemma next_types lex str lex' : next lex = Ok (str, lex') -> types lex' = types lex.
Proof. by intros (c & ->)%next_frame. Qed.

Lemma emit_pending_types fuel lex lex' :
  emit_pending fuel lex = Ok lex' ->
  types lex' = types lex \/ types lex' = types lex ++ [tokenText].
Proof.
  unfold emit_pending. intros H. case_match.
  - right. by eapply emit_types.
  - left. by injection H as <-.
Qed.

Lemma lexData_loop_types fuel lex lex' ret :
  lexData_loop fuel lex = Ok (lex', ret) ->
  match ret with
  | None => types lex' = types lex
  | Some st =>
      (st = LexTagOpen \/ st = LexPrintOpen) /\
      (types lex' = types lex \/ types lex' = types lex ++ [tokenText])
  end.
Proof.
  revert lex. induction fuel as [| fuel IH]; intros lex H; [done |].
  cbn [lexData_loop] in H. apply bind_Ok in H as (rest & _ & H).
  destruct (hasPrefix rest delimOpenTag);
    [| destruct (hasPrefix rest delimOpenPrint)];
    try (apply bind_Ok in H as (lex1 & Hp & H); injection H as <- <-;
         split; [auto | by eapply emit_pending_types]).
  apply bind_Ok in H as ([str lex1] & Hn & H). apply next_types in Hn.
  destruct (bool_decide (str = delimEof)).
  - by injection H as <- <-.
  - apply IH in H. by rewrite Hn in H.
Qed.

Ltac types_of_emits :=
  repeat match goal with
    | H : emit _ _ _ = Ok _ |- _ => apply emit_types in H
    | H : next _ = Ok (_, _) |- _ => apply next_types in H
    | H : lexNumber_loop _ _ = Ok _ |- _ =>
        apply lexNumber_loop_frame in H as (? & ->)
    | H : lexTagName_loop _ _ = Ok _ |- _ =>
        apply lexTagName_loop_frame in H as (? & ->)
    | H : lexName_loop _ _ = Ok _ |- _ =>
        apply lexName_loop_frame in H as (? & ->)
    end.

Ltac feed_all HG :=
  unfold types in *; cbn [set_cursor set_parens set_tokens tokens errorf fst] in *;
  rewrite ?map_app;
  repeat match goal with
    | H : map tok_type (tokens ?l) = _ |- context [map tok_type (tokens ?l)] =>
        rewrite H
    end;
  rewrite <- ?app_assoc, ?feeds_app, ?HG;
  eexists; split; reflexivity.

(** One call of a state function takes the reader of the stream from a
    mode that fits that state to one that fits the successor, or to the
    end. *)
Lemma call_feeds st fuel lex lex' ret m :
  call st fuel lex = Ok (lex', ret) ->
  feeds Outside (types lex) = Some m -> fits st m = true ->
  exists m',
    feeds Outside (types lex') = Some m' /\
    match ret with Some st' => fits st' m' = true | None => m' = Done end.
Proof.
  intros H HG Hfit. destruct st; destruct m; try done; cbn [call] in H.
  - unfold lexData in H. apply bind_Ok in H as ([lex1 r] & Hloop & H).
    apply lexData_loop_types in Hloop. destruct r as [st |].
    + injection H as <- <-. destruct Hloop as [Hst [Ht | Ht]].
      * exists Outside. rewrite Ht. split; [done |]. by destruct Hst as [-> | ->].
      * exists AfterText. rewrite Ht, (feeds_snoc _ _ _ _ HG).
        split; [done |]. by destruct Hst as [-> | ->].
    + apply bind_Ok in H as (lex2 & Hp & H).
      apply bind_Ok in H as (lex3 & He & H). injection H as <- <-.
      apply emit_types in He. exists Done. split; [| done]. rewrite He.
      apply emit_pending_types in Hp as [Hp | Hp]; rewrite Hp, Hloop.
      * by rewrite (feeds_snoc _ _ _ _ HG).
      * assert (feeds Outside (types lex ++ [tokenText]) = Some AfterText) as HG2
          by by rewrite (feeds_snoc _ _ _ _ HG).
        by rewrite (feeds_snoc _ _ _ _ HG2).
  - unfold lexExpression in H. apply bind_Ok in H as (str & _ & H).
    apply bind_Ok in H as (rest & _ & H). exists Inside.
    repeat case_match; try done; by injection H as <- <-.
  - unfold lexNumber in H. inv_ok. types_of_emits. feed_all HG.
  - unfold lexOperator in H. inv_ok. types_of_emits. feed_all HG.
  - unfold lexPunctuation in H. inv_ok. types_of_emits. feed_all HG.
  - unfold lexString in H. apply bind_Ok in H as ([s lex1] & Hn & H).
    apply bind_Ok in H as (lex2 & He & H).
    apply bind_Ok in H as (rest & _ & H).
    case_match.
    + injection H as <- <-. types_of_emits. feed_all HG.
    + apply bind_Ok in H as (lex4 & He4 & H).
      apply bind_Ok in H as ([s5 lex5] & Hn5 & H).
      apply bind_Ok in H as (lex6 & He6 & H). injection H as <- <-.
      types_of_emits. feed_all HG.
  - unfold lexOpenParens in H. apply bind_Ok in H as (str & _ & H).
    apply bind_Ok in H as (lex2 & He & H). injection H as <- <-.
    repeat case_match; try done;
      apply bind_Ok in He as ([s lex1] & Hn & He); types_of_emits; feed_all HG.
  - unfold lexCloseParens in H. apply bind_Ok in H as (str & _ & H).
    apply bind_Ok in H as (lex2 & He & H). injection H as <- <-.
    repeat case_match; try done;
      apply bind_Ok in He as ([s lex1] & Hn & He); types_of_emits; feed_all HG.
  - unfold lexName in H. inv_ok. types_of_emits. feed_all HG.
  - unfold lexTagOpen in H. inv_ok. types_of_emits. feed_all HG.
  - unfold lexTagOpen in H. inv_ok. types_of_emits. feed_all HG.
  - unfold lexTagName in H. inv_ok. types_of_emits. feed_all HG.
  - unfold lexTagClose in H. case_match.
    + injection H as <- <-. feed_all HG.
    + inv_ok. types_of_emits. feed_all HG.
  - unfold lexPrintOpen in H. inv_ok. types_of_emits. feed_all HG.
  - unfold lexPrintOpen in H. inv_ok. types_of_emits. feed_all HG.
  - unfold lexPrintClose in H. case_match.
    + injection H as <- <-. feed_all HG.
    + inv_ok. types_of_emits. feed_all HG.
Qed.

Lemma run_feeds fuel lex lex' st m :
  run fuel lex = Ok lex' -> state lex = Some st ->
  feeds Outside (types lex) = Some m -> fits st m = true ->
  feeds Outside (types lex') = Some Done.
Proof.
  revert lex st m.
  induction fuel as [| fuel IH]; intros lex st m H Hst HG Hfit; [done |].
  cbn [run] in H. rewrite Hst in H.
  apply bind_Ok in H as (lex1 & Hstep & H).
  unfold step in Hstep. apply bind_Ok in Hstep as ([l st'] & Hcall & Hstep).
  injection Hstep as <-.
  destruct (call_feeds _ _ _ _ _ _ Hcall HG Hfit) as (m' & HG' & Hfit').
  destruct st' as [st' |].
  - by eapply IH.
  - subst m'. destruct fuel; [done |]. cbn in H. by injection H as <-.
Qed.

(** X16: The types of a returned stream, read from the left, fit the grammar
    of [feed]: outside tags and print statements there are only Text
    tokens, no two in a row, and the final EOF; a TagOpen is followed at
    once by a TagName; name, number, operator, punctuation and bracket
    tokens stand only between an opening and a closing delimiter; a
    StringOpen is followed by Text and StringClose or by the final
    Error; an Error ends the stream from inside. *)
Theorem stream_fits_token_grammar fuel lex code toks lex' :
  tokenize fuel lex code = Ok (toks, lex') ->
  feeds Outside (map tok_type toks) = Some Done.
Proof.
  unfold tokenize. intros H. apply bind_Ok in H as (r & Hrun & H).
  injection H as <- <-. by eapply (run_feeds _ _ _ LexData Outside).
Qed.

Lemma stream_fits_token_grammar_witness :
  exists toks lex',
    tokenize 40 lexer0 src_mixed = Ok (toks, lex') /\
    feeds Outside (map tok_type toks) = Some Done.
Proof.
  eexists _, _. split; [vm_compute; reflexivity |].
  eapply (stream_fits_token_grammar 40 lexer0 src_mixed).
  vm_compute; reflexivity.
Defined.

End Grammar.

(** ** Lexemes: the value of a token fits its type *)

Section Lexemes.

Import Lex.

Lemma lexemes_snoc prev toks t :
  lexemes prev (toks ++ [t]) =
  lexemes prev toks && lexeme (last_type prev toks) (tok_type t) (tok_value t).
Proof.
  revert prev. induction toks as [| a toks IH]; intros prev.
  - cbn. by rewrite andb_true_r.
  - cbn [app lexemes]. rewrite IH, andb_assoc. f_equal. f_equal.
    unfold last_type. destruct toks as [| b toks']; [done |]. cbn [last].
    destruct (last (b :: toks')) eqn:E; [done | by apply last_None in E].
Qed.

Lemma lexeme_prev p t v : t <> tokenText -> lexeme p t v = lexeme None t v.
Proof. by destruct t. Qed.

(** Appending a token that is no Text. *)
Lemma lexemes_add prev toks v p t :
  lexemes prev toks = true -> t <> tokenText -> lexeme None t v = true ->
  lexemes prev (toks ++ [Token v p t]) = true.
Proof.
  intros H Ht Hv. rewrite lexemes_snoc, H. cbn. by rewrite lexeme_prev.
Qed.

(** Only after a StringOpen does the reader stand in [StringBegun]. *)
Lemma feeds_last (a : tokenStream) m0 m :
  feeds m0 (map tok_type a) = Some m ->
  last_type None a = Some tokenStringOpen -> m = StringBegun.
Proof.
  destruct a as [| x a _] using rev_ind; [done |].
  unfold last_type. rewrite last_snoc, map_app, feeds_app. intros H [= Hx].
  destruct (feeds m0 (map tok_type a)) as [m1 |]; [| done].
  cbn in H. rewrite Hx in H. destruct m1; cbn in H; congruence.
Qed.

Lemma emit_value fuel lex t lex' :
  emit fuel lex t = Ok lex' ->
  pos lex <= cursor lex <= length (input lex) /\
  tokens lex' =
    tokens lex ++ [Token (between (input lex) (pos lex) (cursor lex)) (pos lex) t] /\
  input lex' = input lex /\ pos lex' = cursor lex' /\
  cursor lex <= cursor lex' <= length (input lex) /\
  (forall b, input lex !! cursor lex = Some b -> ~ isSpaceByte b ->
             cursor lex' = cursor lex).
Proof.
  intros (Hle & Hlen & q & Hq & Hql & Hws & _ & ->)%emit_Ok. cbn.
  repeat split; try done; try lia.
  intros b Hb Hnb. destruct (decide (q = cursor lex)) as [| Hne]; [done |].
  exfalso. apply Hnb. rewrite (drop_S _ _ _ Hb) in Hws.
  replace (q - cursor lex) with (S (q - cursor lex - 1)) in Hws by lia.
  cbn in Hws. by apply Forall_cons in Hws as [? _].
Qed.

Lemma next_cases lex :
  (length (input lex) <= cursor lex /\ next lex = Ok (delimEof, lex)) \/
  (cursor lex + 1 = length (input lex) /\
   next lex = Ok (delimEof, set_cursor lex (cursor lex + 1))) \/
  (exists b, input lex !! (cursor lex + 1) = Some b /\
             next lex = Ok ([b], set_cursor lex (cursor lex + 1))).
Proof.
  destruct (decide (length (input lex) <= cursor lex)) as [Hge | Hlt].
  - left. split; [done |]. unfold next.
    by rewrite (proj2 (Nat.leb_le _ _) Hge).
  - right. destruct (decide (cursor lex + 1 = length (input lex))) as [He | Hne].
    + left. split; [done |]. unfold next.
      rewrite (proj2 (Nat.leb_gt _ _)) by lia. cbn [set_cursor cursor input].
      by rewrite (proj2 (Nat.eqb_eq _ _) He).
    + right. destruct (input lex !! (cursor lex + 1)) as [b |] eqn:Hb.
      * exists b. split; [done |]. by apply next_byte.
      * apply lookup_ge_None in Hb. lia.
Qed.

Lemma lexNumber_loop_scanned fuel lex lex' :
  lexNumber_loop fuel lex = Ok lex' ->
  exists c, lex' = set_cursor lex c /\ cursor lex < c /\
    forall i, cursor lex < i < c ->
      exists b, input lex !! i = Some b /\ isNumeric [b] = true.
Proof.
  revert lex. induction fuel as [| fuel IH]; intros lex H; [done |].
  cbn [lexNumber_loop] in H.
  destruct (next_cases lex) as [[Hge Hn] | [[He Hn] | (b & Hb & Hn)]];
    rewrite Hn, bind_Ok_l in H.
  - rewrite lexNumber_loop_to_end in H; [done |].
    rewrite drop_ge by lia. constructor.
  - rewrite lexNumber_loop_to_end in H; [done |].
    rewrite drop_ge by (cbn; lia). constructor.
  - destruct (isNumeric [b]) eqn:E; cbn [negb] in H.
    + apply IH in H as (c & -> & Hc & Hall). cbn in Hc, Hall.
      exists c. split; [done |]. split; [lia |]. intros i Hi.
      destruct (decide (i = cursor lex + 1)) as [-> | Hne]; [eauto |].
      apply Hall. lia.
    + injection H as <-. exists (cursor lex + 1). split; [done |].
      split; [lia |]. intros i Hi. lia.
Qed.

Lemma lexTagName_loop_scanned fuel lex lex' :
  lexTagName_loop fuel lex = Ok lex' ->
  exists c, lex' = set_cursor lex c /\ cursor lex < c /\
    forall i, cursor lex < i < c ->
      exists b, input lex !! i = Some b /\ isAlphaNumeric [b] = true.
Proof.
  revert lex. induction fuel as [| fuel IH]; intros lex H; [done |].
  cbn [lexTagName_loop] in H.
  destruct (next_cases lex) as [[Hge Hn] | [[He Hn] | (b & Hb & Hn)]];
    rewrite Hn, bind_Ok_l in H.
  - rewrite lexTagName_loop_to_end in H; [done |].
    rewrite drop_ge by lia. constructor.
  - rewrite lexTagName_loop_to_end in H; [done |].
    rewrite drop_ge by (cbn; lia). constructor.
  - destruct (isAlphaNumeric [b]) eqn:E; cbn [negb] in H.
    + apply IH in H as (c & -> & Hc & Hall). cbn in Hc, Hall.
      exists c. split; [done |]. split; [lia |]. intros i Hi.
      destruct (decide (i = cursor lex + 1)) as [-> | Hne]; [eauto |].
      apply Hall. lia.
    + injection H as <-. exists (cursor lex + 1). split; [done |].
      split; [lia |]. intros i Hi. lia.
Qed.

Lemma lexName_loop_scanned fuel lex lex' :
  lexName_loop fuel lex = Ok lex' ->
  exists c, lex' = set_cursor lex c /\ cursor lex <= c /\
    (forall i, cursor lex <= i < c ->
       exists b, input lex !! i = Some b /\ isAlphaNumeric [b] = true) /\
    exists b, input lex !! c = Some b /\ isAlphaNumeric [b] = false.
Proof.
  revert lex. induction fuel as [| fuel IH]; intros lex H; [done |].
  cbn [lexName_loop] in H. apply bind_Ok in H as (str & Hcur & H).
  apply current_Ok in Hcur as (b & Hb & ->).
  destruct (isAlphaNumeric [b]) eqn:E.
  - destruct (next_lt lex) as (str & Hn & _);
      [by apply lookup_lt_Some in Hb |].
    rewrite Hn, bind_Ok_l in H.
    apply IH in H as (c & -> & Hc & Hall & Hend). cbn in Hc, Hall, Hend.
    exists c. split; [done |]. split; [lia |]. split; [| done].
    intros i Hi. destruct (decide (i = cursor lex)) as [-> | Hne]; [eauto |].
    apply Hall. lia.
  - injection H as <-. exists (cursor lex). split; [by destruct lex |].
    split; [lia |]. split; [intros i Hi; lia | eauto].
Qed.

Lemma lexData_loop_scanned fuel lex lex' ret :
  lexData_loop fuel lex = Ok (lex', ret) ->
  exists d, cursor lex <= d /\
    (forall i, cursor lex <= i < d ->
       hasPrefix (drop i (input lex)) delimOpenTag = false /\
       hasPrefix (drop i (input lex)) delimOpenPrint = false) /\
    match ret with
    | Some st =>
        (exists f, emit_pending f (set_cursor lex d) = Ok lex') /\
        ((st = LexTagOpen /\
          hasPrefix (drop d (input lex)) delimOpenTag = true) \/
         (st = LexPrintOpen /\
          hasPrefix (drop d (input lex)) delimOpenPrint = true))
    | None => lex' = set_cursor lex d
    end.
Proof.
  revert lex. induction fuel as [| fuel IH]; intros lex H; [done |].
  cbn [lexData_loop] in H. apply bind_Ok in H as (rest & Hrest & H).
  assert (rest = drop (cursor lex) (input lex)) as ->.
  { unfold slice_from in Hrest. apply slice_Ok in Hrest as (? & _ & ->).
    apply take_ge. rewrite length_drop. lia. }
  assert (set_cursor lex (cursor lex) = lex) as Hsame by by destruct lex.
  destruct (hasPrefix _ delimOpenTag) eqn:Et;
    [| destruct (hasPrefix _ delimOpenPrint) eqn:Ep].
  - apply bind_Ok in H as (lex1 & Hp & H). injection H as <- <-.
    exists (cursor lex). split; [lia |]. split; [intros i Hi; lia |].
    rewrite Hsame. eauto.
  - apply bind_Ok in H as (lex1 & Hp & H). injection H as <- <-.
    exists (cursor lex). split; [lia |]. split; [intros i Hi; lia |].
    rewrite Hsame. eauto.
  - apply bind_Ok in H as ([str lex1] & Hn & H).
    apply next_Ok in Hn as (c & -> & Hc & _).
    assert (forall i, cursor lex <= i < c ->
       hasPrefix (drop i (input lex)) delimOpenTag = false /\
       hasPrefix (drop i (input lex)) delimOpenPrint = false) as Hhere.
    { intros i Hi. by replace i with (cursor lex) by lia. }
    destruct (bool_decide (str = delimEof)).
    + injection H as <- <-. exists c. split; [lia |]. done.
    + apply IH in H as (d & Hd & Hall & Hret). cbn in Hd, Hall, Hret.
      exists d. split; [lia |]. split.
      * intros i Hi. destruct (decide (i < c)); [apply Hhere | apply Hall]; lia.
      * destruct ret as [st |]; [| by rewrite Hret].
        destruct Hret as [(f & Hf) Hst]. split; [| done]. by exists f.
Qed.

Lemma all_between (p : bytes -> bool) s lo hi :
  hi <= length s ->
  (forall i, lo <= i < hi -> exists b, s !! i = Some b /\ p [b] = true) ->
  all p (between s lo hi) = true.
Proof.
  intros Hlen Hall. unfold all, between. apply forallb_forall.
  intros x Hx. apply list_elem_of_In, list_elem_of_lookup in Hx as (k & Hk).
  apply lookup_take_Some in Hk as [Hk Hlt]. rewrite lookup_drop in Hk.
  destruct (Hall (lo + k)) as (b & Hb & Hp); [lia |]. congruence.
Qed.

Lemma between_cons s lo hi b :
  s !! lo = Some b -> lo < hi ->
  between s lo hi = b :: between s (S lo) hi.
Proof.
  intros Hb Hlt. unfold between. rewrite (drop_S _ _ _ Hb).
  by replace (hi - lo) with (S (hi - S lo)) by lia.
Qed.

Lemma between_one s lo b : s !! lo = Some b -> between s lo (lo + 1) = [b].
Proof.
  intros Hb. rewrite (between_cons _ _ _ b) by first [done | lia].
  unfold between. by replace (lo + 1 - S lo) with 0 by lia.
Qed.

Lemma between_empty s lo : between s lo lo = [].
Proof. unfold between. by rewrite Nat.sub_diag. Qed.

Lemma hasPrefix_of_take s p n :
  hasPrefix (take n s) p = true -> hasPrefix s p = true.
Proof.
  unfold hasPrefix. intros [Hl Ht%bool_decide_eq_true]%andb_true_iff.
  apply Nat.leb_le in Hl. rewrite length_take in Hl.
  apply andb_true_iff. split; [apply Nat.leb_le; lia |].
  apply bool_decide_eq_true. rewrite take_take in Ht.
  by replace (length p `min` n) with (length p) in Ht by lia.
Qed.

Lemma contains_take s p n :
  0 < length p ->
  (forall i, i < n -> hasPrefix (drop i s) p = false) ->
  contains (take n s) p = false.
Proof.
  intros Hp. revert s. induction n as [| n IH]; intros s Hall.
  - destruct s; cbn; unfold hasPrefix; cbn;
      by rewrite (proj2 (Nat.leb_gt _ _)) by lia.
  - destruct s as [| x r].
    + cbn. unfold hasPrefix. cbn. by rewrite (proj2 (Nat.leb_gt _ _)) by lia.
    + change (take (S n) (x :: r)) with (x :: take n r). cbn [contains].
      apply orb_false_iff. split.
      * destruct (hasPrefix (x :: take n r) p) eqn:E; [| done].
        change (x :: take n r) with (take (S n) (x :: r)) in E.
        apply hasPrefix_of_take in E. specialize (Hall 0). cbn in Hall.
        rewrite Hall in E by lia. done.
      * apply IH. intros i Hi. apply (Hall (S i)). lia.
Qed.

Lemma contains_between s p lo hi :
  0 < length p ->
  (forall i, lo <= i < hi -> hasPrefix (drop i s) p = false) ->
  contains (between s lo hi) p = false.
Proof.
  intros Hp Hall. unfold between. apply contains_take; [done |].
  intros i Hi. rewrite drop_drop. apply Hall. lia.
Qed.

Lemma indexByte_found s c :
  (0 <= indexByte s c)%Z ->
  (c ∉ take (Z.to_nat (indexByte s c)) s) /\
  s !! Z.to_nat (indexByte s c) = Some c.
Proof.
  induction s as [| x r IH]; cbn [indexByte]; [lia |].
  destruct (decide (x = c)) as [-> | Hne].
  - intros _. cbn. split; [apply not_elem_of_nil | done].
  - destruct (indexByte r c <? 0)%Z eqn:E; [lia |]. apply Z.ltb_ge in E.
    intros _. destruct (IH E) as [Hnin Hat].
    replace (Z.to_nat (indexByte r c + 1)) with (S (Z.to_nat (indexByte r c)))
      by lia.
    cbn. split; [| done]. by apply not_elem_of_cons.
Qed.

Lemma name_byte b :
  isName [b] = true -> isAlphaNumeric [b] = false -> b = underscore.
Proof.
  destruct b as [[] [] [] [] [] [] [] []]; vm_compute; congruence.
Qed.

Lemma between_nonempty s lo hi : lo < hi -> hi <= length s -> between s lo hi <> [].
Proof.
  intros Hlt Hlen Hnil. apply (f_equal length) in Hnil. unfold between in Hnil.
  rewrite length_take, length_drop in Hnil. cbn in Hnil. lia.
Qed.

Lemma last_type_snoc prev toks t : last_type prev (toks ++ [t]) = Some (tok_type t).
Proof. unfold last_type. by rewrite last_snoc. Qed.

(** Appending the text found between tags. *)
Lemma lexemes_text toks m s lo hi :
  feeds Outside (map tok_type toks) = Some m -> m <> StringBegun ->
  lo < hi -> hi <= length s ->
  (forall i, lo <= i < hi ->
     hasPrefix (drop i s) delimOpenTag = false /\
     hasPrefix (drop i s) delimOpenPrint = false) ->
  lexemes None toks = true ->
  lexemes None (toks ++ [Token (between s lo hi) lo tokenText]) = true.
Proof.
  intros HG Hm Hlt Hlen Hall Hlex. rewrite lexemes_snoc, Hlex.
  cbn [andb tok_type tok_value lexeme].
  rewrite bool_decide_eq_false_2 by (by intros ?%(feeds_last _ _ _ HG)).
  rewrite bool_decide_eq_false_2 by by apply between_nonempty.
  rewrite !contains_between; [done | cbn; lia | | cbn; lia |];
    intros i Hi; by apply Hall.
Qed.

(** Appending the token of an opening or closing delimiter [p] that
    stands at the cursor. *)
Lemma delimiter_value s c p :
  hasPrefix (drop c s) p = true -> between s c (c + length p) = p.
Proof.
  intros H%hasPrefix_take. unfold between.
  by replace (c + length p - c) with (length p) by lia.
Qed.

Lemma call_lexemes st fuel lex lex' ret m :
  call st fuel lex = Ok (lex', ret) ->
  feeds Outside (types lex) = Some m -> fits st m = true ->
  entry st lex -> lexemes None (tokens lex) = true ->
  (lexemes None (tokens lex') = true /\
   match ret with Some st' => entry st' lex' | None => True end) \/
  (ret = Some LexExpression /\
   input lex' !! cursor lex' = Some underscore /\ pos lex' = cursor lex').
Proof.
  intros H HG Hfit [Hpc Hent] Hlex.
  destruct st; cbn [call] in H.
  - (* lexData *)
    destruct m; try done. left.
    unfold lexData in H. apply bind_Ok in H as ([lex1 r] & Hloop & H).
    apply lexData_loop_scanned in Hloop as (d & Hd & Hall & Hret).
    rewrite <- Hpc in Hall.
    assert (forall f l, emit_pending f (set_cursor lex d) = Ok l ->
              lexemes None (tokens l) = true /\ input l = input lex /\
              pos l = cursor l /\ d <= cursor l /\
              (forall b, input lex !! d = Some b -> ~ isSpaceByte b ->
                         cursor l = d)) as Hpend.
    { unfold emit_pending. cbn [set_cursor pos cursor]. intros f l Hl.
      destruct (pos lex <? d) eqn:E.
      - apply Nat.ltb_lt in E.
        apply emit_value in Hl as (Hb & Ht & Hin & Hp & Hc & Hstay).
        cbn [set_cursor pos cursor input tokens] in Hb, Ht, Hin, Hc, Hstay. rewrite Ht. split; [| by repeat split; try lia].
        apply (lexemes_text _ Outside); try done; lia.
      - apply Nat.ltb_ge in E. injection Hl as <-. cbn.
        repeat split; try done; lia. }
    destruct r as [st |].
    + injection H as <- <-. destruct Hret as [(f & Hf) Hst].
      destruct (Hpend _ _ Hf) as (Hl & Hin & Hp & Hc & Hstay).
      split; [done |]. split; [done |].
      assert (exists p, (p = delimOpenTag \/ p = delimOpenPrint) /\
                hasPrefix (drop d (input lex)) p = true) as (p & Hp' & Hpre)
        by (destruct Hst as [[_ ?] | [_ ?]]; eauto).
      destruct (open_delim_byte _ _ Hp' Hpre) as (r & Hr).
      apply drop_lookup_head in Hr as [Hb _].
      rewrite (Hstay _ Hb), Hin by by vm_compute.
      by destruct Hst as [[-> ?] | [-> ?]].
    + subst lex1. apply bind_Ok in H as (lex2 & Hp & H).
      apply bind_Ok in H as (lex3 & He & H). injection H as <- <-.
      destruct (Hpend _ _ Hp) as (Hl & Hin & Hp2 & _).
      apply emit_value in He as (_ & Ht & _). rewrite Ht, Hp2, between_empty.
      split; [| done]. by apply lexemes_add.
  - (* lexExpression *)
    left. assert (exists b, input lex !! cursor lex = Some b) as (b & Hb).
    { unfold lexExpression in H. apply bind_Ok in H as (str & Hcur & _).
      apply current_Ok in Hcur as (b & Hb & _). eauto. }
    rewrite (lexExpression_at _ _ Hb) in H. cbn zeta in H.
    repeat match type of H with
      | (if ?c then _ else _) = _ => destruct c eqn:?
      end; try done; injection H as <- <-;
      (split; [done |]); (split; [done |]); cbn; eauto.
    match goal with
    | Hq : bool_decide ([b] = [quote]) = true |- _ =>
        by apply bool_decide_eq_true in Hq as [= ->]
    end.
  - (* lexNumber *)
    left. destruct Hent as (b & Hb & Hnum).
    unfold lexNumber in H. apply bind_Ok in H as (lex1 & Hloop & H).
    apply bind_Ok in H as (lex2 & He & H). injection H as <- <-.
    apply lexNumber_loop_scanned in Hloop as (c & -> & Hc & Hall).
    apply emit_value in He as (Hbd & Ht & Hin & Hp & _). cbn [set_cursor pos cursor input tokens] in Hbd, Ht.
    split; [| done]. rewrite Ht. apply lexemes_add; [done | done |].
    cbn [lexeme]. rewrite bool_decide_eq_false_2 by (apply between_nonempty; lia).
    cbn [negb andb]. apply all_between; [lia |]. intros i Hi.
    destruct (decide (i = cursor lex)) as [-> | Hne]; [eauto |].
    apply Hall. lia.
  - (* lexOperator *)
    left. destruct Hent as (b & Hb & Hop).
    unfold lexOperator in H. apply bind_Ok in H as ([s1 lex1] & Hn & H).
    apply bind_Ok in H as (lex2 & He & H). injection H as <- <-.
    destruct (next_lt lex) as (str & Hn' & _); [by apply lookup_lt_Some in Hb |].
    rewrite Hn' in Hn. injection Hn as _ <-.
    apply emit_value in He as (Hbd & Ht & Hin & Hp & _). cbn [set_cursor pos cursor input tokens] in Hbd, Ht.
    split; [| done]. rewrite Ht, Hpc, (between_one _ _ _ Hb).
    by apply lexemes_add.
  - (* lexPunctuation *)
    left. destruct Hent as (b & Hb & Hop).
    unfold lexPunctuation in H. apply bind_Ok in H as ([s1 lex1] & Hn & H).
    apply bind_Ok in H as (lex2 & He & H). injection H as <- <-.
    destruct (next_lt lex) as (str & Hn' & _); [by apply lookup_lt_Some in Hb |].
    rewrite Hn' in Hn. injection Hn as _ <-.
    apply emit_value in He as (Hbd & Ht & Hin & Hp & _). cbn [set_cursor pos cursor input tokens] in Hbd, Ht.
    split; [| done]. rewrite Ht, Hpc, (between_one _ _ _ Hb).
    by apply lexemes_add.
  - (* lexString *)
    left. rename Hent into Hb.
    unfold lexString in H. apply bind_Ok in H as ([s1 lex1] & Hn & H).
    destruct (next_lt lex) as (str & Hn' & _); [by apply lookup_lt_Some in Hb |].
    rewrite Hn' in Hn. injection Hn as _ <-.
    apply bind_Ok in H as (lex2 & He & H).
    apply emit_value in He as (Hbd & Ht & Hin & Hp & Hc & _).
    cbn [set_cursor pos cursor input tokens] in Hbd, Ht, Hin, Hc. rewrite Hpc, (between_one _ _ _ Hb) in Ht.
    assert (lexemes None (tokens lex2) = true) as Hlex2
      by (rewrite Ht; by apply lexemes_add).
    assert (last_type None (tokens lex2) = Some tokenStringOpen) as Hlast
      by (by rewrite Ht, last_type_snoc).
    apply bind_Ok in H as (rest & Hrest & H).
    assert (rest = drop (cursor lex2) (input lex)) as ->.
    { unfold slice_from in Hrest. rewrite Hin in Hrest.
      apply slice_Ok in Hrest as (? & _ & ->).
      apply take_ge. rewrite length_drop. lia. }
    destruct (indexByte _ quote <? 0)%Z eqn:E.
    + injection H as <- <-. split; [| done]. cbn. by apply lexemes_add.
    + apply Z.ltb_ge in E. apply indexByte_found in E as [Hnin Hq].
      set (k := Z.to_nat (indexByte (drop (cursor lex2) (input lex)) quote)) in *.
      rewrite lookup_drop in Hq.
      apply bind_Ok in H as (lex4 & He4 & H).
      apply emit_value in He4 as (Hbd4 & Ht4 & Hin4 & Hp4 & Hc4 & Hstay4).
      cbn [set_cursor pos cursor input tokens] in Hbd4, Ht4, Hin4, Hc4, Hstay4. rewrite Hin in *.
      rewrite (Hstay4 quote) in Hp4 by first [done | by vm_compute].
      assert (cursor lex4 = cursor lex2 + k) as Hcur4
        by (apply (Hstay4 quote); [done | by vm_compute]).
      apply bind_Ok in H as ([s5 lex5] & Hn5 & H).
      destruct (next_lt lex4) as (str5 & Hn5' & _).
      { rewrite Hin4, Hcur4. by apply lookup_lt_Some in Hq. }
      rewrite Hn5' in Hn5. injection Hn5 as _ <-.
      apply bind_Ok in H as (lex6 & He6 & H). injection H as <- <-.
      apply emit_value in He6 as (_ & Ht6 & _ & Hp6 & _).
      cbn [set_cursor pos cursor input tokens] in Ht6. rewrite Hin4, Hp4, Hcur4 in Ht6.
      rewrite (between_one _ _ _ Hq) in Ht6.
      split; [| done]. rewrite Ht6. apply lexemes_add; [| done | done].
      rewrite Ht4, lexemes_snoc, Hlex2, Hlast. cbn.
      rewrite Hp. unfold between.
      replace (cursor lex2 + k - cursor lex2) with k by lia.
      rewrite bool_decide_eq_true_2 by done.
      by rewrite bool_decide_eq_false_2.
  - (* lexOpenParens *)
    left. unfold lexOpenParens in H. apply bind_Ok in H as (str & Hcur & H).
    apply current_Ok in Hcur as (b & Hb & ->).
    apply bind_Ok in H as (lex2 & He & H). injection H as <- <-.
    destruct (next_lt lex) as (str & Hn' & _); [by apply lookup_lt_Some in Hb |].
    rewrite Hn', bind_Ok_l in He.
    repeat match type of He with
      | (if ?c then _ else _) = _ => destruct c eqn:?
      end; try done;
      apply emit_value in He as (Hbd & Ht & Hin & Hp & _); cbn [set_cursor pos cursor input tokens] in Hbd, Ht;
      (split; [| done]); cbn [set_parens tokens];
      rewrite Ht, Hpc, (between_one _ _ _ Hb); by apply lexemes_add.
  - (* lexCloseParens *)
    left. unfold lexCloseParens in H. apply bind_Ok in H as (str & Hcur & H).
    apply current_Ok in Hcur as (b & Hb & ->).
    apply bind_Ok in H as (lex2 & He & H). injection H as <- <-.
    destruct (next_lt lex) as (str & Hn' & _); [by apply lookup_lt_Some in Hb |].
    rewrite Hn', bind_Ok_l in He.
    repeat match type of He with
      | (if ?c then _ else _) = _ => destruct c eqn:?
      end; try done;
      apply emit_value in He as (Hbd & Ht & Hin & Hp & _); cbn [set_cursor pos cursor input tokens] in Hbd, Ht;
      (split; [| done]); cbn [set_parens tokens];
      rewrite Ht, Hpc, (between_one _ _ _ Hb); by apply lexemes_add.
  - (* lexName *)
    destruct Hent as (b & Hb & Hnum & Hname).
    unfold lexName in H. apply bind_Ok in H as (lex1 & Hloop & H).
    apply bind_Ok in H as (lex2 & He & H). injection H as <- <-.
    apply lexName_loop_scanned in Hloop as (c & -> & Hc & Hall & e & He' & Hne).
    apply emit_value in He as (Hbd & Ht & Hin & Hp & _ & Hstay).
    cbn [set_cursor pos cursor input tokens] in Hbd, Ht, Hin, Hstay.
    destruct (decide (c = cursor lex)) as [-> | Hlt].
    + right. split; [done |].
      assert (b = underscore) as -> by (apply name_byte; congruence).
      rewrite Hin, (Hstay underscore) by first [done | by vm_compute].
      split; [done |]. rewrite Hp. by apply (Hstay underscore); [| vm_compute].
    + left. split; [| done]. rewrite Ht. apply lexemes_add; [done | done |].
      rewrite Hpc, (between_cons _ _ _ b) by first [done | lia].
      cbn [lexeme]. rewrite Hnum. cbn [negb andb].
      rewrite <- (between_cons _ _ _ b) by first [done | lia].
      apply all_between; [lia | done].
  - (* lexTagOpen *)
    left. unfold lexTagOpen in H. apply bind_Ok in H as (lex2 & He & H).
    injection H as <- <-.
    apply emit_value in He as (Hbd & Ht & Hin & Hp & _). cbn [set_cursor pos cursor input tokens] in Ht.
    split; [| done]. rewrite Ht, Hpc, (delimiter_value _ _ _ Hent).
    by apply lexemes_add.
  - (* lexTagName *)
    left. unfold lexTagName in H. apply bind_Ok in H as (lex1 & Hloop & H).
    apply bind_Ok in H as (lex2 & He & H). injection H as <- <-.
    apply lexTagName_loop_scanned in Hloop as (c & -> & Hc & Hall).
    apply emit_value in He as (Hbd & Ht & Hin & Hp & _). cbn [set_cursor pos cursor input tokens] in Hbd, Ht.
    split; [| done]. rewrite Ht. apply lexemes_add; [done | done |].
    destruct (input lex !! pos lex) as [b |] eqn:Hb;
      [| apply lookup_ge_None in Hb; lia].
    rewrite (between_cons _ _ _ b) by first [done | lia]. cbn [lexeme].
    apply all_between; [lia |]. intros i Hi. apply Hall. lia.
  - (* lexTagClose *)
    left. unfold lexTagClose in H. destruct (0 <? parens lex)%Z.
    + injection H as <- <-. split; [| done]. cbn. by apply lexemes_add.
    + apply bind_Ok in H as (lex2 & He & H). injection H as <- <-.
      apply emit_value in He as (Hbd & Ht & Hin & Hp & _). cbn [set_cursor pos cursor input tokens] in Ht.
      split; [| done]. rewrite Ht, Hpc, (delimiter_value _ _ _ Hent).
      by apply lexemes_add.
  - (* lexPrintOpen *)
    left. unfold lexPrintOpen in H. apply bind_Ok in H as (lex2 & He & H).
    injection H as <- <-.
    apply emit_value in He as (Hbd & Ht & Hin & Hp & _). cbn [set_cursor pos cursor input tokens] in Ht.
    split; [| done]. rewrite Ht, Hpc, (delimiter_value _ _ _ Hent).
    by apply lexemes_add.
  - (* lexPrintClose *)
    left. unfold lexPrintClose in H. destruct (0 <? parens lex)%Z.
    + injection H as <- <-. split; [| done]. cbn. by apply lexemes_add.
    + apply bind_Ok in H as (lex2 & He & H). injection H as <- <-.
      apply emit_value in He as (Hbd & Ht & Hin & Hp & _). cbn [set_cursor pos cursor input tokens] in Ht.
      split; [| done]. rewrite Ht, Hpc, (delimiter_value _ _ _ Hent).
      by apply lexemes_add.
Qed.

Lemma run_lexemes fuel lex lex' st m :
  run fuel lex = Ok lex' -> state lex = Some st ->
  feeds Outside (types lex) = Some m -> fits st m = true ->
  entry st lex -> lexemes None (tokens lex) = true ->
  lexemes None (tokens lex') = true.
Proof.
  revert lex st m.
  induction fuel as [| fuel IH]; intros lex st m H Hst HG Hfit Hent Hlex;
    [done |].
  cbn [run] in H. rewrite Hst in H.
  apply bind_Ok in H as (lex1 & Hstep & H).
  unfold step in Hstep. apply bind_Ok in Hstep as ([l st'] & Hcall & Hstep).
  injection Hstep as <-.
  destruct (call_feeds _ _ _ _ _ _ Hcall HG Hfit) as (m' & HG' & Hfit').
  destruct (call_lexemes _ _ _ _ _ _ Hcall HG Hfit Hent Hlex)
    as [[Hlex' Hent'] | (-> & Hu & Hp)].
  - destruct st' as [st' |].
    + by eapply (IH _ st' m').
    + destruct fuel; [done |]. cbn in H. by injection H as <-.
  - rewrite run_at_underscore in H; [done | done | done | by left].
Qed.

(** X17: In a returned stream the value of every token fits its type: the
    delimiter and bracket tokens hold their own characters, an operator
    or punctuation token one of its characters, a Number one or more
    digits, a Name a letter followed by letters and digits, a TagName
    one byte followed by letters and digits, the Text of a string
    literal no quote, any other Text one or more bytes and no opening
    delimiter, EOF nothing, Error one of the two messages. *)
Theorem lexemes_fit_their_types fuel lex code toks lex' :
  tokenize fuel lex code = Ok (toks, lex') -> lexemes None toks = true.
Proof.
  unfold tokenize. intros H. apply bind_Ok in H as (r & Hrun & H).
  injection H as <- <-.
  by eapply (run_lexemes _ _ _ LexData Outside).
Qed.

Lemma lexemes_fit_their_types_witness :
  exists toks lex',
    tokenize 60 lexer0 src_lexemes = Ok (toks, lex') /\
    lexemes None toks = true.
Proof.
  eexists _, _. split; [vm_compute; reflexivity |].
  eapply (lexemes_fit_their_types 60 lexer0 src_lexemes).
  vm_compute; reflexivity.
Defined.

End Lexemes.

(** ** A run that returns does so in linear fuel *)

Section LinearFuel.

Import Lex.

Lemma consumeWhitespace_loop_fuel n f lex r :
  consumeWhitespace_loop n lex = Ok r ->
  length (input lex) - cursor lex < f ->
  consumeWhitespace_loop f lex = Ok r.
Proof.
  revert f lex. induction n as [| n IH]; intros f lex H Hf; [done |].
  destruct f as [| f]; [lia |]. cbn [consumeWhitespace_loop] in *.
  apply bind_Ok in H as (str & Hcur & H). rewrite Hcur, bind_Ok_l.
  apply current_Ok in Hcur as (b & Hb & ->). apply lookup_lt_Some in Hb.
  destruct (isSpace [b]); [| done].
  destruct (next_lt lex Hb) as (str & Hn & _). rewrite Hn, bind_Ok_l in *.
  apply IH; [done |]. cbn. lia.
Qed.

Lemma emit_fuel n f lex t r :
  emit n lex t = Ok r -> length (input lex) - cursor lex < f ->
  emit f lex t = Ok r.
Proof.
  unfold emit. intros H Hf. apply bind_Ok in H as (val & Hval & H).
  rewrite Hval, bind_Ok_l. cbn zeta in *.
  destruct (_ <? _); [| done]. unfold consumeWhitespace in *.
  destruct (negb _); [done |].
  apply bind_Ok in H as (lex1 & Hloop & H).
  by rewrite (consumeWhitespace_loop_fuel _ f _ _ Hloop).
Qed.

Lemma emit_pending_fuel n f lex r :
  emit_pending n lex = Ok r -> length (input lex) - cursor lex < f ->
  emit_pending f lex = Ok r.
Proof.
  unfold emit_pending. intros H Hf. destruct (_ <? _); [| done].
  by eapply emit_fuel.
Qed.

Lemma lexNumber_loop_fuel n f lex r :
  lexNumber_loop n lex = Ok r -> length (input lex) - cursor lex < f ->
  lexNumber_loop f lex = Ok r.
Proof.
  revert f lex. induction n as [| n IH]; intros f lex H Hf; [done |].
  destruct f as [| f]; [lia |]. cbn [lexNumber_loop] in *.
  destruct (next_cases lex) as [[Hge Hn] | [[He Hn] | (b & Hb & Hn)]];
    rewrite Hn, bind_Ok_l in *.
  - rewrite lexNumber_loop_to_end in H; [done |].
    rewrite drop_ge by lia. constructor.
  - rewrite lexNumber_loop_to_end in H; [done |].
    rewrite drop_ge by (cbn; lia). constructor.
  - destruct (negb (isNumeric [b])); [done |]. apply IH; [done |].
    apply lookup_lt_Some in Hb. cbn. lia.
Qed.

Lemma lexTagName_loop_fuel n f lex r :
  lexTagName_loop n lex = Ok r -> length (input lex) - cursor lex < f ->
  lexTagName_loop f lex = Ok r.
Proof.
  revert f lex. induction n as [| n IH]; intros f lex H Hf; [done |].
  destruct f as [| f]; [lia |]. cbn [lexTagName_loop] in *.
  destruct (next_cases lex) as [[Hge Hn] | [[He Hn] | (b & Hb & Hn)]];
    rewrite Hn, bind_Ok_l in *.
  - rewrite lexTagName_loop_to_end in H; [done |].
    rewrite drop_ge by lia. constructor.
  - rewrite lexTagName_loop_to_end in H; [done |].
    rewrite drop_ge by (cbn; lia). constructor.
  - destruct (negb (isAlphaNumeric [b])); [done |]. apply IH; [done |].
    apply lookup_lt_Some in Hb. cbn. lia.
Qed.

Lemma lexName_loop_fuel n f lex r :
  lexName_loop n lex = Ok r -> length (input lex) - cursor lex < f ->
  lexName_loop f lex = Ok r.
Proof.
  revert f lex. induction n as [| n IH]; intros f lex H Hf; [done |].
  destruct f as [| f]; [lia |]. cbn [lexName_loop] in *.
  apply bind_Ok in H as (str & Hcur & H). rewrite Hcur, bind_Ok_l.
  apply current_Ok in Hcur as (b & Hb & ->). apply lookup_lt_Some in Hb.
  destruct (isAlphaNumeric [b]); [| done].
  destruct (next_lt lex Hb) as (str & Hn & _). rewrite Hn, bind_Ok_l in *.
  apply IH; [done |]. cbn. lia.
Qed.

Lemma lexData_loop_fuel n f lex r :
  lexData_loop n lex = Ok r -> length (input lex) - cursor lex + 1 < f ->
  lexData_loop f lex = Ok r.
Proof.
  revert f lex. induction n as [| n IH]; intros f lex H Hf; [done |].
  destruct f as [| f]; [lia |]. cbn [lexData_loop] in *.
  apply bind_Ok in H as (rest & Hrest & H). rewrite Hrest, bind_Ok_l.
  destruct (hasPrefix rest delimOpenTag);
    [| destruct (hasPrefix rest delimOpenPrint)].
  - apply bind_Ok in H as (lex1 & Hp & H).
    rewrite (emit_pending_fuel _ f _ _ Hp) by lia. done.
  - apply bind_Ok in H as (lex1 & Hp & H).
    rewrite (emit_pending_fuel _ f _ _ Hp) by lia. done.
  - destruct (next_cases lex) as [[Hge Hn] | [[He Hn] | (b & Hb & Hn)]];
      rewrite Hn, bind_Ok_l in *; try done.
    rewrite bool_decide_eq_false_2 in * by done.
    apply IH; [done |]. apply lookup_lt_Some in Hb. cbn. lia.
Qed.

Lemma emit_frame n lex t lex' :
  emit n lex t = Ok lex' ->
  input lex' = input lex /\ cursor lex <= cursor lex' <= length (input lex).
Proof. by intros (_ & _ & ? & _ & ? & _)%emit_value. Qed.

Lemma emit_pending_frame n lex lex' :
  emit_pending n lex = Ok lex' ->
  input lex' = input lex /\ cursor lex <= cursor lex'.
Proof.
  unfold emit_pending. intros H. destruct (_ <? _).
  - apply emit_frame in H as (? & ? & _). done.
  - by injection H as <-.
Qed.

(** The step [emit] of a state function, with the fuel changed. *)
Ltac emit_with f He :=
  let Hin := fresh "Hin" in let Hc := fresh "Hc" in
  pose proof (emit_frame _ _ _ _ He) as [Hin Hc];
  cbn [set_cursor input cursor] in Hin, Hc;
  rewrite (emit_fuel _ f _ _ _ He), ?bind_Ok_l
    by (cbn [set_cursor input cursor];
        repeat match goal with
          | Hi : input ?a = _ |- context [input ?a] => rewrite Hi
          end; lia).

Lemma call_fuel st n f lex x :
  call st n lex = Ok x -> length (input lex) - cursor lex + 1 < f ->
  call st f lex = Ok x.
Proof.
  intros H Hf. destruct st; cbn [call] in *.
  - unfold lexData in *. apply bind_Ok in H as ([lex1 r] & Hloop & H).
    rewrite (lexData_loop_fuel _ f _ _ Hloop), bind_Ok_l by lia.
    destruct r as [st |]; [done |].
    apply lexData_loop_scanned in Hloop as (d & Hd & _ & ->).
    apply bind_Ok in H as (lex2 & Hp & H).
    pose proof (emit_pending_frame _ _ _ Hp) as [Hin Hc].
    cbn [set_cursor input cursor] in Hin, Hc.
    rewrite (emit_pending_fuel _ f _ _ Hp), bind_Ok_l by (cbn; lia).
    apply bind_Ok in H as (lex3 & He & H). emit_with f He. done.
  - done.
  - unfold lexNumber in *. apply bind_Ok in H as (lex1 & Hloop & H).
    rewrite (lexNumber_loop_fuel _ f _ _ Hloop), bind_Ok_l by lia.
    apply lexNumber_loop_scanned in Hloop as (c & -> & Hc & _).
    apply bind_Ok in H as (lex2 & He & H). emit_with f He. done.
  - unfold lexOperator in *. apply bind_Ok in H as ([s1 lex1] & Hn & H).
    rewrite Hn, bind_Ok_l. apply next_Ok in Hn as (c & -> & Hc & _).
    apply bind_Ok in H as (lex2 & He & H). emit_with f He. done.
  - unfold lexPunctuation in *. apply bind_Ok in H as ([s1 lex1] & Hn & H).
    rewrite Hn, bind_Ok_l. apply next_Ok in Hn as (c & -> & Hc & _).
    apply bind_Ok in H as (lex2 & He & H). emit_with f He. done.
  - unfold lexString in *. apply bind_Ok in H as ([s1 lex1] & Hn & H).
    rewrite Hn, bind_Ok_l. apply next_Ok in Hn as (c & -> & Hc & _).
    apply bind_Ok in H as (lex2 & He & H). emit_with f He.
    apply bind_Ok in H as (rest & Hrest & H). rewrite Hrest, bind_Ok_l.
    cbn zeta in *. destruct (_ <? 0)%Z; [done |].
    apply bind_Ok in H as (lex4 & He4 & H). emit_with f He4.
    apply bind_Ok in H as ([s5 lex5] & Hn5 & H).
    rewrite Hn5, bind_Ok_l. apply next_Ok in Hn5 as (c5 & -> & Hc5 & _).
    apply bind_Ok in H as (lex6 & He6 & H). emit_with f He6. done.
  - unfold lexOpenParens in *. apply bind_Ok in H as (str & Hcur & H).
    rewrite Hcur, bind_Ok_l. apply bind_Ok in H as (lex2 & He & H).
    repeat match type of He with
      | (if ?c then _ else _) = _ => destruct c
      end; try done;
      apply bind_Ok in He as ([s1 lex1] & Hn & He);
      rewrite Hn, bind_Ok_l; apply next_Ok in Hn as (c & -> & Hc & _);
      emit_with f He; done.
  - unfold lexCloseParens in *. apply bind_Ok in H as (str & Hcur & H).
    rewrite Hcur, bind_Ok_l. apply bind_Ok in H as (lex2 & He & H).
    repeat match type of He with
      | (if ?c then _ else _) = _ => destruct c
      end; try done;
      apply bind_Ok in He as ([s1 lex1] & Hn & He);
      rewrite Hn, bind_Ok_l; apply next_Ok in Hn as (c & -> & Hc & _);
      emit_with f He; done.
  - unfold lexName in *. apply bind_Ok in H as (lex1 & Hloop & H).
    rewrite (lexName_loop_fuel _ f _ _ Hloop), bind_Ok_l by lia.
    apply lexName_loop_scanned in Hloop as (c & -> & Hc & _).
    apply bind_Ok in H as (lex2 & He & H). emit_with f He. done.
  - unfold lexTagOpen in *. cbn zeta in *.
    apply bind_Ok in H as (lex2 & He & H). emit_with f He. done.
  - unfold lexTagName in *. apply bind_Ok in H as (lex1 & Hloop & H).
    rewrite (lexTagName_loop_fuel _ f _ _ Hloop), bind_Ok_l by lia.
    apply lexTagName_loop_scanned in Hloop as (c & -> & Hc & _).
    apply bind_Ok in H as (lex2 & He & H). emit_with f He. done.
  - unfold lexTagClose in *. destruct (0 <? _)%Z; [done |]. cbn zeta in *.
    apply bind_Ok in H as (lex2 & He & H). emit_with f He. done.
  - unfold lexPrintOpen in *. cbn zeta in *.
    apply bind_Ok in H as (lex2 & He & H). emit_with f He. done.
  - unfold lexPrintClose in *. destruct (0 <? _)%Z; [done |]. cbn zeta in *.
    apply bind_Ok in H as (lex2 & He & H). emit_with f He. done.
Qed.

(** The step [emit] of a state function: where it leaves the cursor. *)
Ltac emit_moves He :=
  let Hin := fresh "Hin" in let Hc := fresh "Hc" in
  apply emit_frame in He as [Hin Hc];
  cbn [set_cursor input cursor] in Hin, Hc.

Ltac measured :=
  left; unfold measure; cbn [set_parens set_cursor input cursor];
  repeat match goal with
    | Hi : input ?a = _ |- context [input ?a] => rewrite Hi
    end; lia.

(** Every state function that returns a successor moves the run closer
    to its end, [lexName] at an underscore apart. *)
Lemma call_progress st n lex lex' st' :
  call st n lex = Ok (lex', Some st') -> entry st lex ->
  measure st' lex' < measure st lex \/
  (st' = LexExpression /\
   input lex' !! cursor lex' = Some underscore /\ pos lex' = cursor lex').
Proof.
  intros H [Hpc Hent]. destruct st; cbn [call] in H.
  - unfold lexData in H. apply bind_Ok in H as ([lex1 r] & Hloop & H).
    destruct r as [st |]; [| by inv_ok]. injection H as <- <-.
    apply lexData_loop_scanned in Hloop as (d & Hd & _ & [(f & Hf) Hst]).
    apply emit_pending_frame in Hf as [Hin Hc].
    cbn [set_cursor input cursor] in Hin, Hc.
    destruct Hst as [[-> _] | [-> _]]; measured.
  - unfold lexExpression in H. apply bind_Ok in H as (str & _ & H).
    apply bind_Ok in H as (rest & _ & H).
    repeat match type of H with
      | (if ?c then _ else _) = _ => destruct c
      end; try done; injection H as <- <-; measured.
  - destruct Hent as (b & Hb & _). apply lookup_lt_Some in Hb.
    unfold lexNumber in H. apply bind_Ok in H as (lex1 & Hloop & H).
    apply bind_Ok in H as (lex2 & He & H). injection H as <- <-.
    apply lexNumber_loop_scanned in Hloop as (c & -> & Hc & _).
    emit_moves He. measured.
  - destruct Hent as (b & Hb & _). apply lookup_lt_Some in Hb.
    unfold lexOperator in H. apply bind_Ok in H as ([s1 lex1] & Hn & H).
    destruct (next_lt lex Hb) as (str & Hn' & _).
    rewrite Hn' in Hn. injection Hn as _ <-.
    apply bind_Ok in H as (lex2 & He & H). injection H as <- <-.
    emit_moves He. measured.
  - destruct Hent as (b & Hb & _). apply lookup_lt_Some in Hb.
    unfold lexPunctuation in H. apply bind_Ok in H as ([s1 lex1] & Hn & H).
    destruct (next_lt lex Hb) as (str & Hn' & _).
    rewrite Hn' in Hn. injection Hn as _ <-.
    apply bind_Ok in H as (lex2 & He & H). injection H as <- <-.
    emit_moves He. measured.
  - apply lookup_lt_Some in Hent.
    unfold lexString in H. apply bind_Ok in H as ([s1 lex1] & Hn & H).
    destruct (next_lt lex Hent) as (str & Hn' & _).
    rewrite Hn' in Hn. injection Hn as _ <-.
    apply bind_Ok in H as (lex2 & He & H). emit_moves He.
    apply bind_Ok in H as (rest & _ & H). cbn zeta in H.
    destruct (_ <? 0)%Z; [done |].
    apply bind_Ok in H as (lex4 & He4 & H). emit_moves He4.
    apply bind_Ok in H as ([s5 lex5] & Hn5 & H).
    apply next_Ok in Hn5 as (c5 & -> & Hc5 & _).
    apply bind_Ok in H as (lex6 & He6 & H). injection H as <- <-.
    emit_moves He6. measured.
  - unfold lexOpenParens in H. apply bind_Ok in H as (str & Hcur & H).
    apply current_Ok in Hcur as (b & Hb & _). apply lookup_lt_Some in Hb.
    destruct (next_lt lex Hb) as (s1 & Hn' & _).
    apply bind_Ok in H as (lex2 & He & H). injection H as <- <-.
    rewrite Hn', bind_Ok_l in He.
    repeat match type of He with
      | (if ?c then _ else _) = _ => destruct c
      end; try done; emit_moves He; measured.
  - unfold lexCloseParens in H. apply bind_Ok in H as (str & Hcur & H).
    apply current_Ok in Hcur as (b & Hb & _). apply lookup_lt_Some in Hb.
    destruct (next_lt lex Hb) as (s1 & Hn' & _).
    apply bind_Ok in H as (lex2 & He & H). injection H as <- <-.
    rewrite Hn', bind_Ok_l in He.
    repeat match type of He with
      | (if ?c then _ else _) = _ => destruct c
      end; try done; emit_moves He; measured.
  - destruct Hent as (b & Hb & Hnum & Hname).
    unfold lexName in H. apply bind_Ok in H as (lex1 & Hloop & H).
    apply bind_Ok in H as (lex2 & He & H). injection H as <- <-.
    apply lexName_loop_scanned in Hloop as (c & -> & Hc & _ & e & He' & Hne).
    destruct (decide (c = cursor lex)) as [-> | Hlt].
    + right. split; [done |].
      assert (b = underscore) as -> by (apply name_byte; congruence).
      apply emit_value in He as (_ & _ & Hin & Hp & _ & Hstay).
      cbn [set_cursor input cursor] in Hin, Hstay.
      rewrite Hin, Hp, (Hstay underscore) by first [done | by vm_compute].
      done.
    + apply lookup_lt_Some in He'. emit_moves He. measured.
  - unfold lexTagOpen in H. cbn zeta in H.
    apply bind_Ok in H as (lex2 & He & H). injection H as <- <-.
    emit_moves He. cbn in Hc. measured.
  - unfold lexTagName in H. apply bind_Ok in H as (lex1 & Hloop & H).
    apply bind_Ok in H as (lex2 & He & H). injection H as <- <-.
    apply lexTagName_loop_scanned in Hloop as (c & -> & Hc & _).
    emit_moves He. measured.
  - unfold lexTagClose in H. destruct (0 <? _)%Z; [done |]. cbn zeta in H.
    apply bind_Ok in H as (lex2 & He & H). injection H as <- <-.
    emit_moves He. cbn in Hc. measured.
  - unfold lexPrintOpen in H. cbn zeta in H.
    apply bind_Ok in H as (lex2 & He & H). injection H as <- <-.
    emit_moves He. cbn in Hc. measured.
  - unfold lexPrintClose in H. destruct (0 <? _)%Z; [done |]. cbn zeta in H.
    apply bind_Ok in H as (lex2 & He & H). injection H as <- <-.
    emit_moves He. cbn in Hc. measured.
Qed.

Lemma run_fuel n f lex lex' st m :
  run n lex = Ok lex' -> state lex = Some st ->
  feeds Outside (types lex) = Some m -> fits st m = true ->
  entry st lex -> lexemes None (tokens lex) = true ->
  measure st lex + 3 <= f ->
  run f lex = Ok lex'.
Proof.
  revert f lex st m.
  induction n as [| n IH]; intros f lex st m H Hst HG Hfit Hent Hlex Hf;
    [done |].
  destruct f as [| f]; [lia |]. cbn [run] in *. rewrite Hst in *.
  apply bind_Ok in H as (lex1 & Hstep & H).
  unfold step in *. apply bind_Ok in Hstep as ([l st'] & Hcall & Hstep).
  injection Hstep as <-.
  rewrite (call_fuel _ _ f _ _ Hcall), !bind_Ok_l
    by (unfold measure in Hf; lia).
  destruct (call_feeds _ _ _ _ _ _ Hcall HG Hfit) as (m' & HG' & Hfit').
  destruct (call_lexemes _ _ _ _ _ _ Hcall HG Hfit Hent Hlex)
    as [[Hlex' Hent'] | (-> & Hu & Hp)];
    [| rewrite run_at_underscore in H; [done | done | done | by left]].
  destruct st' as [st' |].
  - destruct (call_progress _ _ _ _ _ Hcall Hent) as [Hlt | (-> & Hu & Hp)];
      [| rewrite run_at_underscore in H; [done | done | done | by left]].
    apply (IH _ _ st' m'); try done.
    change (measure st' (set_state l (Some st'))) with (measure st' l). lia.
  - destruct n; [done |]. destruct f as [| f]; [lia |]. done.
Qed.

(** X18: A call of [tokenize] that returns does so within [2 * len(code) + 3]
    state functions, none of whose loops goes round more often than
    that: fuel [2 * len(code) + 4], or more, gives the same result. *)
Theorem tokenize_returns_within_linear_fuel n lex code r f :
  tokenize n lex code = Ok r -> 2 * length code + 4 <= f ->
  tokenize f lex code = Ok r.
Proof.
  unfold tokenize. intros H Hf. apply bind_Ok in H as (lex1 & Hrun & H).
  rewrite (run_fuel _ f _ _ LexData Outside Hrun); try done.
  unfold measure. cbn. lia.
Qed.

Lemma tokenize_returns_within_linear_fuel_witness :
  exists r,
    tokenize 200 lexer0 src_lexemes = Ok r /\
    tokenize (2 * length src_lexemes + 4) lexer0 src_lexemes = Ok r.
Proof.
  eexists. split; [vm_compute; reflexivity |].
  apply (tokenize_returns_within_linear_fuel 200 lexer0 src_lexemes);
    [vm_compute; reflexivity | lia].
Defined.

End LinearFuel.

(** * Facts about the parser's stacks *)

Section ParseFacts.

Import Parse.

Context {token lexer ModuleNode BlockNode : Type}.
Context (nextToken : lexer -> result (token * lexer)).

Implicit Types t : Tree token lexer ModuleNode.
Implicit Types h : gmap loc (gmap string BlockNode).

Lemma top_snoc {A} (s : list A) (x : A) : top (s ++ [x]) = Ok x.
Proof.
  unfold top. rewrite length_app. cbn.
  replace (length s + 1 - 1) with (length s) by lia.
  by rewrite list_lookup_middle.
Qed.

Lemma pop_snoc {A} (s : list A) (x : A) : pop (s ++ [x]) = s.
Proof.
  unfold pop. rewrite length_app. cbn.
  replace (length s + 1 - 1) with (length s) by lia.
  by rewrite take_app_length.
Qed.

Lemma next_read t tok t' :
  next nextToken t = Ok (tok, t') ->
  exists t1, t' = set_read t1 (read t1 ++ [tok]) /\ read t1 = read t.
Proof.
  unfold next. intros H. apply bind_Ok in H as ([tok1 t1] & H1 & H).
  injection H as -> <-. exists t1. split; [done |].
  destruct (0 <? length (unread t)).
  - apply bind_Ok in H1 as (x & _ & H1). by injection H1 as _ <-.
  - apply bind_Ok in H1 as ([x lx] & _ & H1). by injection H1 as _ <-.
Qed.

Lemma backup_snoc t r tok :
  read t = r ++ [tok] ->
  backup t = Ok (set_unread (set_read t r) (unread t ++ [tok])).
Proof.
  intros Hr. unfold backup. by rewrite Hr, top_snoc, pop_snoc.
Qed.

Lemma next_unread_snoc t u tok :
  unread t = u ++ [tok] ->
  next nextToken t = Ok (tok, set_read (set_unread t u) (read t ++ [tok])).
Proof.
  intros Hu. unfold next. rewrite Hu, top_snoc, pop_snoc, length_app.
  cbn [length]. by replace (0 <? length u + 1) with true by (symmetry; apply Nat.ltb_lt; lia).
Qed.

(** C7: after three reads by [next] that returned [a], [b], [c], the
    three [backup] calls of [backup3] return, and the next three reads
    return [a], [b], [c] again, in that order, without asking the lexer;
    the parser is then in the state it was in after the first three
    reads. *)
Theorem three_reads_backup3_three_reads t a b c t1 t2 t3 :
  next nextToken t = Ok (a, t1) ->
  next nextToken t1 = Ok (b, t2) ->
  next nextToken t2 = Ok (c, t3) ->
  exists t6 t7 t8,
    backup3 t3 = Ok t6 /\
    next nextToken t6 = Ok (a, t7) /\
    next nextToken t7 = Ok (b, t8) /\
    next nextToken t8 = Ok (c, t3).
Proof.
  intros (ta & -> & Ha)%next_read (tb & -> & Hb)%next_read (tc & -> & Hc)%next_read.
  cbn [set_read read] in Hb, Hc. destruct tc as [rt bl inp lx U Rc].
  cbn [read] in Hc. subst Rc. rewrite Hb.
  unfold backup3, set_read. cbn [root blocks input lex unread read].
  erewrite backup_snoc by reflexivity. rewrite bind_Ok_l.
  unfold set_read, set_unread. cbn [root blocks input lex unread read].
  erewrite backup_snoc by reflexivity. rewrite bind_Ok_l.
  unfold set_read, set_unread. cbn [root blocks input lex unread read].
  erewrite backup_snoc by reflexivity.
  unfold set_read, set_unread. cbn [root blocks input lex unread read].
  eexists _, _, _. split; [reflexivity |].
  split; [by erewrite next_unread_snoc by reflexivity |].
  unfold set_read, set_unread. cbn [root blocks input lex unread read].
  split; [by erewrite next_unread_snoc by reflexivity |].
  unfold set_read, set_unread. cbn [root blocks input lex unread read].
  by erewrite next_unread_snoc by reflexivity.
Qed.

(** The sequence allocates one map object, leaves in it the one entry,
    and hands the tree back as it was. *)
Lemma push_set_pop_eq name (body : BlockNode) h t :
  push_set_pop name body h t =
    Ok (fresh (dom h), <[fresh (dom h) := {[name := body]}]> h, t).
Proof.
  unfold push_set_pop, pushBlockStack, setBlock, popBlockStack, Blocks.
  cbn [set_blocks blocks]. rewrite top_snoc, !bind_Ok_l, lookup_insert_eq.
  rewrite bind_Ok_l, pop_snoc, insert_insert_eq, insert_empty.
  by destruct t.
Qed.

(** C8, as amended: for every tree, heap of map objects, block name and
    node, [pushBlockStack(); setBlock(name, node); popBlockStack()]
    returns a map object that did not exist before and holds exactly the
    entry [name -> node]; the tree, and with it the stack of enclosing
    scopes, is as before, and so is every map object that existed before:
    nothing is written to or merged into the parent scope, whose map
    holds an entry for [name] after the sequence only if it held that
    entry before. *)
Theorem push_set_pop_scope name (body : BlockNode) h t :
  exists l h',
    push_set_pop name body h t = Ok (l, h', t) /\
    h !! l = None /\
    h' !! l = Some {[name := body]} /\
    (forall l', l' <> l -> h' !! l' = h !! l') /\
    (forall lp mp, top (blocks t) = Ok lp -> h !! lp = Some mp ->
       lp <> l /\ h' !! lp = Some mp).
Proof.
  exists (fresh (dom h)), (<[fresh (dom h) := {[name := body]}]> h).
  assert (h !! fresh (dom h) = None) as Hfresh
    by (apply not_elem_of_dom, is_fresh).
  split; [apply push_set_pop_eq |]. split; [done |].
  split; [apply lookup_insert_eq |].
  split; [intros l' Hne; by apply lookup_insert_ne |].
  intros lp mp _ Hlp.
  assert (lp <> fresh (dom h)) as Hne by congruence.
  by rewrite lookup_insert_ne.
Qed.

End ParseFacts.

Section ParseExamples.

Import Parse.

Lemma three_reads_backup3_three_reads_witness :
  exists t6 t7 t8,
    backup3 tree3 = Ok t6 /\
    next counting t6 = Ok (0, t7) /\
    next counting t7 = Ok (1, t8) /\
    next counting t8 = Ok (2, tree3).
Proof.
  apply (three_reads_backup3_three_reads counting tree0 0 1 2 tree1 tree2 tree3);
    reflexivity.
Defined.

Lemma push_set_pop_scope_witness :
  exists l h',
    push_set_pop "b" 8 heap_a tree_a = Ok (l, h', tree_a) /\
    heap_a !! l = None /\
    h' !! l = Some {[ "b" := 8 ]} /\
    (forall l', l' <> l -> h' !! l' = heap_a !! l') /\
    (forall lp mp, top (blocks tree_a) = Ok lp -> heap_a !! lp = Some mp ->
       lp <> l /\ h' !! lp = Some mp).
Proof. apply (push_set_pop_scope "b" 8 heap_a tree_a). Defined.

(** C8 as stated fails when the parent scope held the entry before the
    sequence: it still holds it after the pop. *)
Lemma push_set_pop_parent_entry_counterexample :
  ~ (forall name (body : nat) (h : gmap loc (gmap string nat))
            (t : Tree nat nat unit) lp,
        top (blocks t) = Ok lp ->
        exists l h' t',
          push_set_pop name body h t = Ok (l, h', t') /\
          h' !! l = Some {[name := body]} /\
          forall mp, h' !! lp = Some mp -> mp !! name <> Some body).
Proof.
  intros H.
  destruct (H "a" 7 heap_a tree_a 1%positive eq_refl)
    as (l & h' & t' & Heq & _ & Habsent).
  rewrite push_set_pop_eq in Heq. injection Heq as <- <- _.
  apply (Habsent {[ "a" := 7 ]}); [| apply lookup_singleton_eq].
  rewrite lookup_insert_ne; [apply lookup_singleton_eq |].
  intros Hfresh.
  pose proof (is_fresh (dom heap_a)) as Hnin. rewrite Hfresh in Hnin.
  apply Hnin. unfold heap_a. rewrite dom_singleton_L. set_solver.
Qed.

End ParseExamples.

(** ** Reading, un-reading and peeking *)

Section ParseMoreFacts.

Import Parse.

Context {token lexer ModuleNode BlockNode tokenType error : Type}.
Context `{EqDecision tokenType}.
Context (nextToken : lexer -> result (token * lexer)).
Context (tok_tokenType : token -> tokenType) (tok_value : token -> string).
Context (tokenWhitespace tokenEof : tokenType).
Context (newUnexpectedTokenError : token -> list tokenType -> error).
Context (newUnexpectedValueError : token -> string -> error).

Implicit Types t : Tree token lexer ModuleNode.
Implicit Types h : gmap loc (gmap string BlockNode).

(** A [next] that returned can be taken back, and read again. *)
Lemma next_backup_next t a t1 :
  next nextToken t = Ok (a, t1) ->
  exists tb, backup t1 = Ok tb /\ next nextToken tb = Ok (a, t1) /\
             read tb = read t.
Proof.
  intros (ta & -> & Ha)%next_read. destruct ta as [rt bl inp lx U R].
  cbn [read] in Ha. subst R. unfold set_read. cbn [root blocks input lex unread read].
  erewrite backup_snoc by reflexivity.
  unfold set_read, set_unread. cbn [root blocks input lex unread read].
  eexists. split; [reflexivity |]. split; [| reflexivity].
  by erewrite next_unread_snoc by reflexivity.
Qed.

(** What [backup] took back, the next [next] returns, and the parser is
    where it was before the [backup]. *)
Lemma backup_next t t' :
  backup t = Ok t' ->
  exists tok, next nextToken t' = Ok (tok, t) /\ read t = read t' ++ [tok].
Proof.
  unfold backup. intros H. apply bind_Ok in H as (tok & Htop & H).
  injection H as <-. exists tok.
  assert (read t = pop (read t) ++ [tok]) as Hr.
  { unfold top in Htop. destruct (read t !! (length (read t) - 1)) eqn:E; [| done].
    injection Htop as ->. unfold pop.
    destruct (read t) as [| x r] using rev_ind; [done |].
    rewrite length_app in E |- *. cbn in E |- *.
    replace (length r + 1 - 1) with (length r) in E |- * by lia.
    rewrite list_lookup_middle in E by done. injection E as ->.
    by rewrite take_app_length. }
  split; [| done]. erewrite next_unread_snoc by reflexivity.
  unfold set_read, set_unread. cbn [root blocks input lex unread read].
  rewrite <- Hr. by destruct t.
Qed.

Lemma backups_S_r n t :
  backups (S n) t = backups n t ≫= backup.
Proof.
  revert t. induction n as [| n IH]; intros t.
  - cbn. by destruct (backup t).
  - change (backups (S (S n)) t) with (backup t ≫= backups (S n)).
    change (backups (S n) t) with (backup t ≫= backups n).
    destruct (backup t) as [t1 | |]; cbn; [apply IH | done | done].
Qed.

Lemma nexts_backups n t toks t' :
  nexts nextToken n t = Ok (toks, t') ->
  exists tb, backups n t' = Ok tb /\ nexts nextToken n tb = Ok (toks, t') /\
             read tb = read t.
Proof.
  revert t toks t'. induction n as [| n IH]; intros t toks t' H.
  - cbn in H. injection H as <- <-. by exists t.
  - cbn [nexts] in H. apply bind_Ok in H as ([a t1] & Hn & H).
    apply bind_Ok in H as ([l t2] & Hns & H). injection H as <- <-.
    destruct (IH _ _ _ Hns) as (tb1 & Hb & Hre & Hread).
    destruct (next_read _ _ _ _ Hn) as (ta & -> & Ha). cbn [set_read read] in Hread.
    rewrite backups_S_r, Hb, bind_Ok_l. rewrite Ha in Hread.
    rewrite (backup_snoc tb1 (read t) a Hread).
    eexists. split; [reflexivity |]. split; [| reflexivity].
    cbn [nexts]. erewrite next_unread_snoc by reflexivity.
    unfold set_read, set_unread. cbn [root blocks input lex unread read].
    rewrite bind_Ok_l, <- Hread.
    replace (mkTree (root tb1) (blocks tb1) (input tb1) (lex tb1) (unread tb1) (read tb1))
      with tb1 by by destruct tb1.
    by rewrite Hre.
Qed.

(** X19: The backtrack is as deep as the reads: after [n] reads that
    returned, [n] calls of [backup] return and the next [n] reads return
    the same tokens in the same order, leaving the parser where the
    first [n] reads left it. *)
Theorem reads_backups_reads n t toks t' :
  nexts nextToken n t = Ok (toks, t') ->
  exists tb, backups n t' = Ok tb /\ nexts nextToken n tb = Ok (toks, t').
Proof.
  intros H. destruct (nexts_backups _ _ _ _ H) as (tb & Hb & Hn & _). eauto.
Qed.


(** X21: [peek] returns the token the next [next] returns and leaves the read
    stack as it was; a second [peek] changes nothing. *)
Theorem peek_then_next t tok t' :
  peek nextToken t = Ok (tok, t') ->
  exists t1,
    next nextToken t = Ok (tok, t1) /\ next nextToken t' = Ok (tok, t1) /\
    read t' = read t /\ peek nextToken t' = Ok (tok, t').
Proof.
  unfold peek. intros H. apply bind_Ok in H as ([a t1] & Hn & H).
  apply bind_Ok in H as (t2 & Hb & H). injection H as <- <-.
  destruct (next_backup_next _ _ _ Hn) as (tb & Hb' & Hn' & Hr).
  assert (tb = t2) as -> by congruence.
  exists t1. repeat split; try done. by rewrite Hn', bind_Ok_l, Hb.
Qed.

(** X22: [nextNonSpace] returns the first token that is not whitespace (or is
    EOF); the whitespace tokens before it are read and dropped. *)
Theorem nextNonSpace_skips_blanks fuel t tok t' :
  nextNonSpace nextToken tok_tokenType tokenWhitespace tokenEof fuel t
    = Ok (tok, t') ->
  nonSpace tok_tokenType tokenWhitespace tokenEof tok = true /\
  exists skipped,
    Forall (blank tok_tokenType tokenWhitespace tokenEof) skipped /\
    read t' = read t ++ skipped ++ [tok].
Proof.
  revert t. induction fuel as [| fuel IH]; intros t H; [done |].
  cbn [nextNonSpace] in H. apply bind_Ok in H as ([nx t1] & Hn & H).
  destruct (next_read _ _ _ _ Hn) as (ta & -> & Ha).
  destruct (nonSpace _ _ _ nx) eqn:E.
  - injection H as <- <-. split; [done |]. exists []. split; [constructor |].
    cbn. by rewrite Ha.
  - apply IH in H as (Hns & skipped & Hall & Hr). split; [done |].
    exists (nx :: skipped). split; [by constructor |].
    rewrite Hr. cbn. by rewrite Ha, <- app_assoc.
Qed.

(** X23: [peekNonSpace] un-reads only the token it returns: the whitespace
    tokens before it stay read.  The token it returns is the one the
    next [next], and the next [nextNonSpace], return. *)
Theorem peekNonSpace_keeps_blanks_read fuel t tok t' :
  peekNonSpace nextToken tok_tokenType tokenWhitespace tokenEof fuel t
    = Ok (tok, t') ->
  nonSpace tok_tokenType tokenWhitespace tokenEof tok = true /\
  (exists skipped,
      Forall (blank tok_tokenType tokenWhitespace tokenEof) skipped /\
      read t' = read t ++ skipped) /\
  exists t1,
    next nextToken t' = Ok (tok, t1) /\
    forall f, nextNonSpace nextToken tok_tokenType tokenWhitespace tokenEof
                (S f) t' = Ok (tok, t1).
Proof.
  revert t. induction fuel as [| fuel IH]; intros t H; [done |].
  cbn [peekNonSpace] in H. apply bind_Ok in H as ([nx t1] & Hn & H).
  destruct (nonSpace _ _ _ nx) eqn:E.
  - apply bind_Ok in H as (t2 & Hb & H). injection H as <- <-.
    destruct (next_backup_next _ _ _ Hn) as (tb & Hb' & Hn' & Hr).
    assert (tb = t2) as -> by congruence.
    split; [done |]. split; [exists []; split; [constructor | by rewrite app_nil_r] |].
    exists t1. split; [done |]. intros f. cbn [nextNonSpace].
    by rewrite Hn', bind_Ok_l, E.
  - destruct (next_read _ _ _ _ Hn) as (ta & -> & Ha).
    apply IH in H as (Hns & (skipped & Hall & Hr) & Hnext). split; [done |].
    split; [| done]. exists (nx :: skipped). split; [by constructor |].
    rewrite Hr. cbn. by rewrite Ha, <- app_assoc.
Qed.

Lemma listed_iff (tk : token) (typs : list tokenType) :
  existsb (fun typ => bool_decide (tok_tokenType tk = typ)) typs = true <->
  tok_tokenType tk ∈ typs.
Proof.
  rewrite existsb_exists. split.
  - intros (typ & Hin & Heq). apply bool_decide_eq_true in Heq.
    apply list_elem_of_In in Hin. by subst typ.
  - intros Hin. exists (tok_tokenType tk). split; [by apply list_elem_of_In |].
    by apply bool_decide_eq_true.
Qed.

(** X24: [expect] reads the next non-space token whether it is expected or
    not, and returns no error exactly when its type is among [typs];
    otherwise the error is the unexpected-token error for that token and
    [typs]. *)
Theorem expect_accepts_listed_types fuel typs t tok err t' :
  expect nextToken tok_tokenType tokenWhitespace tokenEof
    newUnexpectedTokenError fuel typs t = Ok (tok, err, t') ->
  nextNonSpace nextToken tok_tokenType tokenWhitespace tokenEof fuel t
    = Ok (tok, t') /\
  (err = None <-> tok_tokenType tok ∈ typs) /\
  (tok_tokenType tok ∉ typs -> err = Some (newUnexpectedTokenError tok typs)).
Proof.
  unfold expect. intros H. apply bind_Ok in H as ([tk t1] & Hn & H).
  destruct (existsb _ typs) eqn:E.
  - injection H as <- <- <-. split; [done |].
    apply listed_iff in E. split; [done |]. done.
  - injection H as <- <- <-. split; [done |].
    assert (tok_tokenType tk ∉ typs) as Hnin.
    { intros Hin%listed_iff. congruence. }
    split; [split; [done | by intros ?] | done].
Qed.

(** X25: [expectValue] returns no error exactly when the next non-space token
    has type [typ] and value [val]; a wrong type is reported before a
    wrong value, and the token is read in every case. *)
Theorem expectValue_checks_type_then_value fuel typ val t tok err t' :
  expectValue nextToken tok_tokenType tok_value tokenWhitespace tokenEof
    newUnexpectedTokenError newUnexpectedValueError fuel typ val t
    = Ok (tok, err, t') ->
  nextNonSpace nextToken tok_tokenType tokenWhitespace tokenEof fuel t
    = Ok (tok, t') /\
  err = (if decide (tok_tokenType tok = typ) then
           if decide (tok_value tok = val) then None
           else Some (newUnexpectedValueError tok val)
         else Some (newUnexpectedTokenError tok [typ])) /\
  (err = None <-> tok_tokenType tok = typ /\ tok_value tok = val).
Proof.
  unfold expectValue, expect. intros H.
  apply bind_Ok in H as ([[tk e] t1] & He & H).
  apply bind_Ok in He as ([tk0 t0] & Hn & He).
  assert (tok_tokenType tk0 ∈ [typ] <-> tok_tokenType tk0 = typ) as Hin
    by apply list_elem_of_singleton.
  destruct (existsb _ [typ]) eqn:E; injection He as <- <- <-.
  - assert (tok_tokenType tk0 = typ) as Heq by by apply Hin, listed_iff.
    destruct (decide (tok_value tk0 = val)) as [Hv | Hv].
    + rewrite bool_decide_eq_true_2 in H by done. injection H as <- <- <-.
      rewrite !decide_True by done. by repeat split.
    + rewrite bool_decide_eq_false_2 in H by done. injection H as <- <- <-.
      rewrite decide_True, decide_False by done.
      split; [done |]. split; [done |]. split; [done | tauto].
  - assert (tok_tokenType tk0 <> typ) as Hne.
    { intros Heq%Hin%listed_iff. congruence. }
    injection H as <- <- <-. rewrite decide_False by done.
    split; [done |]. split; [done |]. split; [done | tauto].
Qed.

(** X26: [setBlock] writes the entry into the map on top of the stack and
    into no other map object; an entry set before under the same name
    is overwritten, the entries under other names stay. *)
Theorem setBlock_writes_top_scope name (body : BlockNode) h t h' :
  setBlock name body h t = Ok h' ->
  exists l m,
    Blocks t = Ok l /\ h !! l = Some m /\
    h' !! l = Some (<[name := body]> m) /\
    (forall l', l' <> l -> h' !! l' = h !! l') /\
    (forall body2, setBlock name body2 h' t = setBlock name body2 h t) /\
    (forall name2 body2 h2,
        name2 <> name -> setBlock name2 body2 h' t = Ok h2 ->
        exists m2, h2 !! l = Some m2 /\ m2 !! name = Some body /\
                   m2 !! name2 = Some body2).
Proof.
  unfold setBlock, Blocks. intros H. apply bind_Ok in H as (l & Hl & H).
  destruct (h !! l) as [m |] eqn:Hm; [| done]. injection H as <-.
  exists l, m. split; [done |]. split; [done |].
  split; [apply lookup_insert_eq |].
  split; [by intros l' Hne; apply lookup_insert_ne |]. split.
  - intros body2. rewrite Hl, !bind_Ok_l, lookup_insert_eq, Hm.
    by rewrite !insert_insert_eq.
  - intros name2 body2 h2 Hne H2. rewrite Hl, bind_Ok_l, lookup_insert_eq in H2.
    injection H2 as <-. eexists. split; [apply lookup_insert_eq |].
    split; [| apply lookup_insert_eq].
    rewrite lookup_insert_ne by done. apply lookup_insert_eq.
Qed.

End ParseMoreFacts.

Section ParseMoreExamples.

Import Parse.

Lemma reads_backups_reads_witness :
  exists tb, backups 2 tree2 = Ok tb /\ nexts counting 2 tb = Ok ([0; 1], tree2).
Proof. apply (reads_backups_reads counting 2 tree0 [0; 1] tree2). reflexivity. Defined.


Lemma peek_then_next_witness :
  exists t1,
    next counting tree0 = Ok (0, t1) /\ next counting tree_peeked = Ok (0, t1) /\
    read tree_peeked = read tree0 /\ peek counting tree_peeked = Ok (0, tree_peeked).
Proof. apply (peek_then_next counting tree0 0 tree_peeked). reflexivity. Defined.

Lemma nextNonSpace_skips_blanks_witness :
  nonSpace id 0 9 5 = true /\
  exists skipped,
    Forall (fun s => nonSpace id 0 9 s = false) skipped /\
    read tree_blank_read = read tree_blank ++ skipped ++ [5].
Proof.
  apply (nextNonSpace_skips_blanks counting id 0 9 5 tree_blank 5 tree_blank_read).
  reflexivity.
Defined.

Lemma peekNonSpace_keeps_blanks_read_witness :
  nonSpace id 0 9 5 = true /\
  (exists skipped,
      Forall (fun s => nonSpace id 0 9 s = false) skipped /\
      read tree_blank_peeked = read tree_blank ++ skipped) /\
  exists t1,
    next counting tree_blank_peeked = Ok (5, t1) /\
    forall f, nextNonSpace counting id 0 9 (S f) tree_blank_peeked = Ok (5, t1).
Proof.
  apply (peekNonSpace_keeps_blanks_read counting id 0 9 5 tree_blank 5
           tree_blank_peeked).
  reflexivity.
Defined.

Lemma expect_accepts_listed_types_witness :
  nextNonSpace counting id 0 9 5 tree_blank = Ok (5, tree_blank_read) /\
  (@None string = None <-> id 5 ∈ [5; 7]) /\
  (id 5 ∉ [5; 7] -> None = Some (unexpectedToken 5 [5; 7])).
Proof.
  apply (expect_accepts_listed_types counting id 0 9 unexpectedToken 5 [5; 7]
           tree_blank 5 None tree_blank_read).
  reflexivity.
Defined.

Lemma expectValue_checks_type_then_value_witness :
  nextNonSpace counting id 0 9 5 tree_blank = Ok (5, tree_blank_read) /\
  @None string =
    (if decide (id 5 = 5) then
       if decide (value_of 5 = "endblock") then None
       else Some (unexpectedValue 5 "endblock")
     else Some (unexpectedToken 5 [5])) /\
  (@None string = None <-> id 5 = 5 /\ value_of 5 = "endblock").
Proof.
  apply (expectValue_checks_type_then_value counting id value_of 0 9
           unexpectedToken unexpectedValue 5 5 "endblock" tree_blank 5 None
           tree_blank_read).
  reflexivity.
Defined.

Lemma setBlock_writes_top_scope_witness :
  exists l m,
    Blocks tree_a = Ok l /\ heap_a !! l = Some m /\
    heap_ab !! l = Some (<[ "b" := 8 ]> m) /\
    (forall l', l' <> l -> heap_ab !! l' = heap_a !! l') /\
    (forall body2, setBlock "b" body2 heap_ab tree_a = setBlock "b" body2 heap_a tree_a) /\
    (forall name2 body2 h2,
        name2 <> "b" -> setBlock name2 body2 heap_ab tree_a = Ok h2 ->
        exists m2, h2 !! l = Some m2 /\ m2 !! "b" = Some 8 /\
                   m2 !! name2 = Some body2).
Proof.
  apply (setBlock_writes_top_scope "b" 8 heap_a tree_a heap_ab).
  unfold setBlock, heap_ab, heap_a.
  change (top (blocks tree_a)) with (@Ok loc 1%positive).
  by rewrite bind_Ok_l, lookup_singleton_eq.
Defined.

End ParseMoreExamples.
